(** * Word-Frequency: the ingestion and enrichment pipeline, verified

    A shallow embedding of
      - [src/components/WordInput.tsx]   (tokenizer and submit handler),
      - [src/lib/supabase.ts]            (word store),
      - [src/services/dictionaryApi.ts]  (definition fetcher),
    followed by the properties the specification states about them.

    Conventions of the embedding.
      - A JavaScript string is a [string]; a character is a code unit
        below 256, read as the code point of the same number (Basic Latin
        and Latin-1 Supplement).
      - A nullable column, an optional property and a [T | null] result
        are an [option].
      - A JavaScript number is an IEEE 754 binary64 value, a
        [spec_float] of the Standard Library, with its operations at 53
        bits; an instant is an integer of milliseconds, read as a number
        where the code computes with it.
      - The remote table and the lookup service are not code of this
        repository: the table is a list of rows served one request at a
        time, the lookup service is the answer it gives to one request.
        What the network and the servers decide (whether a request and
        its reply get through, clocks, identifiers, the order in which
        concurrent requests are served) is an explicit argument. *)

From Stdlib Require Import ZArith Ascii String List Bool Lia Permutation.
From Stdlib Require Import Floats.SpecFloat.
From stdpp Require Import base decidable option list strings.
Import ListNotations.

Local Open Scope string_scope.
Local Open Scope list_scope.

(** ** JavaScript strings *)

Module JS.

Definition code (c : ascii) : N := N_of_ascii c.

(** [String.prototype.toLowerCase], one code unit: A-Z, and the capital
    letters of Latin-1 (U+00C0..U+00DE without the multiplication
    sign U+00D7), move 32 places up. *)
Definition lower_char (c : ascii) : ascii :=
  let n := code c in
  if ((65 <=? n) && (n <=? 90))%N then ascii_of_N (n + 32)
  else if ((192 <=? n) && (n <=? 222) && negb (n =? 215))%N
       then ascii_of_N (n + 32)
       else c.

Fixpoint toLowerCase (s : string) : string :=
  match s with
  | EmptyString => EmptyString
  | String c s' => String (lower_char c) (toLowerCase s')
  end.

(** The class [\s] of a regular expression, which is also what [trim]
    removes: TAB, LF, VT, FF, CR, SPACE and NO-BREAK SPACE. *)
Definition is_space (c : ascii) : bool :=
  let n := code c in
  (((9 <=? n) && (n <=? 13)) || (n =? 32) || (n =? 160))%N.

(** The class [[a-z]]. *)
Definition is_az (c : ascii) : bool :=
  let n := code c in ((97 <=? n) && (n <=? 122))%N.

(** [s.split(/\s+/)]: the pieces between the maximal runs of white
    space.  [cur] is the piece being read, [in_sep] says that the last
    character read was white space.  A run at either end of [s] leaves
    an empty piece there, and the empty string gives one empty piece. *)
Fixpoint split_ws_from (cur : string) (in_sep : bool) (s : string)
  : list string :=
  match s with
  | EmptyString => [cur]
  | String c s' =>
      if is_space c
      then if in_sep then split_ws_from cur true s'
           else cur :: split_ws_from EmptyString true s'
      else split_ws_from (cur ++ String c EmptyString)%string false s'
  end.

Definition split_ws (s : string) : list string :=
  split_ws_from EmptyString false s.

(** [s.replace(/[^a-z]/g, '')]. *)
Fixpoint replace_non_az (s : string) : string :=
  match s with
  | EmptyString => EmptyString
  | String c s' =>
      if is_az c then String c (replace_non_az s') else replace_non_az s'
  end.

Fixpoint trimStart (s : string) : string :=
  match s with
  | EmptyString => EmptyString
  | String c s' => if is_space c then trimStart s' else s
  end.

(** [trimEnd s] keeps [s] up to its last character that is not white
    space. *)
Fixpoint trimEnd (s : string) : string :=
  match s with
  | EmptyString => EmptyString
  | String c s' =>
      match trimEnd s' with
      | EmptyString => if is_space c then EmptyString
                       else String c EmptyString
      | t => String c t
      end
  end.

Definition trim (s : string) : string := trimEnd (trimStart s).

(** Truthiness of a string. *)
Definition truthy (s : string) : bool :=
  match s with EmptyString => false | _ => true end.

(** [[...new Set(xs)]]: a [Set] iterates in insertion order, and adding
    a member again does nothing, so each value stays at the place of
    its first occurrence. *)
Fixpoint Set_from (seen : list string) (xs : list string) : list string :=
  match xs with
  | [] => []
  | x :: xs' =>
      if bool_decide (x ∈ seen) then Set_from seen xs'
      else x :: Set_from (x :: seen) xs'
  end.

Definition spread_Set (xs : list string) : list string := Set_from [] xs.

(** [xs.forEach((x, index) => ...)] over the variables [V] that the
    callback assigns. *)
Fixpoint forEach_from {A V} (index : nat) (body : A -> nat -> V -> V)
    (xs : list A) (vars : V) : V :=
  match xs with
  | [] => vars
  | x :: xs' => forEach_from (S index) body xs' (body x index vars)
  end.

Definition forEach {A V} (body : A -> nat -> V -> V) (xs : list A)
    (vars : V) : V := forEach_from 0 body xs vars.

(** [x > y] on numbers: false when one of them is NaN. *)
Definition gt (x y : spec_float) : bool := SFltb y x.

End JS.

(** ** JavaScript numbers

    A number is an IEEE 754 binary64 value.  The operations are those of
    the Standard Library's specification of floating-point arithmetic
    ([SpecFloat]) at 53 bits of precision: each gives the double nearest
    to the exact result, ties to even. *)

Module Number.

Definition prec : Z := 53.
Definition emax : Z := 1024.

(** An integer as a number, as [getTime()] gives a time value and as an
    integer literal is read: the integer itself when its magnitude is
    below 2^53, which every time value is. *)
Definition of_Z (z : Z) : spec_float := binary_normalize prec emax z 0 false.

Definition sub : spec_float -> spec_float -> spec_float := SFsub prec emax.
Definition mul : spec_float -> spec_float -> spec_float := SFmul prec emax.
Definition div : spec_float -> spec_float -> spec_float := SFdiv prec emax.

End Number.

(** ** Asynchronous functions

    An [async] function runs until it returns, throws, or awaits the
    reply to a request it has sent; in the last case it goes on from the
    reply.  [Q] is the type of requests and [R] the type of replies. *)

Module Async.

Section Promise.
Context {Q R E : Type}.

Inductive t (A : Type) : Type :=
| Resolved (a : A)
| Rejected (e : E)
| Pending (q : Q) (k : R -> t A).

Arguments Resolved {A} a.
Arguments Rejected {A} e.
Arguments Pending {A} q k.

Definition await (q : Q) : t R := Pending q Resolved.

Fixpoint bind {A B} (m : t A) (f : A -> t B) : t B :=
  match m with
  | Resolved a => f a
  | Rejected e => Rejected e
  | Pending q k => Pending q (fun r => bind (k r) f)
  end.

(** [try { m } catch (e) { h e }] *)
Fixpoint try_catch {A} (m : t A) (h : E -> t A) : t A :=
  match m with
  | Resolved a => Resolved a
  | Rejected e => h e
  | Pending q k => Pending q (fun r => try_catch (k r) h)
  end.

Definition settled {A} (m : t A) : bool :=
  match m with Pending _ _ => false | _ => true end.

(** The computation goes on from the reply [r]. *)
Definition resume {A} (m : t A) (r : R) : t A :=
  match m with Pending _ k => k r | _ => m end.

(** The request a computation is waiting on. *)
Definition waiting_on {A} (m : t A) : list Q :=
  match m with Pending q _ => [q] | _ => [] end.

End Promise.

Arguments t : clear implicits.
Arguments Resolved {Q R E A} a.
Arguments Rejected {Q R E A} e.
Arguments Pending {Q R E A} q k.

End Async.

Notation "'let*' x ':=' m 'in' f" := (Async.bind m (fun x => f))
  (at level 10, x name, m at level 100, f at level 200).

(** ** [lib/supabase.ts]: the word store *)

Module Supabase.

(** An instant, in milliseconds since the epoch. *)
Definition Time := Z.

Record WordDefinition := {
  partOfSpeech : string;
  definition : string
}.

Record WordPronunciation := {
  text : string;
  audio : option string
}.

(** [interface Word], a row of the table [words]. *)
Record Word := {
  id : string;
  word : string;
  frequency : Z;
  created_at : Time;
  pronunciation : option string;
  pronunciations : option (list WordPronunciation);
  examples : option (list string);
  definitions : option (list WordDefinition);
  last_fetched_at : option Time
}.

(** *** The table, as the client sees it

    The object given to [.update(...)] travels as JSON text.  A
    property whose value is [undefined] is not written by
    [JSON.stringify], and UPDATE assigns the columns named in the body
    and no others: [None] below is a column that is not in the body. *)
Record Columns := {
  set_frequency : option Z;
  set_pronunciation : option string;
  set_pronunciations : option (list WordPronunciation);
  set_definitions : option (list WordDefinition);
  set_examples : option (list string);
  set_last_fetched_at : option Time
}.

Definition no_columns : Columns :=
  {| set_frequency := None; set_pronunciation := None;
     set_pronunciations := None; set_definitions := None;
     set_examples := None; set_last_fetched_at := None |}.

Inductive Request :=
(** [.select('*').eq('word', w).maybeSingle()] *)
| SelectEqWord (w : string)
(** [.update(body).eq('id', i).select().single()] *)
| UpdateEqId (body : Columns) (i : string)
(** [.insert([{ word: w, frequency: f }]).select().single()] *)
| Insert (w : string) (f : Z).

Inductive PgError :=
| FetchFailed        (* the request, or its reply, did not get through *)
| NotSingleRow       (* [single]/[maybeSingle] on another number of rows *)
| UniqueViolation.   (* primary key, or UNIQUE (word) *)

(** What a query resolves to: [{ data, error }].  The client does not
    reject, a failure is reported in [error]. *)
Record Reply := { data : option Word; error : option PgError }.

Definition ok (r : option Word) : Reply := {| data := r; error := None |}.
Definition failure (e : PgError) : Reply :=
  {| data := None; error := Some e |}.

(** What the network and the server settle for one request: whether the
    request reaches the table; when it does, the server's clock ([now()])
    and the identifier it draws ([gen_random_uuid()]); and whether the
    reply comes back. *)
Inductive Link :=
| Down                                (* the request is not served *)
| Lost (now : Time) (uuid : string)   (* served, the reply does not arrive *)
| Up (now : Time) (uuid : string).    (* served and answered *)

Definition assign (body : Columns) (r : Word) : Word :=
  {| id := id r;
     word := word r;
     frequency := default (frequency r) (set_frequency body);
     created_at := created_at r;
     pronunciation :=
       match set_pronunciation body with
       | Some v => Some v | None => pronunciation r end;
     pronunciations :=
       match set_pronunciations body with
       | Some v => Some v | None => pronunciations r end;
     examples :=
       match set_examples body with
       | Some v => Some v | None => examples r end;
     definitions :=
       match set_definitions body with
       | Some v => Some v | None => definitions r end;
     last_fetched_at :=
       match set_last_fetched_at body with
       | Some v => Some v | None => last_fetched_at r end |}.

(** The row INSERT makes of [{ word, frequency }]: [id] and
    [created_at] take their defaults, the other columns are NULL. *)
Definition new_row (uuid : string) (now : Time) (w : string) (f : Z) : Word :=
  {| id := uuid; word := w; frequency := f; created_at := now;
     pronunciation := None; pronunciations := None; examples := None;
     definitions := None; last_fetched_at := None |}.

Definition has_word (w : string) (r : Word) : bool := String.eqb (word r) w.
Definition has_id (i : string) (r : Word) : bool := String.eqb (id r) i.

(** The table handles one request: its reply and the rows afterwards.
    [id] is the primary key and [word] is UNIQUE. *)
Definition answer (now : Time) (uuid : string) (q : Request)
    (rows : list Word) : Reply * list Word :=
  match q with
  | SelectEqWord w =>
      match List.filter (has_word w) rows with
      | [] => (ok None, rows)
      | [r] => (ok (Some r), rows)
      | _ => (failure NotSingleRow, rows)
      end
  | UpdateEqId body i =>
      match List.filter (has_id i) rows with
      | [r] =>
          (ok (Some (assign body r)),
           map (fun r => if has_id i r then assign body r else r) rows)
      | _ => (failure NotSingleRow, rows)
      end
  | Insert w f =>
      if existsb (has_id uuid) rows || existsb (has_word w) rows
      then (failure UniqueViolation, rows)
      else let r := new_row uuid now w f in (ok (Some r), rows ++ [r])
  end.

(** One request over the network: what the client is told, and the rows
    afterwards. *)
Definition serve (l : Link) (q : Request) (rows : list Word)
  : Reply * list Word :=
  match l with
  | Down => (failure FetchFailed, rows)
  | Lost now uuid => (failure FetchFailed, (answer now uuid q rows).2)
  | Up now uuid => answer now uuid q rows
  end.

Abbreviation Promise := (Async.t Request Reply PgError).

(** *** [addOrUpdateWord] *)
Definition addOrUpdateWord (word_ : string) : Promise (option Word) :=
  Async.try_catch
    (let normalizedWord := JS.toLowerCase word_ in
     let* found := Async.await (SelectEqWord normalizedWord) in
     match error found with
     | Some fetchError => Async.Rejected fetchError
     | None =>
         match data found with
         | Some existingWord =>
             let* updated :=
               Async.await
                 (UpdateEqId
                    {| set_frequency := Some (frequency existingWord + 1)%Z;
                       set_pronunciation := None;
                       set_pronunciations := None;
                       set_definitions := None;
                       set_examples := None;
                       set_last_fetched_at := None |}
                    (id existingWord)) in
             match error updated with
             | Some e => Async.Rejected e
             | None => Async.Resolved (data updated)
             end
         | None =>
             let* inserted := Async.await (Insert normalizedWord 1) in
             match error inserted with
             | Some e => Async.Rejected e
             | None => Async.Resolved (data inserted)
             end
         end
     end)
    (fun _ => Async.Resolved None).

(** *** [updateWordDetails]

    [clock] is what [new Date()] reads on the client. *)
Record Details := {
  details_pronunciation : option string;
  details_pronunciations : option (list WordPronunciation);
  details_definitions : option (list WordDefinition);
  details_examples : option (list string)
}.

Definition updateWordDetails (wordId : string) (details : Details)
    (clock : Time) : Promise (option Word) :=
  Async.try_catch
    (let* updated :=
       Async.await
         (UpdateEqId
            {| set_frequency := None;
               set_pronunciation := details_pronunciation details;
               set_pronunciations := details_pronunciations details;
               set_definitions := details_definitions details;
               set_examples := details_examples details;
               set_last_fetched_at := Some clock |}
            wordId) in
     match error updated with
     | Some e => Async.Rejected e
     | None => Async.Resolved (data updated)
     end)
    (fun _ => Async.Resolved None).

(** *** Requests in flight

    The store as one call sees it: the rows, and the requests the
    call has made so far.  The list [issued] is a bag: it keeps the
    requests in the order in which the computations come to them, which
    is not the order in which the client library puts them on the
    network (the code does not decide that one), and the properties
    below are stated up to the order of the list. *)
Record World := { table : list Word; issued : list Request }.

(** The computations started by one call and not yet joined.  Each one
    that is [Pending] has one request in flight; the next entry of the
    schedule says which of them the table serves next, and how. *)
Definition Schedule := list (nat * Link).

Definition deliver {A} (st : list (Promise A) * World) (ev : nat * Link)
  : list (Promise A) * World :=
  let '(pool, w) := st in
  let '(i, l) := ev in
  match pool !! i with
  | Some (Async.Pending q k) =>
      let '(reply, rows) := serve l q (table w) in
      (<[i := k reply]> pool,
       {| table := rows;
          issued := issued w ++ Async.waiting_on (k reply) |})
  | _ => st
  end.

(** Calling the [async] functions makes their first requests: each
    computation runs to its first [await]. *)
Definition start {A} (pool : list (Promise A)) (w : World) : World :=
  {| table := table w;
     issued := issued w ++ concat (map Async.waiting_on pool) |}.

Definition run {A} (sched : Schedule) (pool : list (Promise A)) (w : World)
  : list (Promise A) * World :=
  fold_left deliver sched (pool, start pool w).

(** [Promise.all]: rejected once a member is rejected, fulfilled with
    the values in order once every member is fulfilled. *)
Inductive Joined (A : Type) :=
| Fulfilled (values : list A)
| Failed (e : PgError)
| Unsettled.
Arguments Fulfilled {A} values.
Arguments Failed {A} e.
Arguments Unsettled {A}.

Fixpoint first_rejected {A} (pool : list (Promise A)) : option PgError :=
  match pool with
  | [] => None
  | Async.Rejected e :: _ => Some e
  | _ :: pool' => first_rejected pool'
  end.

Fixpoint values {A} (pool : list (Promise A)) : option (list A) :=
  match pool with
  | [] => Some []
  | Async.Resolved a :: pool' =>
      match values pool' with Some vs => Some (a :: vs) | None => None end
  | _ :: _ => None
  end.

Definition Promise_all {A} (pool : list (Promise A)) : Joined A :=
  match first_rejected pool with
  | Some e => Failed e
  | None =>
      match values pool with
      | Some vs => Fulfilled vs
      | None => Unsettled
      end
  end.

(** *** [addOrUpdateWordsConcurrently] *)

(** [{ word, result, success }] *)
Record Outcome := {
  outcome_word : string;
  outcome_result : option Word;
  outcome_success : bool
}.

(** [{ success, failed }] *)
Record Batch := { success : list Word; failed : list string }.

Definition wordPromise (word_ : string) : Promise Outcome :=
  Async.try_catch
    (let* result := addOrUpdateWord word_ in
     Async.Resolved
       {| outcome_word := word_;
          outcome_result := result;
          outcome_success := bool_decide (result <> None) |})
    (fun _ =>
       Async.Resolved
         {| outcome_word := word_;
            outcome_result := None;
            outcome_success := false |}).

(** The [forEach] that separates the results. *)
Definition separate (acc : Batch) (o : Outcome) : Batch :=
  match outcome_success o, outcome_result o with
  | true, Some result =>
      {| success := success acc ++ [result]; failed := failed acc |}
  | _, _ =>
      {| success := success acc; failed := failed acc ++ [outcome_word o] |}
  end.

(** [None]: the call is still waiting when the schedule ends. *)
Definition addOrUpdateWordsConcurrently (words : list string)
    (sched : Schedule) (w : World) : option Batch * World :=
  let uniqueWords := JS.spread_Set (map JS.toLowerCase words) in
  let wordPromises := map wordPromise uniqueWords in
  let '(pool, w') := run sched wordPromises w in
  match Promise_all pool with
  | Fulfilled results =>
      (Some (fold_left separate results {| success := []; failed := [] |}),
       w')
  | Failed _ => (Some {| success := []; failed := words |}, w')
  | Unsettled => (None, w')
  end.

(** One computation alone: its requests are served in turn. *)
Fixpoint run_alone {A} (links : list Link) (m : Promise A) (rows : list Word)
  : Promise A * list Word :=
  match links, m with
  | l :: links', Async.Pending q k =>
      let '(reply, rows') := serve l q rows in run_alone links' (k reply) rows'
  | _, _ => (m, rows)
  end.

End Supabase.

(** ** [components/WordInput.tsx] *)

Module WordInput.

(** The chain that computes [words] in [processWords]. *)
Definition words (inputText : string) : list string :=
  let pieces := JS.split_ws (JS.toLowerCase inputText) in
  let pieces := List.filter (fun word => (0 <? String.length word)%nat) pieces in
  let pieces := map JS.replace_non_az pieces in
  let pieces := List.filter (fun word => (0 <? String.length word)%nat) pieces in
  List.filter (fun word => (2 <=? String.length word)%nat) pieces.

(** The component's state, and the number of times it has called
    [onWordsAdded]. *)
Record State := {
  inputText : string;
  isProcessing : bool;
  processedWords : list string;
  failedWords : list string;
  wordsAdded : nat
}.

Definition setInputText (v : string) (st : State) : State :=
  {| inputText := v; isProcessing := isProcessing st;
     processedWords := processedWords st; failedWords := failedWords st;
     wordsAdded := wordsAdded st |}.
Definition setIsProcessing (v : bool) (st : State) : State :=
  {| inputText := inputText st; isProcessing := v;
     processedWords := processedWords st; failedWords := failedWords st;
     wordsAdded := wordsAdded st |}.
Definition setProcessedWords (v : list string) (st : State) : State :=
  {| inputText := inputText st; isProcessing := isProcessing st;
     processedWords := v; failedWords := failedWords st;
     wordsAdded := wordsAdded st |}.
Definition setFailedWords (v : list string) (st : State) : State :=
  {| inputText := inputText st; isProcessing := isProcessing st;
     processedWords := processedWords st; failedWords := v;
     wordsAdded := wordsAdded st |}.
Definition onWordsAdded (st : State) : State :=
  {| inputText := inputText st; isProcessing := isProcessing st;
     processedWords := processedWords st; failedWords := failedWords st;
     wordsAdded := S (wordsAdded st) |}.

(** [processWords], up to the state in which the results are shown
    (the timer that clears them four seconds later is left out).  The
    schedule is the store's side of the call to
    [addOrUpdateWordsConcurrently]; when it ends before the call
    returns, the component is left waiting.  The call does not throw, it
    catches what its computations throw, so the [catch] clause of
    [processWords] has no case here. *)
Definition processWords (st : State) (sched : Supabase.Schedule)
    (w : Supabase.World) : State * Supabase.World :=
  if negb (JS.truthy (JS.trim (inputText st))) then (st, w)
  else
    let st := setIsProcessing true st in
    let st := setProcessedWords [] st in
    let st := setFailedWords [] st in
    let words := words (inputText st) in
    if (length words =? 0)%nat then (setIsProcessing false st, w)
    else
      match Supabase.addOrUpdateWordsConcurrently words sched w with
      | (Some batch, w') =>
          let st := setProcessedWords
                      (map Supabase.word (Supabase.success batch)) st in
          let st := setFailedWords (Supabase.failed batch) st in
          let st := setInputText "" st in
          let st := onWordsAdded st in
          (setIsProcessing false st, w')
      | (None, w') => (st, w')
      end.

End WordInput.

(** ** [services/dictionaryApi.ts]: the definition fetcher *)

Module DictionaryApi.

(** [interface DictionaryApiResponse].  The members of [phonetics] and
    of [meanings], and the members of a meaning's [definitions], have no
    name in the source.  [phonetics] and [meanings] are declared
    mandatory, but the text received is not checked against the
    declaration: [None] is an entry that lacks the property. *)
Record Phonetic := {
  phonetic_text : option string;
  phonetic_audio : option string
}.

Record Sense := {
  sense_definition : string;
  sense_example : option string;
  sense_synonyms : option (list string);
  sense_antonyms : option (list string)
}.

Record Meaning := {
  meaning_partOfSpeech : string;
  meaning_definitions : list Sense
}.

Record DictionaryApiResponse := {
  word : string;
  phonetic : option string;
  phonetics : option (list Phonetic);
  meanings : option (list Meaning)
}.

(** [interface PronunciationInfo] *)
Record PronunciationInfo := {
  text : string;
  audio : option string
}.

(** A member of [WordDetails.definitions]. *)
Record Definition_ := {
  partOfSpeech : string;
  definition : string
}.

(** [interface WordDetails] *)
Record WordDetails := {
  pronunciation : string;
  pronunciations : list PronunciationInfo;
  definitions : list Definition_;
  examples : list string
}.

(** *** What the lookup service answers *)

(** What [response.json()] gives: it rejects, or it resolves to the
    value read, [null] or an array of entries. *)
Inductive Body :=
| Unparseable
| JsonNull
| JsonArray (entries : list DictionaryApiResponse).

(** What [fetch(apiUrl)] gives: it rejects, or it resolves to a
    response. *)
Inductive Fetched :=
| NetworkFailure
| Response (status : nat) (body : Body).

(** [response.ok] *)
Definition ok (status : nat) : bool :=
  ((200 <=? status) && (status <=? 299))%nat.

Inductive Exn :=
| FetchRejected                  (* [fetch] rejected *)
| RequestFailed (status : nat)   (* the [Error] thrown on a bad status *)
| SyntaxError                    (* [response.json()] rejected *)
| TypeError.                     (* a property read on [undefined] *)

(** *** Completions: a value returned, or an exception thrown *)
Inductive Completion (A : Type) :=
| Return (a : A)
| Throw (e : Exn).
Arguments Return {A} a.
Arguments Throw {A} e.

Definition try_catch {A} (m : Completion A) (h : Exn -> Completion A)
  : Completion A :=
  match m with
  | Return a => Return a
  | Throw e => h e
  end.

(** *** Pronunciations (the text after "提取发音信息") *)

(** The callback of [wordData.phonetics.forEach], on the variables
    [pronunciations] and [mainPronunciation]. *)
Definition eachPhonetic (phonetic_ : Phonetic) (_ : nat)
    (vars : list PronunciationInfo * string)
  : list PronunciationInfo * string :=
  let '(pronunciations, mainPronunciation) := vars in
  match phonetic_text phonetic_ with
  | Some t =>
      if JS.truthy t then
        let pronunciationInfo :=
          match phonetic_audio phonetic_ with
          | Some a =>
              if JS.truthy a && negb (String.eqb (JS.trim a) "")
              then {| text := t; audio := Some a |}
              else {| text := t; audio := None |}
          | None => {| text := t; audio := None |}
          end in
        (pronunciations ++ [pronunciationInfo],
         if negb (JS.truthy mainPronunciation) then t
         else mainPronunciation)
      else vars
  | None => vars
  end.

Definition extractPronunciations (word_ : string)
    (wordData : DictionaryApiResponse)
  : list PronunciationInfo * string :=
  let vars := ([], "") in
  let vars :=
    match phonetics wordData with
    | Some ps =>
        if (0 <? length ps)%nat then JS.forEach eachPhonetic ps vars
        else vars
    | None => vars
    end in
  let vars :=
    let '(pronunciations, mainPronunciation) := vars in
    match phonetic wordData with
    | Some p =>
        if negb (JS.truthy mainPronunciation) && JS.truthy p
        then (pronunciations ++ [{| text := p; audio := None |}], p)
        else vars
    | None => vars
    end in
  let '(pronunciations, mainPronunciation) := vars in
  if negb (JS.truthy mainPronunciation)
  then
    let mainPronunciation := ("/" ++ word_ ++ "/")%string in
    (pronunciations ++ [{| text := mainPronunciation; audio := None |}],
     mainPronunciation)
  else vars.

(** *** Definitions and examples (the text after "提取定义信息") *)

(** The callback of [meaning.definitions.forEach], on the variables
    [definitions] and [examples]. *)
Definition eachSense (meaning : Meaning) (def : Sense) (index : nat)
    (vars : list Definition_ * list string)
  : list Definition_ * list string :=
  let '(definitions, examples) := vars in
  let definitions :=
    if (index <? 3)%nat
    then definitions ++
           [{| partOfSpeech := meaning_partOfSpeech meaning;
               definition := sense_definition def |}]
    else definitions in
  let examples :=
    match sense_example def with
    | Some e =>
        if JS.truthy e && (length examples <? 5)%nat
        then examples ++ [e] else examples
    | None => examples
    end in
  (definitions, examples).

Definition eachMeaning (meaning : Meaning) (_ : nat)
    (vars : list Definition_ * list string)
  : list Definition_ * list string :=
  JS.forEach (eachSense meaning) (meaning_definitions meaning) vars.

Definition quote : string := String "034"%char EmptyString.

Definition placeholderExample (word_ : string) : string :=
  ("This is an example sentence with the word " ++ quote ++ word_
     ++ quote ++ ".")%string.

(** The function from [const wordData = data[0]] to its [return]. *)
Definition extract (word_ : string) (wordData : DictionaryApiResponse)
  : Completion (option WordDetails) :=
  let '(pronunciations, mainPronunciation) :=
    extractPronunciations word_ wordData in
  match meanings wordData with
  | None => Throw TypeError
  | Some ms =>
      let '(definitions, examples) := JS.forEach eachMeaning ms ([], []) in
      let examples :=
        if (length examples =? 0)%nat
        then examples ++ [placeholderExample word_] else examples in
      Return
        (Some {| pronunciation := mainPronunciation;
                 pronunciations := pronunciations;
                 definitions := take 5 definitions;
                 examples := take 3 examples |})
  end.

(** *** [fetchWordDetails]

    [fetched] is what the lookup service answers to the one request
    the function sends. *)
Definition fetchWordDetails (word_ : string) (fetched : Fetched)
  : Completion (option WordDetails) :=
  try_catch
    (match fetched with
     | NetworkFailure => Throw FetchRejected
     | Response status body =>
         if negb (ok status) then
           if (status =? 404)%nat then Return None
           else Throw (RequestFailed status)
         else
           match body with
           | Unparseable => Throw SyntaxError
           | JsonNull => Return None
           | JsonArray [] => Return None
           | JsonArray (wordData :: _) => extract word_ wordData
           end
     end)
    (fun _ => Return None).

(** *** [shouldUpdateWordDetails]

    [lastFetchedAt] is the column [last_fetched_at] as read from the
    table, an instant or [null]; [maxAgeHours] is [None] when the
    caller leaves it out; [now] is what [new Date()] reads.  The
    difference, the quotient and the comparison are those of numbers. *)
Definition hoursDiff (lastFetched now : Z) : spec_float :=
  Number.div (Number.sub (Number.of_Z now) (Number.of_Z lastFetched))
    (Number.mul (Number.mul (Number.of_Z 1000) (Number.of_Z 60))
       (Number.of_Z 60)).

Definition shouldUpdateWordDetails (lastFetchedAt : option Z)
    (maxAgeHours : option spec_float) (now : Z) : bool :=
  let maxAgeHours :=
    default (Number.mul (Number.of_Z 24) (Number.of_Z 7)) maxAgeHours in
  match lastFetchedAt with
  | None => true
  | Some lastFetched =>
      let hoursDiff := hoursDiff lastFetched now in
      JS.gt hoursDiff maxAgeHours
  end.

End DictionaryApi.

(** ** The specification's own wording *)

Module Spec.

(** §4.1: lowercase the text; split on whitespace runs; strip every
    character that is not a lowercase Latin letter from each token;
    discard empty tokens; discard tokens of length 1. *)
Definition strip (token : string) : string :=
  string_of_list_ascii (List.filter JS.is_az (list_ascii_of_string token)).

Definition tokenize (text_ : string) : list string :=
  let tokens := JS.split_ws (JS.toLowerCase text_) in
  let tokens := map strip tokens in
  let tokens := List.filter (fun t => negb (String.eqb t "")) tokens in
  List.filter (fun t => negb (String.length t =? 1)%nat) tokens.

(** §4.4: within each meaning group take at most the first 3
    definitions; cap the combined list at 5. *)
Definition group (m : DictionaryApi.Meaning) : list DictionaryApi.Definition_ :=
  map (fun s => {| DictionaryApi.partOfSpeech :=
                     DictionaryApi.meaning_partOfSpeech m;
                   DictionaryApi.definition :=
                     DictionaryApi.sense_definition s |})
      (take 3 (DictionaryApi.meaning_definitions m)).

Definition combined (ms : list DictionaryApi.Meaning)
  : list DictionaryApi.Definition_ := concat (map group ms).

(** §4.4: the entries of the phonetic list with explicit phonetic
    text, each optionally carrying an audio URL; the first of them is
    the primary pronunciation; if there is none, the top-level phonetic
    field if present; if still none, a placeholder "/word/". *)
Definition hasText (p : DictionaryApi.Phonetic) : bool :=
  match DictionaryApi.phonetic_text p with
  | Some t => negb (String.eqb t "")
  | None => false
  end.

Definition hasAudio (p : DictionaryApi.Phonetic) : bool :=
  match DictionaryApi.phonetic_audio p with
  | Some a =>
      existsb (fun c => negb (JS.is_space c)) (list_ascii_of_string a)
  | None => false
  end.

Definition infoOf (p : DictionaryApi.Phonetic)
  : DictionaryApi.PronunciationInfo :=
  {| DictionaryApi.text := default "" (DictionaryApi.phonetic_text p);
     DictionaryApi.audio :=
       if hasAudio p then DictionaryApi.phonetic_audio p else None |}.

Definition bare (t : string) : DictionaryApi.PronunciationInfo :=
  {| DictionaryApi.text := t; DictionaryApi.audio := None |}.

Definition pronunciationsOf (word_ : string)
    (wordData : DictionaryApi.DictionaryApiResponse)
  : list DictionaryApi.PronunciationInfo * string :=
  let withText :=
    List.filter hasText (default [] (DictionaryApi.phonetics wordData)) in
  match withText with
  | first :: _ =>
      (map infoOf withText, DictionaryApi.text (infoOf first))
  | [] =>
      match DictionaryApi.phonetic wordData with
      | Some (String c p) => ([bare (String c p)], String c p)
      | _ => let placeholder := ("/" ++ word_ ++ "/")%string in
             ([bare placeholder], placeholder)
      end
  end.

End Spec.

(** ** Doubles and what they stand for *)

Module Doubles.

(** A time value that a [Date] holds: at most 8.64e15 milliseconds
    from the epoch. *)
Definition timeValue (t : Z) : Prop :=
  (-8640000000000000 <= t <= 8640000000000000)%Z.

(** The exponent and the 53-bit mantissa of the double that is the
    integer [z], for 0 < |z| < 2^53. *)
Definition exponent (z : Z) : Z := (Z.log2 (Z.abs z) - 52)%Z.

Definition mantissa (z : Z) : positive :=
  Z.to_pos (Z.abs z * 2 ^ (52 - Z.log2 (Z.abs z)))%Z.

(** A finite double. *)
Definition double (x : spec_float) : bool :=
  match x with
  | S754_zero _ => true
  | S754_finite _ _ _ => valid_binary Number.prec Number.emax x
  | _ => false
  end.

(** The value of a finite double, times 2^1074: an integer. *)
Definition scaled (x : spec_float) : Z :=
  match x with
  | S754_finite s m e => (cond_Zopp s (Z.pos m) * 2 ^ (e + 1074))%Z
  | _ => 0%Z
  end.

(** [x] is a double nearest to the quotient [n / d]: no double is
    nearer. *)
Definition nearest (n d : Z) (x : spec_float) : Prop :=
  double x = true
  /\ forall y, double y = true ->
       (Z.abs (d * scaled x - n * 2 ^ 1074)
        <= Z.abs (d * scaled y - n * 2 ^ 1074))%Z.

End Doubles.

(** ** Concrete stores and answers *)

Module Examples.
Import Supabase.

Definition cat : Word :=
  {| id := "id-cat"; word := "cat"; frequency := 3; created_at := 1000%Z;
     pronunciation := Some "/kat/";
     pronunciations := Some [{| text := "/kat/"; audio := None |}];
     examples := Some ["The cat sleeps."];
     definitions := Some [{| partOfSpeech := "noun";
                             definition := "A small animal." |}];
     last_fetched_at := Some 2000%Z |}.

Definition dog : Word := new_row "id-dog" 1500%Z "dog" 7.

Definition pets : World := {| table := [cat; dog]; issued := [] |}.

(** A payload with examples only. *)
Definition examplesOnly : Details :=
  {| details_pronunciation := None;
     details_pronunciations := None;
     details_definitions := None;
     details_examples := Some ["A cat sat."] |}.

Definition typed (inputText : string) : WordInput.State :=
  {| WordInput.inputText := inputText;
     WordInput.isProcessing := false;
     WordInput.processedWords := [];
     WordInput.failedWords := [];
     WordInput.wordsAdded := 0 |}.

(** Four meanings of four definitions each. *)
Definition sense (d : string) : DictionaryApi.Sense :=
  {| DictionaryApi.sense_definition := d;
     DictionaryApi.sense_example := None;
     DictionaryApi.sense_synonyms := None;
     DictionaryApi.sense_antonyms := None |}.

Definition meaning (pos : string) : DictionaryApi.Meaning :=
  {| DictionaryApi.meaning_partOfSpeech := pos;
     DictionaryApi.meaning_definitions :=
       [sense "one"; sense "two"; sense "three"; sense "four"] |}.

Definition fourByFour : DictionaryApi.DictionaryApiResponse :=
  {| DictionaryApi.word := "set";
     DictionaryApi.phonetic := Some "/set/";
     DictionaryApi.phonetics :=
       Some [{| DictionaryApi.phonetic_text := None;
                DictionaryApi.phonetic_audio := Some "set.mp3" |};
             {| DictionaryApi.phonetic_text := Some "/sEt/";
                DictionaryApi.phonetic_audio := Some "set-uk.mp3" |}];
     DictionaryApi.meanings :=
       Some [meaning "noun"; meaning "verb"; meaning "adjective";
             meaning "interjection"] |}.

(** A submission: "cat" five times and a new word, on a store that
    serves the two words' requests in turn about. *)
Definition schedule : Schedule :=
  [(0, Up 3000%Z "id-a"); (1, Up 3001%Z "id-b");
   (1, Up 3002%Z "id-owl"); (0, Up 3003%Z "id-c")].

Definition submitted : option Batch * World :=
  addOrUpdateWordsConcurrently
    (WordInput.words "cat cat Cat cat, cat owl") schedule pets.

Definition batch : Batch :=
  default {| success := []; failed := [] |} submitted.1.

(** The answer of the lookup service with [fourByFour]. *)
Definition answered : DictionaryApi.Fetched :=
  DictionaryApi.Response 200 (DictionaryApi.JsonArray [fourByFour]).

Definition emptyDetails : DictionaryApi.WordDetails :=
  {| DictionaryApi.pronunciation := "";
     DictionaryApi.pronunciations := [];
     DictionaryApi.definitions := [];
     DictionaryApi.examples := [] |}.

Definition details : DictionaryApi.WordDetails :=
  match DictionaryApi.fetchWordDetails "set" answered with
  | DictionaryApi.Return (Some d) => d
  | _ => emptyDetails
  end.

End Examples.

(** ** The stages of a word's upsert

    What is known of the computation [wordPromise w] at each point of a
    call, relative to the table [rows0] the call started on and the table
    [rows] now. *)

Module Stages.
Import Supabase.

(** The rows of the word [w]. *)
Definition rows_of (w : string) (rows : list Word) : list Word :=
  List.filter (has_word w) rows.

Definition writing (w : string) (found : Reply) : Promise Outcome :=
  Async.resume (wordPromise w) found.

Definition finished (w : string) (found written : Reply) : Promise Outcome :=
  Async.resume (writing w found) written.

Definition increment (existingWord : Word) : Columns :=
  {| set_frequency := Some (frequency existingWord + 1)%Z;
     set_pronunciation := None; set_pronunciations := None;
     set_definitions := None; set_examples := None;
     set_last_fetched_at := None |}.

Definition succeeded (w : string) (r : Word) : Outcome :=
  {| outcome_word := w; outcome_result := Some r; outcome_success := true |}.

Definition gave_up (w : string) : Outcome :=
  {| outcome_word := w; outcome_result := None; outcome_success := false |}.

Inductive stage (rows0 rows : list Word) (w : string)
  : Promise Outcome -> Prop :=
| selecting :
    rows_of w rows = rows_of w rows0 ->
    stage rows0 rows w (wordPromise w)
| updating existingWord :
    rows_of w rows0 = [existingWord] ->
    rows_of w rows = [existingWord] ->
    stage rows0 rows w (writing w (ok (Some existingWord)))
| inserting :
    rows_of w rows0 = [] ->
    rows_of w rows = [] ->
    stage rows0 rows w (writing w (ok None))
| updated existingWord :
    rows_of w rows0 = [existingWord] ->
    rows_of w rows = [assign (increment existingWord) existingWord] ->
    stage rows0 rows w
      (Async.Resolved
         (succeeded w (assign (increment existingWord) existingWord)))
| inserted now uuid :
    rows_of w rows0 = [] ->
    rows_of w rows = [new_row uuid now w 1] ->
    stage rows0 rows w
      (Async.Resolved (succeeded w (new_row uuid now w 1)))
| failed_ :
    rows_of w rows = rows_of w rows0 ->
    stage rows0 rows w (Async.Resolved (gave_up w))
| update_lost existingWord :
    rows_of w rows0 = [existingWord] ->
    rows_of w rows = [assign (increment existingWord) existingWord] ->
    stage rows0 rows w (Async.Resolved (gave_up w))
| insert_lost now uuid :
    rows_of w rows0 = [] ->
    rows_of w rows = [new_row uuid now w 1] ->
    stage rows0 rows w (Async.Resolved (gave_up w)).

(** How far a computation is: 0 before the reply to its SELECT, 1
    before the reply to its UPDATE or INSERT, 2 when it has settled. *)
Definition progress {A} (m : Promise A) : nat :=
  match m with
  | Async.Pending (SelectEqWord _) _ => 0
  | Async.Pending _ _ => 1
  | _ => 2
  end.

(** A schedule that serves each of the [n] computations twice. *)
Definition fair (n : nat) (sched : Schedule) : bool :=
  forallb (fun i => (2 <=? count_occ Nat.eq_dec (map fst sched) i)%nat)
          (seq 0 n).

(** The schedule that serves the computations one after the other. *)
Definition in_turn (l : Link) (n : nat) : Schedule :=
  flat_map (fun i => [(i, l); (i, l)]) (seq 0 n).

(** The two lists [separate] builds. *)
Definition successes (results : list Outcome) : list Word :=
  flat_map (fun o => match outcome_success o, outcome_result o with
                     | true, Some r => [r] | _, _ => [] end) results.

Definition failures (results : list Outcome) : list string :=
  flat_map (fun o => match outcome_success o, outcome_result o with
                     | true, Some r => [] | _, _ => [outcome_word o] end)
           results.

(** The stored frequency of the word [w]: that of its record, if it
    has one. *)
Definition storedFrequency (w : string) (rows : list Word) : option Z :=
  option_map frequency (List.find (has_word w) rows).

(** The frequency one sighting leaves: 1 on a word not seen before,
    the old frequency plus 1 otherwise. *)
Definition sighted (prior : option Z) : Z :=
  match prior with
  | Some old => (old + 1)%Z
  | None => 1%Z
  end.

End Stages.

(** ** What a call is told, and what it asks

    The replies the schedule gives to the computations of a call, and
    the requests a computation makes. *)

Module History.
Import Supabase Stages.






(** The write that the upsert of the word [w] makes on a table that
    had the rows [rows0]: the INSERT of the word with frequency 1, or the
    UPDATE of its row to its frequency plus 1. *)
Definition write_of (rows0 : list Word) (w : string) (q : Request) : Prop :=
  q = Insert w 1
  \/ exists existingWord,
       rows_of w rows0 = [existingWord]
       /\ q = UpdateEqId (increment existingWord) (id existingWord).

(** The write a computation has made so far, if it has made one, by
    where the computation is. *)
Definition asked (rows0 : list Word) (w : string) (m : Promise Outcome)
    (made : option Request) : Prop :=
  match m with
  | Async.Pending (SelectEqWord _) _ => made = None
  | Async.Pending q _ => made = Some q /\ write_of rows0 w q
  | _ => forall q, made = Some q -> write_of rows0 w q
  end.



End History.

(** ** More of the code: what the properties past the tokenizer, the
    batch and the fetcher are stated with *)

Module Words.

(** A string of lowercase Latin letters only. *)
Definition letters (w : string) : bool :=
  forallb JS.is_az (list_ascii_of_string w).

(** [ws.join(' ')] *)
Definition join (ws : list string) : string := String.concat " " ws.

End Words.

Module Requests.
Import Supabase.

(** Two rows that differ in nothing, or in the frequency only. *)
Definition same_but_frequency (r r' : Word) : Prop :=
  id r' = id r /\ word r' = word r /\ created_at r' = created_at r
  /\ pronunciation r' = pronunciation r
  /\ pronunciations r' = pronunciations r
  /\ examples r' = examples r
  /\ definitions r' = definitions r
  /\ last_fetched_at r' = last_fetched_at r.

End Requests.

(** ** [services/dictionaryApi.ts], further *)

Module DictionaryApiMore.
Import DictionaryApi.

(** The example sentences attached to the definitions of an entry, in
    order. *)
Definition examplesOf (ms : list Meaning) : list string :=
  flat_map
    (fun m =>
       flat_map
         (fun s => match sense_example s with
                   | Some e => if JS.truthy e then [e] else []
                   | None => []
                   end)
         (meaning_definitions m))
    ms.

(** A [Map<string, V>]: the keys in the order of their first [set]; a
    [set] on a key that is there replaces its value where it is. *)
Fixpoint Map_set {V} (k : string) (v : V) (m : list (string * V))
  : list (string * V) :=
  match m with
  | [] => [(k, v)]
  | (k', v') :: m' =>
      if String.eqb k' k then (k, v) :: m' else (k', v') :: Map_set k v m'
  end.

Fixpoint Map_get {V} (k : string) (m : list (string * V)) : option V :=
  match m with
  | [] => None
  | (k', v') :: m' => if String.eqb k' k then Some v' else Map_get k m'
  end.

(** The loop of [fetchMultipleWordDetails], from its request number
    [n] on.  [answers n] is what the lookup service answers to the
    request number [n]; the pause between two requests is left out. *)
Fixpoint fetchMultiple_from (n : nat) (words : list string)
    (answers : nat -> Fetched) (results : list (string * WordDetails))
  : list (string * WordDetails) :=
  match words with
  | [] => results
  | word_ :: words' =>
      let results :=
        match fetchWordDetails word_ (answers n) with
        | Return (Some details) => Map_set word_ details results
        | Return None => results
        | Throw _ => results
        end in
      fetchMultiple_from (S n) words' answers results
  end.

Definition fetchMultipleWordDetails (words : list string)
    (answers : nat -> Fetched) : list (string * WordDetails) :=
  fetchMultiple_from 0 words answers [].

End DictionaryApiMore.

(** ** [components/WordList.tsx] *)

Module WordList.
Import Supabase.

(** The five objects [getFrequencyStyle] returns, by their label. *)
Inductive Style :=
| Mythic      (* 神话, orange *)
| Legendary   (* 传奇, red *)
| Epic        (* 史诗, purple *)
| Rare        (* 稀有, blue *)
| Common.     (* 普通, white *)

Definition getFrequencyStyle (frequency_ : Z) : Style :=
  if (30 <=? frequency_)%Z then Mythic
  else if (20 <=? frequency_)%Z then Legendary
  else if (10 <=? frequency_)%Z then Epic
  else if (5 <=? frequency_)%Z then Rare
  else Common.

(** The styles from the lowest to the highest. *)
Definition rank (s : Style) : nat :=
  match s with
  | Common => 0 | Rare => 1 | Epic => 2 | Legendary => 3 | Mythic => 4
  end.

(** The state update of [handleWordUpdated]. *)
Definition handleWordUpdated (updatedWord : Word) (prevWords : list Word)
  : list Word :=
  map (fun word_ => if String.eqb (id word_) (id updatedWord)
                    then updatedWord else word_)
      prevWords.

End WordList.

(** ** [components/WordDetailModal.tsx] *)

Module WordDetailModal.
Import Supabase.

(** The two texts [setError] is given. *)
Inductive Message :=
| NoDetails      (* 未找到该单词的详细信息 *)
| FetchFailure.  (* 获取单词详情失败，请稍后重试 *)

(** The component's state, and the records [onWordUpdated] has been
    called with, the latest last. *)
Record State := {
  currentWord : option Word;
  isLoading : bool;
  error : option Message;
  wordUpdated : list Word
}.

Definition setCurrentWord (v : option Word) (st : State) : State :=
  {| currentWord := v; isLoading := isLoading st; error := error st;
     wordUpdated := wordUpdated st |}.
Definition setIsLoading (v : bool) (st : State) : State :=
  {| currentWord := currentWord st; isLoading := v; error := error st;
     wordUpdated := wordUpdated st |}.
Definition setError (v : option Message) (st : State) : State :=
  {| currentWord := currentWord st; isLoading := isLoading st; error := v;
     wordUpdated := wordUpdated st |}.
Definition onWordUpdated (v : Word) (st : State) : State :=
  {| currentWord := currentWord st; isLoading := isLoading st;
     error := error st; wordUpdated := wordUpdated st ++ [v] |}.

(** A [PronunciationInfo] used as a [WordPronunciation], and the
    [map] that makes the definitions [WordDefinition]s. *)
Definition asWordPronunciation (p : DictionaryApi.PronunciationInfo)
  : WordPronunciation :=
  {| text := DictionaryApi.text p; audio := DictionaryApi.audio p |}.

Definition asWordDefinition (def : DictionaryApi.Definition_)
  : WordDefinition :=
  {| partOfSpeech := DictionaryApi.partOfSpeech def;
     definition := DictionaryApi.definition def |}.

(** The object [fetchDetails] gives to [updateWordDetails]. *)
Definition payload (details : DictionaryApi.WordDetails) : Details :=
  {| details_pronunciation := Some (DictionaryApi.pronunciation details);
     details_pronunciations :=
       Some (map asWordPronunciation (DictionaryApi.pronunciations details));
     details_definitions :=
       Some (map asWordDefinition (DictionaryApi.definitions details));
     details_examples := Some (DictionaryApi.examples details) |}.

(** [fetchDetails].  [fetched] is the answer of the lookup service,
    [link] what becomes of the request to the table, [clock] what
    [new Date()] reads when the update is sent. *)
Definition fetchDetails (st : State) (fetched : DictionaryApi.Fetched)
    (clock : Time) (link : Link) (rows : list Word) : State * list Word :=
  match currentWord st with
  | None => (st, rows)
  | Some cw =>
      let st := setIsLoading true st in
      let st := setError None st in
      match DictionaryApi.fetchWordDetails (word cw) fetched with
      | DictionaryApi.Throw _ =>
          (setIsLoading false (setError (Some FetchFailure) st), rows)
      | DictionaryApi.Return None =>
          (setIsLoading false (setError (Some NoDetails) st), rows)
      | DictionaryApi.Return (Some details) =>
          match run_alone [link]
                  (updateWordDetails (id cw) (payload details) clock) rows with
          | (Async.Resolved (Some updatedWord), rows') =>
              let st := setCurrentWord (Some updatedWord) st in
              let st := onWordUpdated updatedWord st in
              (setIsLoading false st, rows')
          | (Async.Resolved None, rows') => (setIsLoading false st, rows')
          | (Async.Rejected _, rows') =>
              (setIsLoading false (setError (Some FetchFailure) st), rows')
          | (Async.Pending _ _, rows') => (st, rows')
          end
      end
  end.

Definition truthy_text (o : option string) : bool :=
  match o with Some s => JS.truthy s | None => false end.

(** The condition under which the effect on [currentWord] and [isOpen]
    calls [fetchDetails]. *)
Definition fetchesOnOpen (st : State) (isOpen : bool) (now : Z) : bool :=
  match currentWord st with
  | Some cw =>
      isOpen
      && (DictionaryApi.shouldUpdateWordDetails (last_fetched_at cw) None now
          && negb (truthy_text (pronunciation cw))
          && negb (bool_decide (definitions cw <> None)))
  | None => false
  end.

(** [getDisplayPronunciation] *)
Definition getDisplayPronunciation (st : State) : option string :=
  match currentWord st with
  | Some cw =>
      match pronunciations cw with
      | Some (p :: _) => Some (text p)
      | _ => pronunciation cw
      end
  | None => None
  end.

(** [hasAudio] *)
Definition hasAudio (st : State) : bool :=
  match currentWord st with
  | Some cw =>
      match pronunciations cw with
      | Some (p :: ps) => existsb (fun p => truthy_text (audio p)) (p :: ps)
      | _ => false
      end
  | None => false
  end.

(** What [playPronunciation] starts with: an audio to play, a text to
    show, or nothing. *)
Inductive Sound :=
| Play (audioUrl : string)
| Alert (pronunciationText : string)
| Silent.

Definition playPronunciation (st : State) : Sound :=
  match currentWord st with
  | None => Silent
  | Some cw =>
      let audioUrl :=
        match pronunciations cw with
        | Some (p :: ps) =>
            match List.find (fun p => truthy_text (audio p)) (p :: ps) with
            | Some pronunciationWithAudio => audio pronunciationWithAudio
            | None => None
            end
        | _ => None
        end in
      if truthy_text audioUrl then Play (default "" audioUrl)
      else
        let pronunciationText :=
          match pronunciations cw with
          | Some (p :: _) =>
              if JS.truthy (text p) then Some (text p) else pronunciation cw
          | _ => pronunciation cw
          end in
        if truthy_text pronunciationText
        then Alert (default "" pronunciationText)
        else Silent
  end.

End WordDetailModal.

(** ** What an enrichment sends, and what it leaves *)

Module Enrichment.
Import Supabase.

(** The body of the UPDATE that [updateWordDetails] sends. *)
Definition body (details : Details) (clock : Time) : Columns :=
  {| set_frequency := None;
     set_pronunciation := details_pronunciation details;
     set_pronunciations := details_pronunciations details;
     set_definitions := details_definitions details;
     set_examples := details_examples details;
     set_last_fetched_at := Some clock |}.

(** A payload that has the four detail fields. *)
Definition full (details : Details) : bool :=
  bool_decide (details_pronunciation details <> None)
  && bool_decide (details_pronunciations details <> None)
  && bool_decide (details_definitions details <> None)
  && bool_decide (details_examples details <> None).

(** The request reaches the table. *)
Definition served (l : Link) : bool :=
  match l with Down => false | _ => true end.

(** The reply arrives. *)
Definition answered (l : Link) : bool :=
  match l with Up _ _ => true | _ => false end.

(** The row [r] with the details [details] of a lookup made at
    [clock]. *)
Definition enriched (r : Word) (details : DictionaryApi.WordDetails)
    (clock : Time) : Word :=
  {| id := id r;
     word := word r;
     frequency := frequency r;
     created_at := created_at r;
     pronunciation := Some (DictionaryApi.pronunciation details);
     pronunciations :=
       Some (map WordDetailModal.asWordPronunciation
               (DictionaryApi.pronunciations details));
     examples := Some (DictionaryApi.examples details);
     definitions :=
       Some (map WordDetailModal.asWordDefinition
               (DictionaryApi.definitions details));
     last_fetched_at := Some clock |}.

(** The window as it is when it opens on [w]. *)
Definition opened (w : Word) : WordDetailModal.State :=
  {| WordDetailModal.currentWord := Some w;
     WordDetailModal.isLoading := false;
     WordDetailModal.error := None;
     WordDetailModal.wordUpdated := [] |}.

(** An entry that has no audio. *)
Definition silent (p : WordPronunciation) : bool :=
  negb (WordDetailModal.truthy_text (audio p)).

End Enrichment.

(** ** Concrete windows and lookups *)

Module Cases.
Import Supabase.

(** A word that has been counted and not looked up yet. *)
Definition set_ : Word := new_row "id-set" 1200%Z "set" 2.

Definition shelf : list Word := [Examples.cat; set_; Examples.dog].

(** A pronunciation that has an audio, after one that has none. *)
Definition spoken : Word :=
  {| id := "id-owl"; word := "owl"; frequency := 12; created_at := 1100%Z;
     pronunciation := Some "/aUl/";
     pronunciations :=
       Some [{| text := "/aUl/"; audio := None |};
             {| text := "/owl/"; audio := Some "owl.mp3" |}];
     examples := None;
     definitions := None;
     last_fetched_at := Some 2500%Z |}.

(** The lookup service answers the first request with an entry and
    fails from then on. *)
Definition answers (n : nat) : DictionaryApi.Fetched :=
  match n with
  | 0 => Examples.answered
  | 1 => DictionaryApi.Response 500 DictionaryApi.Unparseable
  | _ => DictionaryApi.NetworkFailure
  end.

Definition full_payload : Details :=
  WordDetailModal.payload Examples.details.

(** 2.7777777777777776e-7: the double nearest to 1/3600000, the hours
    of one millisecond. *)
Definition justBelow : spec_float :=
  S754_finite false 5247073869855161 (-74).

(** The submission of [Examples.submitted], made a second time. *)
Definition sentence : string := "cat cat Cat cat, cat owl".

Definition again : option Batch * World :=
  addOrUpdateWordsConcurrently (WordInput.words sentence) Examples.schedule
    Examples.submitted.2.

Definition second : Batch :=
  default {| success := []; failed := [] |} again.1.

End Cases.

(** * Properties *)

(** ** The tokenizer *)

Lemma replace_non_az_strip s : JS.replace_non_az s = Spec.strip s.
Proof.
  unfold Spec.strip.
  induction s as [|c s IH]; simpl; [reflexivity|].
  destruct (JS.is_az c); simpl; now rewrite IH.
Qed.

Lemma filter_nonempty_strip (l : list string) :
  List.filter (fun word => (0 <? String.length word)%nat)
    (map JS.replace_non_az
       (List.filter (fun word => (0 <? String.length word)%nat) l))
  = List.filter (fun word => (0 <? String.length word)%nat)
      (map JS.replace_non_az l).
Proof.
  induction l as [|x l IH]; simpl; [reflexivity|].
  destruct x as [|c x]; simpl; [exact IH|].
  now rewrite IH.
Qed.

Lemma filter_length_ge_2 (l : list string) :
  List.filter (fun word => (2 <=? String.length word)%nat)
    (List.filter (fun word => (0 <? String.length word)%nat) l)
  = List.filter (fun t => negb (String.length t =? 1)%nat)
      (List.filter (fun t => negb (String.eqb t "")) l).
Proof.
  induction l as [|x l IH]; simpl; [reflexivity|].
  destruct x as [|c [|d x]]; simpl; try exact IH.
  f_equal; exact IH.
Qed.

(** C4.  The value of [words] in [processWords] is the text lowercased,
    split on whitespace runs, each piece stripped of every character that
    is not a lowercase Latin letter, without the empty pieces and without
    the pieces of length 1; and "Hello, World! 123 a an" gives exactly
    hello, world, an. *)
Theorem C4_tokenizer :
  (forall inputText : string,
      WordInput.words inputText = Spec.tokenize inputText)
  /\ WordInput.words "Hello, World! 123 a an" = ["hello"; "world"; "an"].
Proof.
  split; [|reflexivity].
  intros inputText. unfold WordInput.words, Spec.tokenize.
  rewrite filter_nonempty_strip, filter_length_ge_2.
  do 2 f_equal. apply map_ext. intros; apply replace_non_az_strip.
Qed.

(** ** Numbers: the arithmetic of doubles *)

Section DoubleArithmetic.
Import Doubles.
Local Open Scope Z_scope.

Lemma digits2_size p : digits2_pos p = Pos.size p.
Proof. induction p; simpl; congruence. Qed.

Lemma digits2_log2 p : Z.pos (digits2_pos p) = Z.log2 (Z.pos p) + 1.
Proof. rewrite digits2_size. destruct p; simpl; lia. Qed.

Lemma digits2_bounds p k :
  0 <= k -> 2 ^ k <= Z.pos p < 2 ^ (k + 1) -> Z.pos (digits2_pos p) = k + 1.
Proof.
  intros Hk Hp. rewrite digits2_log2. f_equal. apply Z.log2_unique; [lia|].
  now rewrite <- Z.add_1_r.
Qed.

Lemma iter_xO p d : Z.pos (Pos.iter xO p d) = Z.pos p * 2 ^ Z.pos d.
Proof.
  change (Pos.iter xO p d) with (shift_pos d p).
  rewrite shift_pos_correct. change (Z.pow_pos 2 d) with (2 ^ Z.pos d). lia.
Qed.

Lemma fexp_double e : fexp 53 1024 e = Z.max (e - 53) (-1074).
Proof. reflexivity. Qed.

Lemma shr_1_pos p r s :
  shr_1 {| shr_m := Z.pos p; shr_r := r; shr_s := s |}
  = {| shr_m := Z.pos p / 2; shr_r := Z.odd (Z.pos p); shr_s := r || s |}.
Proof.
  destruct p as [p|p|]; cbn [shr_1 Z.odd].
  - replace (Z.pos p~1 / 2) with (Z.pos p)
      by (apply Z.div_unique with 1; lia).
    reflexivity.
  - replace (Z.pos p~0 / 2) with (Z.pos p)
      by (apply Z.div_unique with 0; lia).
    reflexivity.
  - reflexivity.
Qed.

Lemma loc_of_loc m l : loc_of_shr_record (shr_record_of_loc m l) = l.
Proof. destruct l as [|[| |]]; reflexivity. Qed.

Lemma shr_m_of_loc m l : shr_m (shr_record_of_loc m l) = m.
Proof. destruct l as [|[| |]]; reflexivity. Qed.

Lemma shr_fexp_53 p e l :
  2 ^ 52 <= Z.pos p < 2 ^ 53 -> -1074 <= e ->
  shr_fexp 53 1024 (Z.pos p) e l = (shr_record_of_loc (Z.pos p) l, e).
Proof.
  intros Hp He. unfold shr_fexp. cbn [Zdigits2].
  rewrite (digits2_bounds p 52) by lia. rewrite fexp_double.
  replace (Z.max (52 + 1 + e - 53) (-1074) - e) with 0 by lia. reflexivity.
Qed.

Lemma shr_fexp_54 p e l :
  2 ^ 53 <= Z.pos p < 2 ^ 54 -> -1075 <= e ->
  shr_fexp 53 1024 (Z.pos p) e l
  = (shr_1 (shr_record_of_loc (Z.pos p) l), e + 1).
Proof.
  intros Hp He. unfold shr_fexp. cbn [Zdigits2].
  rewrite (digits2_bounds p 53) by lia. rewrite fexp_double.
  replace (Z.max (53 + 1 + e - 53) (-1074) - e) with 1 by lia. reflexivity.
Qed.

(** A mantissa of 53 bits is kept as it is. *)
Lemma round_aux_exact s m e :
  2 ^ 52 <= Z.pos m < 2 ^ 53 -> -1074 <= e <= 971 ->
  binary_round_aux 53 1024 s (Z.pos m) e loc_Exact = S754_finite s m e.
Proof.
  intros Hm He. unfold binary_round_aux.
  rewrite shr_fexp_53 by lia. cbn [shr_record_of_loc shr_m loc_of_shr_record
                                   round_nearest_even].
  rewrite shr_fexp_53 by lia. cbn [shr_record_of_loc shr_m].
  replace (e <=? 1024 - 53) with true by (symmetry; apply Z.leb_le; lia).
  reflexivity.
Qed.


Lemma scale_bounds a k n :
  0 <= k -> 0 <= n -> 2 ^ k <= a < 2 ^ (k + 1) ->
  2 ^ (k + n) <= a * 2 ^ n < 2 ^ (k + n + 1).
Proof.
  intros Hk Hn Ha.
  replace (k + n + 1) with (k + 1 + n) by lia.
  rewrite (Z.pow_add_r 2 k n), (Z.pow_add_r 2 (k + 1) n) by lia.
  assert (0 < 2 ^ n) by (apply Z.pow_pos_nonneg; lia). split.
  - apply Z.mul_le_mono_nonneg_r; lia.
  - apply Z.mul_lt_mono_pos_r; lia.
Qed.

Lemma log2_bounds p : 2 ^ Z.log2 (Z.pos p) <= Z.pos p < 2 ^ (Z.log2 (Z.pos p) + 1).
Proof. rewrite Z.add_1_r. apply Z.log2_spec. lia. Qed.

(** An integer of at most 53 bits times a power of two: the mantissa
    is shifted left to 53 bits. *)
Lemma binary_round_left s p e :
  Z.log2 (Z.pos p) <= 52 ->
  -1074 <= e + Z.log2 (Z.pos p) - 52 <= 971 ->
  binary_round 53 1024 s p e
  = S754_finite s (Z.to_pos (Z.pos p * 2 ^ (52 - Z.log2 (Z.pos p))))
      (e + Z.log2 (Z.pos p) - 52).
Proof.
  intros Hk He. pose proof (log2_bounds p) as Hp.
  pose proof (Z.log2_nonneg (Z.pos p)) as Hk0.
  set (k := Z.log2 (Z.pos p)) in *.
  unfold binary_round. rewrite digits2_log2, fexp_double. fold k.
  replace (Z.max (k + 1 + e - 53) (-1074)) with (e + k - 52) by lia.
  unfold shl_align.
  destruct (e + k - 52 - e) as [|d|d] eqn:Hd; try lia.
  - assert (k = 52) as -> by lia. rewrite Z.sub_diag, Z.mul_1_r.
    replace (e + 52 - 52) with e in * by lia.
    apply round_aux_exact; lia.
  - assert (Hv : Z.pos (Pos.iter xO p d) = Z.pos p * 2 ^ (52 - k))
      by (rewrite iter_xO; f_equal; f_equal; lia).
    rewrite <- Hv. cbn [Z.to_pos]. apply round_aux_exact; [|lia].
    rewrite Hv.
    pose proof (scale_bounds (Z.pos p) k (52 - k) Hk0 ltac:(lia) Hp) as H.
    replace (k + (52 - k)) with 52 in H by lia. exact H.
Qed.

Lemma iter_shr_1 n : forall m,
  SpecFloat.iter_pos shr_1 n
    {| shr_m := Z.pos m * 2 ^ Z.pos n; shr_r := false; shr_s := false |}
  = {| shr_m := Z.pos m; shr_r := false; shr_s := false |}.
Proof.
  induction n as [n IH|n IH|]; intros m; cbn [SpecFloat.iter_pos].
  - replace (Z.pos m * 2 ^ Z.pos n~1)
      with (Z.pos (Pos.iter xO (Pos.iter xO m n) n)~0).
    2:{ rewrite Pos2Z.inj_xO, !iter_xO, Pos2Z.inj_xI.
        rewrite <- !Z.mul_assoc, <- Z.pow_add_r by lia.
        replace (2 * Z.pos n + 1) with (Z.pos n + Z.pos n + 1) by lia.
        rewrite (Z.pow_add_r 2 _ 1) by lia. lia. }
    cbn [shr_1 orb]. rewrite iter_xO, IH, iter_xO. apply IH.
  - replace (Z.pos m * 2 ^ Z.pos n~0)
      with (Z.pos (Pos.iter xO m n) * 2 ^ Z.pos n).
    2:{ rewrite iter_xO, Pos2Z.inj_xO, <- Z.mul_assoc, <- Z.pow_add_r by lia.
        f_equal. f_equal. lia. }
    rewrite IH, iter_xO. apply IH.
  - replace (Z.pos m * 2 ^ 1) with (Z.pos m~0) by lia. reflexivity.
Qed.

(** A mantissa of 53 bits followed by zeros: the zeros are shifted
    out. *)
Lemma binary_round_right s m n e :
  2 ^ 52 <= Z.pos m < 2 ^ 53 -> -1074 <= e -> e + Z.pos n <= 971 ->
  binary_round 53 1024 s (Pos.iter xO m n) e = S754_finite s m (e + Z.pos n).
Proof.
  intros Hm He Hen.
  assert (Hp : 2 ^ (52 + Z.pos n) <= Z.pos (Pos.iter xO m n)
               < 2 ^ (52 + Z.pos n + 1)).
  { rewrite iter_xO. apply scale_bounds; lia. }
  assert (Hdig : Z.pos (digits2_pos (Pos.iter xO m n)) = 53 + Z.pos n).
  { rewrite (digits2_bounds _ (52 + Z.pos n)); lia. }
  unfold binary_round. rewrite Hdig, fexp_double.
  replace (Z.max (53 + Z.pos n + e - 53) (-1074)) with (e + Z.pos n) by lia.
  unfold shl_align.
  replace (e + Z.pos n - e) with (Z.pos n) by lia.
  unfold binary_round_aux, shr_fexp at 1. cbn [Zdigits2].
  rewrite Hdig, fexp_double.
  replace (Z.max (53 + Z.pos n + e - 53) (-1074) - e) with (Z.pos n) by lia.
  cbn [shr_record_of_loc shr]. rewrite iter_xO, iter_shr_1.
  cbn [shr_m loc_of_shr_record round_nearest_even].
  rewrite shr_fexp_53 by lia. cbn [shr_record_of_loc shr_m].
  replace (e + Z.pos n <=? 1024 - 53) with true
    by (symmetry; apply Z.leb_le; lia).
  reflexivity.
Qed.

Lemma round_aux_opp s m e l :
  binary_round_aux 53 1024 (negb s) m e l
  = SFopp (binary_round_aux 53 1024 s m e l).
Proof.
  unfold binary_round_aux.
  destruct (shr_fexp 53 1024 m e l) as [mrs e'].
  destruct (shr_fexp 53 1024 _ e' loc_Exact) as [mrs' e''].
  destruct (shr_m mrs'); [reflexivity| |reflexivity].
  now destruct (e'' <=? 1024 - 53).
Qed.

Lemma binary_round_opp s p e :
  binary_round 53 1024 (negb s) p e = SFopp (binary_round 53 1024 s p e).
Proof.
  unfold binary_round. destruct (shl_align _ _ _). apply round_aux_opp.
Qed.

Lemma SFopp_involutive x : SFopp (SFopp x) = x.
Proof. destruct x as [s|s| |s m e]; cbn; now rewrite ?negb_involutive. Qed.

Lemma of_Z_opp z : z <> 0 -> Number.of_Z (- z) = SFopp (Number.of_Z z).
Proof.
  intros Hz. destruct z as [|p|p]; [now destruct Hz| |].
  - exact (binary_round_opp false p 0).
  - change (binary_round 53 1024 false p 0
            = SFopp (binary_round 53 1024 (negb false) p 0)).
    now rewrite binary_round_opp, SFopp_involutive.
Qed.


Lemma mantissa_spec z :
  z <> 0 -> Z.abs z < 2 ^ 53 ->
  2 ^ 52 <= Z.pos (mantissa z) < 2 ^ 53
  /\ Z.pos (mantissa z) = Z.abs z * 2 ^ (- exponent z)
  /\ -52 <= exponent z <= 0.
Proof.
  intros Hz Hlt. unfold mantissa, exponent.
  assert (Hpos : 0 < Z.abs z) by lia.
  pose proof (Z.log2_spec _ Hpos) as Hk. rewrite <- Z.add_1_r in Hk.
  pose proof (Z.log2_nonneg (Z.abs z)) as Hk0.
  assert (Hk52 : Z.log2 (Z.abs z) < 53) by (apply Z.log2_lt_pow2; lia).
  set (k := Z.log2 (Z.abs z)) in *.
  pose proof (scale_bounds (Z.abs z) k (52 - k) Hk0 ltac:(lia) Hk) as H.
  replace (k + (52 - k)) with 52 in H by lia.
  rewrite Z2Pos.id by lia.
  replace (- (k - 52)) with (52 - k) by lia. repeat split; lia.
Qed.

Lemma of_Z_finite z :
  z <> 0 -> Z.abs z < 2 ^ 53 ->
  Number.of_Z z = S754_finite (z <? 0) (mantissa z) (exponent z).
Proof.
  intros Hz Hlt.
  assert (Hk52 : Z.log2 (Z.abs z) < 53) by (apply Z.log2_lt_pow2; lia).
  pose proof (Z.log2_nonneg (Z.abs z)) as Hk0.
  unfold mantissa, exponent.
  destruct z as [|p|p]; [now destruct Hz| |];
    change (Z.abs (Z.pos p)) with (Z.pos p) in *;
    change (Z.abs (Z.neg p)) with (Z.pos p) in *;
    cbn [Z.ltb Z.compare].
  - unfold Number.of_Z, binary_normalize, Number.prec, Number.emax.
    rewrite (binary_round_left false p 0) by lia. f_equal.
  - unfold Number.of_Z, binary_normalize, Number.prec, Number.emax.
    rewrite (binary_round_left true p 0) by lia. f_equal.
Qed.

Lemma round_scaled s p n P :
  Z.pos p < 2 ^ 53 -> 0 <= n <= 1000 -> Z.pos P = Z.pos p * 2 ^ n ->
  binary_round 53 1024 s P (- n) = binary_round 53 1024 s p 0.
Proof.
  intros Hp Hn HP.
  assert (Hk52 : Z.log2 (Z.pos p) < 53) by (apply Z.log2_lt_pow2; lia).
  pose proof (Z.log2_nonneg (Z.pos p)) as Hk0.
  assert (HlP : Z.log2 (Z.pos P) = n + Z.log2 (Z.pos p))
    by (rewrite HP; apply Z.log2_mul_pow2; lia).
  rewrite (binary_round_left s p 0) by lia.
  set (k := Z.log2 (Z.pos p)) in *.
  destruct (Z_le_gt_dec (n + k) 52) as [Hle|Hgt].
  - rewrite (binary_round_left s P (- n)) by lia. rewrite HlP, HP.
    f_equal; [|lia]. f_equal.
    rewrite <- Z.mul_assoc, <- Z.pow_add_r by lia. f_equal. f_equal. lia.
  - pose proof (log2_bounds p) as Hb. fold k in Hb.
    pose proof (scale_bounds (Z.pos p) k (52 - k) Hk0 ltac:(lia) Hb) as H.
    replace (k + (52 - k)) with 52 in H by lia.
    set (M := Z.to_pos (Z.pos p * 2 ^ (52 - k))).
    assert (HM : Z.pos M = Z.pos p * 2 ^ (52 - k))
      by (unfold M; rewrite Z2Pos.id; lia).
    assert (HPM : P = Pos.iter xO M (Z.to_pos (n + k - 52))).
    { apply Pos2Z.inj. rewrite iter_xO, HM, HP, Z2Pos.id by lia.
      rewrite <- Z.mul_assoc, <- Z.pow_add_r by lia. f_equal. f_equal. lia. }
    rewrite HPM, binary_round_right; rewrite ?Z2Pos.id; try lia.
    f_equal. lia.
Qed.

Lemma normalize_scaled z n :
  Z.abs z < 2 ^ 53 -> 0 <= n <= 1000 ->
  binary_normalize 53 1024 (z * 2 ^ n) (- n) false = Number.of_Z z.
Proof.
  intros Hz Hn.
  assert (Hpow : 0 < 2 ^ n) by (apply Z.pow_pos_nonneg; lia).
  destruct z as [|p|p]; [reflexivity| |].
  - assert (HP : Z.pos p * 2 ^ n = Z.pos (Z.to_pos (Z.pos p * 2 ^ n)))
      by (rewrite Z2Pos.id; lia).
    rewrite HP. unfold Number.of_Z, Number.prec, Number.emax.
    cbn [binary_normalize].
    apply round_scaled; [exact Hz|exact Hn|now rewrite <- HP].
  - assert (HP : Z.neg p * 2 ^ n = Z.neg (Z.to_pos (Z.pos p * 2 ^ n))).
    { rewrite <- !Pos2Z.opp_pos, Z2Pos.id by lia. lia. }
    rewrite HP. unfold Number.of_Z, Number.prec, Number.emax.
    cbn [binary_normalize].
    apply round_scaled; [exact Hz|exact Hn|rewrite Z2Pos.id; lia].
Qed.

Lemma shl_align_value m e e' :
  e' <= e -> Z.pos (shl_align m e e').1 = Z.pos m * 2 ^ (e - e').
Proof.
  intros He. unfold shl_align.
  destruct (e' - e) as [|d|d] eqn:Hd; cbn [fst]; try lia.
  - replace (e - e') with 0 by lia. lia.
  - rewrite iter_xO. f_equal. f_equal. lia.
Qed.

Lemma cond_Zopp_abs a x : cond_Zopp (a <? 0) (Z.abs a * x) = a * x.
Proof. destruct (Z.ltb_spec a 0); unfold cond_Zopp; lia. Qed.

(** The difference of two integers that are doubles, when it is one
    too, is exact. *)
Lemma sub_exact a b :
  Z.abs a < 2 ^ 53 -> Z.abs b < 2 ^ 53 -> Z.abs (a - b) < 2 ^ 53 ->
  Number.sub (Number.of_Z a) (Number.of_Z b) = Number.of_Z (a - b).
Proof.
  intros Ha Hb Hab.
  destruct (Z.eq_dec b 0) as [->|Hb0].
  { rewrite Z.sub_0_r. change (Number.of_Z 0) with (S754_zero false).
    unfold Number.sub. cbn. now destruct (Number.of_Z a) as [[|]|[|]| |]. }
  destruct (Z.eq_dec a 0) as [->|Ha0].
  { change (0 - b) with (- b). rewrite of_Z_opp by assumption.
    rewrite (of_Z_finite b) by assumption. reflexivity. }
  rewrite (of_Z_finite a), (of_Z_finite b) by assumption.
  destruct (mantissa_spec a Ha0 Ha) as (_ & Hma & Hea).
  destruct (mantissa_spec b Hb0 Hb) as (_ & Hmb & Heb).
  unfold Number.sub, Number.prec, Number.emax. cbn [SFsub].
  set (ez := Z.min (exponent a) (exponent b)).
  rewrite !shl_align_value by lia. rewrite Hma, Hmb.
  rewrite <- !Z.mul_assoc, <- !Z.pow_add_r by lia.
  replace (- exponent a + (exponent a - ez)) with (- ez) by lia.
  replace (- exponent b + (exponent b - ez)) with (- ez) by lia.
  rewrite !cond_Zopp_abs, <- Z.mul_sub_distr_r.
  replace ez with (- - ez) at 2 by lia.
  apply normalize_scaled; lia.
Qed.


(** *** The division by the milliseconds of an hour *)

Lemma div_core (M : positive) e :
  2 ^ 52 <= Z.pos M < 2 ^ 53 -> -52 <= e <= 2 ->
  SFdiv_core_binary 53 1024 (Z.pos M) e 7730941132800000 (-31)
  = ((Z.pos M * 2 ^ 53) / 7730941132800000, e - 22,
     new_location 7730941132800000
       ((Z.pos M * 2 ^ 53) mod 7730941132800000)).
Proof.
  intros HM He. unfold SFdiv_core_binary. cbn [Zdigits2].
  rewrite (digits2_bounds M 52) by lia.
  change (Z.pos (digits2_pos 7730941132800000)) with 53.
  rewrite fexp_double.
  replace (Z.min (Z.max (52 + 1 + e - (53 + -31) - 53) (-1074)) (e - -31))
    with (e - 22) by lia.
  replace (e - -31 - (e - 22)) with 53 by lia.
  cbv iota. rewrite Z.shiftl_mul_pow2 by lia.
  unfold Z.div, Z.modulo.
  now destruct (Z.div_eucl (Z.pos M * 2 ^ 53) 7730941132800000).
Qed.

Lemma rne_quotient Q R :
  0 <= R < 7730941132800000 ->
  (round_nearest_even Q (new_location 7730941132800000 R) = Q
   /\ 2 * R <= 7730941132800000)
  \/ (round_nearest_even Q (new_location 7730941132800000 R) = Q + 1
      /\ 7730941132800000 <= 2 * R).
Proof.
  intros HR. unfold new_location.
  change (Z.even 7730941132800000) with true. cbv iota.
  unfold new_location_even.
  destruct (Z.eqb_spec R 0) as [->|Hne]; [left; cbn; lia|].
  destruct (Z.compare_spec (2 * R) 7730941132800000) as [H|H|H];
    cbn [round_nearest_even].
  - destruct (Z.even Q); [left|right]; lia.
  - left; lia.
  - right; lia.
Qed.

Lemma rne_halved (Q : positive) R :
  0 <= R < 7730941132800000 ->
  let mrs := shr_1 (shr_record_of_loc (Z.pos Q)
                      (new_location 7730941132800000 R)) in
  let N := round_nearest_even (shr_m mrs) (loc_of_shr_record mrs) in
  (N = Z.pos Q / 2 /\ (Z.odd (Z.pos Q) = false \/ R = 0))
  \/ (N = Z.pos Q / 2 + 1 /\ Z.odd (Z.pos Q) = true).
Proof.
  intros HR. unfold new_location.
  change (Z.even 7730941132800000) with true. cbv iota.
  unfold new_location_even.
  destruct (Z.eqb_spec R 0) as [->|Hne].
  - cbn [shr_record_of_loc]. rewrite shr_1_pos. cbn [shr_m orb].
    destruct (Z.odd (Z.pos Q)); cbn [loc_of_shr_record round_nearest_even].
    + destruct (Z.even (Z.pos Q / 2)); [left|right]; auto.
    + left; auto.
  - assert (H : exists r s, shr_record_of_loc (Z.pos Q)
                   (loc_Inexact (2 * R ?= 7730941132800000))
                 = {| shr_m := Z.pos Q; shr_r := r; shr_s := s |}
                 /\ r || s = true).
    { destruct (2 * R ?= 7730941132800000); cbn; eauto. }
    destruct H as (r & s & -> & Hrs). rewrite shr_1_pos, Hrs. cbn [shr_m].
    destruct (Z.odd (Z.pos Q)); cbn [loc_of_shr_record round_nearest_even];
      [right|left]; auto.
Qed.

Lemma as_positive z : 0 < z -> exists p, z = Z.pos p.
Proof. intros Hz. exists (Z.to_pos z). now rewrite Z2Pos.id. Qed.

(** The quotient is a double of 53 bits within half a unit in the last
    place of the exact quotient, and within a quarter when it is a power
    of two that the exact quotient is below. *)
Lemma div_rounds s (M : positive) e :
  2 ^ 52 <= Z.pos M < 2 ^ 53 -> -52 <= e <= 2 ->
  exists m j,
    SFdiv 53 1024 (S754_finite s M e) (S754_finite false 7730941132800000 (-31))
    = S754_finite s m (e - 22 + j)
    /\ 0 <= j <= 2
    /\ 2 ^ 52 <= Z.pos m < 2 ^ 53
    /\ 2 * Z.abs (7730941132800000 * (Z.pos m * 2 ^ j) - Z.pos M * 2 ^ 53)
       <= 7730941132800000 * 2 ^ j
    /\ (Z.pos m = 2 ^ 52 ->
        4 * (7730941132800000 * (Z.pos m * 2 ^ j) - Z.pos M * 2 ^ 53)
        <= 7730941132800000 * 2 ^ j).
Proof.
  intros HM He. cbn [SFdiv]. rewrite div_core by assumption.
  replace (xorb s false) with s by now destruct s.
  pose proof (Z.div_mod (Z.pos M * 2 ^ 53) 7730941132800000 ltac:(lia)) as Hdm.
  pose proof (Z.mod_pos_bound (Z.pos M * 2 ^ 53) 7730941132800000 ltac:(lia))
    as HR.
  set (Q0 := Z.pos M * 2 ^ 53 / 7730941132800000) in *.
  set (R := (Z.pos M * 2 ^ 53) mod 7730941132800000) in *.
  assert (HQ : 2 ^ 52 <= Q0 < 2 ^ 54) by lia.
  destruct (as_positive Q0 ltac:(lia)) as [q Hq]. rewrite Hq in *.
  unfold binary_round_aux.
  destruct (Z_lt_ge_dec (Z.pos q) (2 ^ 53)) as [Hlt|Hge].
  - rewrite shr_fexp_53 by lia. rewrite shr_m_of_loc, loc_of_loc.
    destruct (rne_quotient (Z.pos q) R HR) as [[-> H2]|[-> H2]].
    + rewrite shr_fexp_53 by lia. cbn [shr_record_of_loc shr_m].
      replace (e - 22 <=? 1024 - 53) with true
        by (symmetry; apply Z.leb_le; lia).
      exists q, 0. rewrite Z.add_0_r. split; [reflexivity|]. lia.
    + destruct (Z_lt_ge_dec (Z.pos q + 1) (2 ^ 53)) as [Hlt'|Hge'].
      * destruct (as_positive (Z.pos q + 1) ltac:(lia)) as [n Hn].
        rewrite Hn in *. rewrite shr_fexp_53 by lia.
        cbn [shr_record_of_loc shr_m].
        replace (e - 22 <=? 1024 - 53) with true
          by (symmetry; apply Z.leb_le; lia).
        exists n, 0. rewrite Z.add_0_r. split; [reflexivity|]. lia.
      * assert (Hc : Z.pos q + 1 = 9007199254740992) by lia.
        rewrite Hc. rewrite shr_fexp_54 by lia.
        cbn [shr_record_of_loc shr_1 shr_m orb].
        replace (e - 22 + 1 <=? 1024 - 53) with true
          by (symmetry; apply Z.leb_le; lia).
        exists 4503599627370496%positive, 1. split; [reflexivity|]. lia.
  - rewrite shr_fexp_54 by lia.
    destruct (rne_halved q R HR) as [[HN Hb]|[HN Hb]]; cbv zeta in HN;
      rewrite HN; clear HN.
    + pose proof (Zmod_odd (Z.pos q)) as Hodd.
      pose proof (Z.div_mod (Z.pos q) 2 ltac:(lia)) as Hq2.
      pose proof (Z.mod_pos_bound (Z.pos q) 2 ltac:(lia)) as Hm2.
      destruct (as_positive (Z.pos q / 2) ltac:(lia)) as [n Hn].
      rewrite Hn in *. rewrite shr_fexp_53 by lia.
      cbn [shr_record_of_loc shr_m].
      replace (e - 22 + 1 <=? 1024 - 53) with true
        by (symmetry; apply Z.leb_le; lia).
      exists n, 1. split; [reflexivity|].
      destruct Hb as [Hb| ->]; [rewrite Hb in Hodd|];
        destruct (Z.odd (Z.pos q)); lia.
    + pose proof (Zmod_odd (Z.pos q)) as Hodd. rewrite Hb in Hodd.
      pose proof (Z.div_mod (Z.pos q) 2 ltac:(lia)) as Hq2.
      pose proof (Z.mod_pos_bound (Z.pos q) 2 ltac:(lia)) as Hm2.
      destruct (Z_lt_ge_dec (Z.pos q / 2 + 1) (2 ^ 53)) as [Hlt'|Hge'].
      * destruct (as_positive (Z.pos q / 2 + 1) ltac:(lia)) as [n Hn].
        rewrite Hn in *. rewrite shr_fexp_53 by lia.
        cbn [shr_record_of_loc shr_m].
        replace (e - 22 + 1 <=? 1024 - 53) with true
          by (symmetry; apply Z.leb_le; lia).
        exists n, 1. split; [reflexivity|]. lia.
      * assert (Hc : Z.pos q / 2 + 1 = 9007199254740992) by lia.
        rewrite Hc. rewrite shr_fexp_54 by lia.
        cbn [shr_record_of_loc shr_1 shr_m orb].
        replace (e - 22 + 1 + 1 <=? 1024 - 53) with true
          by (symmetry; apply Z.leb_le; lia).
        exists 4503599627370496%positive, 2.
        split; [f_equal; lia|]. lia.
Qed.


(** *** Doubles as integers, scaled by 2^1074 *)

Lemma valid_finite s m e :
  valid_binary 53 1024 (S754_finite s m e) = true ->
  -1074 <= e <= 971 /\ Z.pos m < 2 ^ 53 /\ (-1074 < e -> 2 ^ 52 <= Z.pos m).
Proof.
  cbn [valid_binary]. unfold bounded, canonical_mantissa.
  rewrite andb_true_iff, Z.eqb_eq, Z.leb_le, digits2_log2, fexp_double.
  intros [Hc He]. pose proof (Z.log2_nonneg (Z.pos m)) as Hk0.
  assert (Hk : Z.log2 (Z.pos m) < 53) by lia.
  apply Z.log2_lt_pow2 in Hk; [|lia].
  repeat split; try lia.
  intros Hsub. apply Z.log2_le_pow2; lia.
Qed.

Lemma finite_valid s m e :
  2 ^ 52 <= Z.pos m < 2 ^ 53 -> -1074 <= e <= 971 ->
  valid_binary 53 1024 (S754_finite s m e) = true.
Proof.
  intros Hm He. cbn [valid_binary]. unfold bounded, canonical_mantissa.
  rewrite andb_true_iff, Z.eqb_eq, Z.leb_le, (digits2_bounds m 52),
    fexp_double by lia.
  lia.
Qed.

Lemma double_opp y : double (SFopp y) = double y.
Proof. now destruct y. Qed.

Lemma scaled_opp y : scaled (SFopp y) = - scaled y.
Proof.
  destruct y as [| | |[|] m e]; cbn [SFopp scaled negb cond_Zopp]; lia.
Qed.

(** Seen from the exponent [E - 1074], a double is a multiple of the
    unit in the last place, or it is below the binade by half a unit at
    least. *)
Lemma double_lattice y E :
  0 <= E -> double y = true ->
  (exists j, scaled y = j * 2 ^ E)
  \/ 2 * scaled y <= 2 ^ 53 * 2 ^ E - 2 ^ E.
Proof.
  intros HE Hy.
  assert (HU : 0 < 2 ^ E) by (apply Z.pow_pos_nonneg; lia).
  destruct y as [s|s| |s m e]; try discriminate Hy.
  - left. exists 0. reflexivity.
  - cbn [double] in Hy. apply valid_finite in Hy as (He & Hm & _).
    cbn [scaled].
    assert (HP : 0 < 2 ^ (e + 1074)) by (apply Z.pow_pos_nonneg; lia).
    destruct (Z_le_gt_dec E (e + 1074)) as [Hle|Hgt].
    + left. exists (cond_Zopp s (Z.pos m) * 2 ^ (e + 1074 - E)).
      rewrite <- Z.mul_assoc, <- Z.pow_add_r by lia. do 2 f_equal. lia.
    + right. destruct s; cbn [cond_Zopp]; [nia|].
      replace E with (e + 1074 + (E - (e + 1074))) by lia.
      rewrite (Z.pow_add_r 2 (e + 1074) (E - (e + 1074))) by lia.
      assert (Hg : 2 ^ 1 <= 2 ^ (E - (e + 1074)))
        by (apply Z.pow_le_mono_r; lia).
      change (2 ^ 1) with 2 in Hg. nia.
Qed.

Lemma nearest_arith U G B Sy m :
  0 < U -> G = m * U -> 2 ^ 52 <= m ->
  2 * Z.abs (3600000 * G - B) <= 3600000 * U ->
  (m = 2 ^ 52 -> 4 * (3600000 * G - B) <= 3600000 * U) ->
  (exists j, Sy = j * U) \/ 2 * Sy <= 2 ^ 53 * U - U ->
  Z.abs (3600000 * G - B) <= Z.abs (3600000 * Sy - B).
Proof.
  intros HU HG Hm Hhalf Hquarter [[j ->]|Hbelow].
  - destruct (Z.eq_dec j m) as [->|Hne]; [subst G; lia|].
    assert (Hd : j * U >= G + U \/ j * U <= G - U) by (subst G; nia).
    lia.
  - destruct (Z.eq_dec m (2 ^ 52)) as [Heq|Hne].
    + specialize (Hquarter Heq). subst G. rewrite Heq in *. lia.
    + assert (HG' : G >= 2 ^ 52 * U + U) by (subst G; nia). lia.
Qed.

Lemma compare_finite m1 e1 m2 e2 :
  valid_binary 53 1024 (S754_finite false m1 e1) = true ->
  valid_binary 53 1024 (S754_finite false m2 e2) = true ->
  match e1 ?= e2 with
  | Lt => Lt
  | Gt => Gt
  | Eq => Pos.compare_cont Eq m1 m2
  end
  = (Z.pos m1 * 2 ^ (e1 + 1074) ?= Z.pos m2 * 2 ^ (e2 + 1074)).
Proof.
  intros H1 H2.
  apply valid_finite in H1 as (He1 & Hm1 & Hn1).
  apply valid_finite in H2 as (He2 & Hm2 & Hn2).
  assert (Hlt : forall m e m' e',
            -1074 <= e -> e < e' -> Z.pos m < 2 ^ 53 -> 2 ^ 52 <= Z.pos m' ->
            Z.pos m * 2 ^ (e + 1074) < Z.pos m' * 2 ^ (e' + 1074)).
  { intros m e m' e' He Hee Hm Hm'.
    assert (HP : 0 < 2 ^ (e + 1074)) by (apply Z.pow_pos_nonneg; lia).
    replace (e' + 1074) with (e + 1074 + (e' - e)) by lia.
    rewrite (Z.pow_add_r 2 (e + 1074) (e' - e)) by lia.
    assert (Hg : 2 ^ 1 <= 2 ^ (e' - e)) by (apply Z.pow_le_mono_r; lia).
    change (2 ^ 1) with 2 in Hg.
    set (P := 2 ^ (e + 1074)) in *. set (g := 2 ^ (e' - e)) in *.
    assert (Ha : Z.pos m * P < 2 ^ 53 * P)
      by (apply Z.mul_lt_mono_pos_r; lia).
    assert (Hb : 2 ^ 52 * P <= Z.pos m' * P)
      by (apply Z.mul_le_mono_nonneg_r; lia).
    assert (Hc : Z.pos m' * P * 2 <= Z.pos m' * P * g)
      by (apply Z.mul_le_mono_nonneg_l; lia).
    rewrite Z.mul_assoc. lia. }
  destruct (Z.compare_spec e1 e2) as [->|H|H]; symmetry.
  - assert (HP : 2 ^ (e2 + 1074) > 0)
      by (apply Z.lt_gt, Z.pow_pos_nonneg; lia).
    now rewrite <- Zmult_compare_compat_r.
  - apply Z.compare_lt_iff. apply Hlt; lia.
  - apply Z.compare_gt_iff. apply Hlt; lia.
Qed.

(** On doubles, [<] is the order of the values. *)
Lemma ltb_scaled x y :
  double x = true -> double y = true ->
  SFltb x y = (scaled x <? scaled y).
Proof.
  intros Hx Hy. unfold SFltb, Z.ltb.
  assert (Hpos : forall s m e,
            valid_binary 53 1024 (S754_finite s m e) = true ->
            0 < Z.pos m * 2 ^ (e + 1074)).
  { intros s m e H. apply valid_finite in H as (He & _).
    apply Z.mul_pos_pos; [lia|apply Z.pow_pos_nonneg; lia]. }
  destruct x as [sx|sx| |sx mx ex]; try discriminate Hx;
    destruct y as [sy|sy| |sy my ey]; try discriminate Hy;
    cbn [double] in Hx, Hy; cbn [SFcompare scaled];
    try (pose proof (Hpos _ _ _ Hx) as Hpx);
    try (pose proof (Hpos _ _ _ Hy) as Hpy).
  - reflexivity.
  - destruct sy; unfold cond_Zopp;
      match goal with
      | |- _ = match ?a ?= ?b with _ => _ end => destruct (Z.compare_spec a b)
      end; try reflexivity; exfalso; lia.
  - destruct sx; unfold cond_Zopp;
      match goal with
      | |- _ = match ?a ?= ?b with _ => _ end => destruct (Z.compare_spec a b)
      end; try reflexivity; exfalso; lia.
  - pose proof (compare_finite mx ex my ey Hx Hy) as Hc.
    destruct (Z.compare_spec (Z.pos mx * 2 ^ (ex + 1074))
                (Z.pos my * 2 ^ (ey + 1074))) as [E|E|E];
      destruct sx, sy; unfold cond_Zopp;
      destruct (ex ?= ey); destruct (Pos.compare_cont Eq mx my);
      try discriminate Hc; cbn [CompOpp];
      match goal with
      | |- _ = match ?a ?= ?b with _ => _ end => destruct (Z.compare_spec a b)
      end; try reflexivity; exfalso; lia.
Qed.


(** *** The hours elapsed *)

Lemma msPerHour :
  Number.mul (Number.mul (Number.of_Z 1000) (Number.of_Z 60)) (Number.of_Z 60)
  = S754_finite false 7730941132800000 (-31).
Proof. vm_compute. reflexivity. Qed.

Lemma scale_up W T D :
  0 < W ->
  (2 * Z.abs T <= D -> 2 * Z.abs (W * T) <= W * D)
  /\ (4 * T <= D -> 4 * (W * T) <= W * D).
Proof.
  intros HW. split; intros H.
  - rewrite Z.abs_mul, (Z.abs_eq W) by lia. nia.
  - nia.
Qed.

(** The quotient of a non-zero integer below 2^53 by the milliseconds
    of an hour, as the division of doubles gives it, is the double
    nearest to the exact quotient. *)
Lemma div_nearest z :
  z <> 0 -> Z.abs z < 2 ^ 53 ->
  nearest z 3600000
    (Number.div (Number.of_Z z) (S754_finite false 7730941132800000 (-31))).
Proof.
  intros Hz Hlt. rewrite of_Z_finite by assumption.
  destruct (mantissa_spec z Hz Hlt) as (HM & HMz & He).
  destruct (div_rounds (z <? 0) (mantissa z) (exponent z) HM ltac:(lia))
    as (m & j & Hdiv & Hj & Hm & Hhalf & Hquarter).
  unfold Number.div, Number.prec, Number.emax. rewrite Hdiv. clear Hdiv.
  set (e := exponent z) in *. set (M := Z.pos (mantissa z)) in *.
  assert (HW : 0 < 2 ^ (e + 1021)) by (apply Z.pow_pos_nonneg; lia).
  assert (HJ : 0 < 2 ^ j) by (apply Z.pow_pos_nonneg; lia).
  assert (HU : 2 ^ (e - 22 + j + 1074) = 2 ^ j * (2147483648 * 2 ^ (e + 1021))).
  { replace (e - 22 + j + 1074) with (j + (31 + (e + 1021))) by lia.
    rewrite (Z.pow_add_r 2 j), (Z.pow_add_r 2 31) by lia. reflexivity. }
  assert (HK : 2 ^ 1074 = 2 ^ (- e) * (9007199254740992 * 2 ^ (e + 1021))).
  { replace 1074 with (- e + (53 + (e + 1021))) at 1 by lia.
    rewrite (Z.pow_add_r 2 (- e)), (Z.pow_add_r 2 53) by lia. reflexivity. }
  assert (HT : 3600000 * (Z.pos m * 2 ^ (e - 22 + j + 1074))
               - Z.abs z * 2 ^ 1074
               = 2 ^ (e + 1021)
                 * (7730941132800000 * (Z.pos m * 2 ^ j) - M * 2 ^ 53)).
  { rewrite HU, HK, HMz. change (2 ^ 53) with 9007199254740992. ring. }
  assert (HD : 3600000 * 2 ^ (e - 22 + j + 1074)
               = 2 ^ (e + 1021) * (7730941132800000 * 2 ^ j)).
  { rewrite HU. ring. }
  destruct (scale_up (2 ^ (e + 1021))
              (7730941132800000 * (Z.pos m * 2 ^ j) - M * 2 ^ 53)
              (7730941132800000 * 2 ^ j) HW) as [Hup2 Hup4].
  specialize (Hup2 Hhalf). rewrite <- HT, <- HD in Hup2.
  assert (Hq : Z.pos m = 2 ^ 52 ->
               4 * (3600000 * (Z.pos m * 2 ^ (e - 22 + j + 1074))
                    - Z.abs z * 2 ^ 1074)
               <= 3600000 * 2 ^ (e - 22 + j + 1074)).
  { intros Heq. rewrite HT, HD. apply Hup4, Hquarter, Heq. }
  clear Hup4 Hhalf Hquarter HT HD HU HK.
  split; [apply finite_valid; lia|].
  intros y Hy. cbn [scaled].
  set (U := 2 ^ (e - 22 + j + 1074)) in *.
  assert (HUpos : 0 < U) by (apply Z.pow_pos_nonneg; lia).
  destruct (Z.ltb_spec z 0) as [Hneg|Hpos]; cbn [cond_Zopp].
  - assert (Hy' : double (SFopp y) = true) by now rewrite double_opp.
    pose proof (nearest_arith U (Z.pos m * U) (Z.abs z * 2 ^ 1074)
                  (scaled (SFopp y)) (Z.pos m) HUpos eq_refl ltac:(lia)
                  Hup2 Hq
                  (double_lattice (SFopp y) (e - 22 + j + 1074)
                     ltac:(lia) Hy')) as H.
    rewrite scaled_opp in H. lia.
  - pose proof (nearest_arith U (Z.pos m * U) (Z.abs z * 2 ^ 1074)
                  (scaled y) (Z.pos m) HUpos eq_refl ltac:(lia) Hup2 Hq
                  (double_lattice y (e - 22 + j + 1074) ltac:(lia) Hy)) as H.
    lia.
Qed.

Lemma hoursDiff_exact lastFetched now :
  Z.abs lastFetched < 2 ^ 53 -> Z.abs now < 2 ^ 53 ->
  Z.abs (now - lastFetched) < 2 ^ 53 ->
  DictionaryApi.hoursDiff lastFetched now
  = Number.div (Number.of_Z (now - lastFetched))
      (S754_finite false 7730941132800000 (-31)).
Proof.
  intros Ht Hn Hd. unfold DictionaryApi.hoursDiff. now rewrite msPerHour, sub_exact.
Qed.

Lemma hoursDiff_nearest lastFetched now :
  Z.abs lastFetched < 2 ^ 53 -> Z.abs now < 2 ^ 53 ->
  Z.abs (now - lastFetched) < 2 ^ 53 ->
  nearest (now - lastFetched) 3600000 (DictionaryApi.hoursDiff lastFetched now).
Proof.
  intros Ht Hn Hd. rewrite hoursDiff_exact by assumption.
  destruct (Z.eq_dec (now - lastFetched) 0) as [->|Hne].
  - split; [reflexivity|]. intros y _. cbn. lia.
  - now apply div_nearest.
Qed.

(** What being nearest gives of the comparison with a double [m]. *)
Lemma nearest_gt_sound n d x m :
  0 < d -> nearest n d x -> double m = true ->
  JS.gt x m = true -> d * scaled m < n * 2 ^ 1074.
Proof.
  intros Hd [Hx Hnear] Hm Hgt. unfold JS.gt in Hgt.
  rewrite ltb_scaled in Hgt by assumption. apply Z.ltb_lt in Hgt.
  specialize (Hnear m Hm).
  assert (d * scaled m < d * scaled x) by (apply Z.mul_lt_mono_pos_l; lia).
  lia.
Qed.

Lemma nearest_gt_complete n d x m y :
  0 < d -> nearest n d x -> double m = true -> double y = true ->
  scaled m < scaled y -> d * scaled y <= n * 2 ^ 1074 ->
  JS.gt x m = true.
Proof.
  intros Hd [Hx Hnear] Hm Hy Hmy Hyn. unfold JS.gt.
  rewrite ltb_scaled by assumption. apply Z.ltb_lt.
  specialize (Hnear y Hy).
  destruct (Z_lt_ge_dec (scaled m) (scaled x)) as [|Hge]; [assumption|].
  assert (d * scaled x <= d * scaled m)
    by (apply Z.mul_le_mono_nonneg_l; lia).
  assert (d * scaled m < d * scaled y) by (apply Z.mul_lt_mono_pos_l; lia).
  lia.
Qed.


(** *** Time values 2^53 milliseconds apart or more *)

Lemma shr_1_m mrs : 0 <= shr_m mrs -> shr_m (shr_1 mrs) = shr_m mrs / 2.
Proof.
  destruct mrs as [[|p|p] r s]; cbn [shr_m]; intros H; [reflexivity| |lia].
  now rewrite shr_1_pos.
Qed.

Lemma iter_shr_m n : forall mrs,
  0 <= shr_m mrs ->
  shr_m (SpecFloat.iter_pos shr_1 n mrs) = shr_m mrs / 2 ^ Z.pos n.
Proof.
  induction n as [n IH|n IH|]; intros mrs Hm; cbn [SpecFloat.iter_pos].
  - assert (H1 : 0 <= shr_m (shr_1 mrs))
      by (rewrite shr_1_m by assumption; apply Z.div_pos; lia).
    assert (H2 : 0 <= shr_m (SpecFloat.iter_pos shr_1 n (shr_1 mrs))).
    { rewrite IH by assumption. apply Z.div_pos; [lia|].
      apply Z.pow_pos_nonneg; lia. }
    rewrite IH, IH, shr_1_m by assumption.
    assert (0 < 2 ^ Z.pos n) by (apply Z.pow_pos_nonneg; lia).
    rewrite !Z.div_div by lia. f_equal.
    replace (Z.pos n~1) with (1 + Z.pos n + Z.pos n) by lia.
    rewrite (Z.pow_add_r 2 (1 + Z.pos n) (Z.pos n)) by lia.
    rewrite (Z.pow_add_r 2 1 (Z.pos n)) by lia. lia.
  - assert (H2 : 0 <= shr_m (SpecFloat.iter_pos shr_1 n mrs)).
    { rewrite IH by assumption. apply Z.div_pos; [lia|].
      apply Z.pow_pos_nonneg; lia. }
    rewrite IH, IH by assumption.
    assert (0 < 2 ^ Z.pos n) by (apply Z.pow_pos_nonneg; lia).
    rewrite Z.div_div by lia. f_equal.
    replace (Z.pos n~0) with (Z.pos n + Z.pos n) by lia.
    rewrite (Z.pow_add_r 2 (Z.pos n) (Z.pos n)) by lia. lia.
  - now rewrite shr_1_m.
Qed.

Lemma rne_cases Q l :
  round_nearest_even Q l = Q \/ round_nearest_even Q l = Q + 1.
Proof.
  destruct l as [|[| |]]; cbn [round_nearest_even]; auto.
  destruct (Z.even Q); auto.
Qed.

(** An integer of 54 bits or more is rounded to 53 bits: its exponent is
    that of its binade. *)
Lemma binary_round_far s (P : positive) n :
  0 <= n <= 52 -> 2 ^ (53 + n) <= Z.pos P < 2 ^ (54 + n) ->
  exists m e,
    binary_round 53 1024 s P (- n) = S754_finite s m e
    /\ 2 ^ 52 <= Z.pos m < 2 ^ 53 /\ 1 <= e <= 2.
Proof.
  intros Hn HP.
  assert (Hdig : Z.pos (digits2_pos P) = 54 + n).
  { rewrite (digits2_bounds P (53 + n)); [lia|lia|].
    now replace (53 + n + 1) with (54 + n) by lia. }
  unfold binary_round. rewrite Hdig, fexp_double.
  replace (Z.max (54 + n + - n - 53) (-1074)) with 1 by lia.
  unfold shl_align.
  destruct (1 - - n) as [|d|d] eqn:Hd; try lia.
  unfold binary_round_aux, shr_fexp at 1. cbn [Zdigits2].
  rewrite Hdig, fexp_double.
  replace (Z.max (54 + n + - n - 53) (-1074) - - n) with (Z.pos d) by lia.
  cbn [shr_record_of_loc shr].
  set (mrs := SpecFloat.iter_pos shr_1 d _).
  assert (HQ : shr_m mrs = Z.pos P / 2 ^ Z.pos d)
    by (unfold mrs; rewrite iter_shr_m; cbn [shr_m]; [reflexivity|lia]).
  assert (Hpow : 0 < 2 ^ Z.pos d) by (apply Z.pow_pos_nonneg; lia).
  assert (Hlo : 2 ^ (53 + n) = 2 ^ 52 * 2 ^ Z.pos d).
  { rewrite <- Z.pow_add_r by lia. f_equal. lia. }
  assert (Hhi : 2 ^ (54 + n) = 2 ^ 53 * 2 ^ Z.pos d).
  { rewrite <- Z.pow_add_r by lia. f_equal. lia. }
  assert (Hb : 2 ^ 52 <= shr_m mrs < 2 ^ 53).
  { rewrite HQ. split.
    - apply Z.div_le_lower_bound; lia.
    - apply Z.div_lt_upper_bound; lia. }
  replace (- n + Z.pos d) with 1 by lia.
  destruct (rne_cases (shr_m mrs) (loc_of_shr_record mrs)) as [-> | ->].
  - destruct (as_positive (shr_m mrs) ltac:(lia)) as [q Hq]. rewrite Hq in *.
    rewrite shr_fexp_53 by lia. cbn [shr_record_of_loc shr_m].
    exists q, 1. split; [reflexivity|]. lia.
  - destruct (Z_lt_ge_dec (shr_m mrs + 1) (2 ^ 53)) as [Hlt|Hge].
    + destruct (as_positive (shr_m mrs + 1) ltac:(lia)) as [q Hq].
      rewrite Hq in *.
      rewrite shr_fexp_53 by lia. cbn [shr_record_of_loc shr_m].
      exists q, 1. split; [reflexivity|]. lia.
    + assert (Hc : shr_m mrs + 1 = 9007199254740992) by lia.
      rewrite Hc. rewrite shr_fexp_54 by lia.
      cbn [shr_record_of_loc shr_1 shr_m orb].
      exists 4503599627370496%positive, 2. split; [reflexivity|]. lia.
Qed.

(** The difference of two integers that are doubles, when it is not one:
    it is rounded, and keeps its sign and its binade. *)
Lemma sub_far a b :
  Z.abs a < 2 ^ 53 -> Z.abs b < 2 ^ 53 -> 2 ^ 53 <= Z.abs (a - b) ->
  exists m e,
    Number.sub (Number.of_Z a) (Number.of_Z b)
    = S754_finite (a - b <? 0) m e
    /\ 2 ^ 52 <= Z.pos m < 2 ^ 53 /\ 1 <= e <= 2.
Proof.
  intros Ha Hb Hab.
  assert (Ha0 : a <> 0) by lia. assert (Hb0 : b <> 0) by lia.
  rewrite (of_Z_finite a), (of_Z_finite b) by assumption.
  destruct (mantissa_spec a Ha0 Ha) as (_ & Hma & Hea).
  destruct (mantissa_spec b Hb0 Hb) as (_ & Hmb & Heb).
  unfold Number.sub, Number.prec, Number.emax. cbn [SFsub].
  set (ez := Z.min (exponent a) (exponent b)).
  rewrite !shl_align_value by lia. rewrite Hma, Hmb.
  rewrite <- !Z.mul_assoc, <- !Z.pow_add_r by lia.
  replace (- exponent a + (exponent a - ez)) with (- ez) by lia.
  replace (- exponent b + (exponent b - ez)) with (- ez) by lia.
  rewrite !cond_Zopp_abs, <- Z.mul_sub_distr_r.
  assert (Hpow : 0 < 2 ^ (- ez)) by (apply Z.pow_pos_nonneg; lia).
  assert (Hsc : 2 ^ (53 + - ez) <= Z.abs (a - b) * 2 ^ (- ez)
                < 2 ^ (54 + - ez)).
  { replace (54 + - ez) with (53 + - ez + 1) by lia.
    apply scale_bounds; lia. }
  destruct (Z.ltb_spec (a - b) 0) as [Hneg|Hpos].
  - destruct (as_positive (Z.abs (a - b) * 2 ^ (- ez)) ltac:(lia)) as [P HP].
    replace ((a - b) * 2 ^ (- ez)) with (Z.neg P) by lia.
    cbn [binary_normalize]. replace ez with (- - ez) by lia.
    apply binary_round_far; lia.
  - destruct (as_positive (Z.abs (a - b) * 2 ^ (- ez)) ltac:(lia)) as [P HP].
    replace ((a - b) * 2 ^ (- ez)) with (Z.pos P) by lia.
    cbn [binary_normalize]. replace ez with (- - ez) by lia.
    apply binary_round_far; lia.
Qed.

(** The hours between instants 2^53 milliseconds apart or more are above
    any week, or negative. *)
Lemma hoursDiff_far lastFetched now :
  Z.abs lastFetched < 2 ^ 53 -> Z.abs now < 2 ^ 53 ->
  2 ^ 53 <= Z.abs (now - lastFetched) ->
  JS.gt (DictionaryApi.hoursDiff lastFetched now) (Number.of_Z 168)
  = (0 <? now - lastFetched).
Proof.
  intros Ht Hn Hd. unfold DictionaryApi.hoursDiff. rewrite msPerHour.
  destruct (sub_far now lastFetched Hn Ht Hd) as (M & e & -> & HM & He).
  destruct (div_rounds (now - lastFetched <? 0) M e HM ltac:(lia))
    as (m & j & Hdiv & Hj & _).
  unfold Number.div, Number.prec, Number.emax. rewrite Hdiv.
  change (Number.of_Z 168) with (S754_finite false 5910974510923776 (-45)).
  unfold JS.gt, SFltb.
  destruct (Z.ltb_spec (now - lastFetched) 0) as [Hneg|Hpos];
    cbn [SFcompare].
  - symmetry. apply Z.ltb_ge. lia.
  - replace (-45 ?= e - 22 + j) with Lt
      by (symmetry; apply Z.compare_lt_iff; lia).
    symmetry. apply Z.ltb_lt. lia.
Qed.

End DoubleArithmetic.


(** ** The definition fetcher *)

Section Fetcher.
Import DictionaryApi.

Lemma fetchWordDetails_details word_ fetched details :
  fetchWordDetails word_ fetched = Return (Some details) ->
  exists status wordData rest,
    fetched = Response status (JsonArray (wordData :: rest))
    /\ ok status = true
    /\ extract word_ wordData = Return (Some details).
Proof.
  unfold fetchWordDetails.
  destruct fetched as [|status body]; simpl; [discriminate|].
  destruct (ok status) eqn:Hok; simpl.
  - destruct body as [| |[|wordData rest]]; simpl; try discriminate.
    intros H. exists status, wordData, rest.
    repeat split; [assumption|].
    destruct (extract word_ wordData); simpl in H; [assumption|discriminate].
  - destruct (status =? 404)%nat; simpl; discriminate.
Qed.

Lemma extract_details word_ wordData details :
  extract word_ wordData = Return (Some details) ->
  exists ms,
    meanings wordData = Some ms
    /\ (pronunciations details, pronunciation details)
       = extractPronunciations word_ wordData
    /\ definitions details = take 5 (JS.forEach eachMeaning ms ([], [])).1.
Proof.
  unfold extract.
  destruct (extractPronunciations word_ wordData) as [ps main].
  destruct (meanings wordData) as [ms|]; [|discriminate].
  destruct (JS.forEach eachMeaning ms ([], [])) as [ds es] eqn:E.
  intros H. injection H as <-. exists ms. simpl.
  repeat split; try reflexivity. now rewrite E.
Qed.

(** *** Definitions *)

Lemma forEach_eachSense m senses : forall index ds es,
  (JS.forEach_from index (eachSense m) senses (ds, es)).1
  = ds ++ map (fun s => {| partOfSpeech := meaning_partOfSpeech m;
                           definition := sense_definition s |})
             (take (3 - index) senses).
Proof.
  induction senses as [|s senses IH]; intros index ds es; simpl.
  - rewrite take_nil. simpl. now rewrite app_nil_r.
  - rewrite IH.
    destruct (index <? 3)%nat eqn:Hi.
    + apply Nat.ltb_lt in Hi.
      replace (3 - index) with (S (3 - S index)) by lia.
      simpl. now rewrite <- app_assoc.
    + apply Nat.ltb_ge in Hi.
      replace (3 - index) with 0 by lia.
      replace (3 - S index) with 0 by lia. reflexivity.
Qed.

Lemma forEach_eachMeaning ms : forall index ds es,
  (JS.forEach_from index eachMeaning ms (ds, es)).1
  = ds ++ Spec.combined ms.
Proof.
  induction ms as [|m ms IH]; intros index ds es; simpl.
  - now rewrite app_nil_r.
  - unfold eachMeaning at 2. unfold JS.forEach.
    pose proof (forEach_eachSense m (meaning_definitions m) 0 ds es) as Hm.
    destruct (JS.forEach_from 0 (eachSense m) (meaning_definitions m)
                (ds, es)) as [ds' es'].
    simpl in Hm. subst ds'.
    rewrite IH. unfold Spec.combined. simpl.
    now rewrite <- app_assoc.
Qed.

Lemma group_length m :
  length (Spec.group m) = Nat.min 3 (length (meaning_definitions m)).
Proof. unfold Spec.group. now rewrite length_map, length_take. Qed.

(** C5.  Whenever the fetch gives details, their definitions are the
    first 3 definitions of each meaning group of the entry, one group
    after the other, cut after the fifth: at most 3 from a group, at most
    5 in all. *)
Theorem C5_definitions_capped word_ fetched details :
  fetchWordDetails word_ fetched = Return (Some details) ->
  exists status wordData rest ms,
    fetched = Response status (JsonArray (wordData :: rest))
    /\ meanings wordData = Some ms
    /\ definitions details = take 5 (concat (map Spec.group ms))
    /\ Forall (fun m =>
                 Spec.group m
                 = map (fun s => {| partOfSpeech := meaning_partOfSpeech m;
                                    definition := sense_definition s |})
                       (take 3 (meaning_definitions m))
                 /\ length (Spec.group m) <= 3) ms
    /\ length (definitions details) <= 5.
Proof.
  intros H.
  destruct (fetchWordDetails_details _ _ _ H)
    as (status & wordData & rest & -> & _ & Hx).
  destruct (extract_details _ _ _ Hx) as (ms & Hms & _ & Hd).
  exists status, wordData, rest, ms.
  unfold JS.forEach in Hd. rewrite forEach_eachMeaning in Hd. simpl in Hd.
  repeat split; try assumption.
  - apply Forall_forall. intros m _. split; [reflexivity|].
    rewrite group_length. lia.
  - rewrite Hd, length_take. lia.
Qed.

(** *** Pronunciations *)

Lemma truthy_nonempty t : JS.truthy t = negb (String.eqb t "").
Proof. now destruct t. Qed.

Lemma trimEnd_empty s :
  JS.trimEnd s = "" <->
  forallb JS.is_space (list_ascii_of_string s) = true.
Proof.
  induction s as [|c s IH]; simpl; [tauto|].
  destruct (JS.trimEnd s) eqn:Ht.
  - destruct (JS.is_space c); simpl; [tauto|].
    split; discriminate.
  - split; [discriminate|].
    intros H. apply andb_true_iff in H as [_ H].
    apply IH in H. discriminate.
Qed.

Lemma trimStart_spaces s :
  forallb JS.is_space (list_ascii_of_string (JS.trimStart s))
  = forallb JS.is_space (list_ascii_of_string s).
Proof.
  induction s as [|c s IH]; simpl; [reflexivity|].
  destruct (JS.is_space c) eqn:Hc; simpl; [exact IH|].
  now rewrite Hc.
Qed.

Lemma trim_empty s :
  String.eqb (JS.trim s) ""
  = forallb JS.is_space (list_ascii_of_string s).
Proof.
  unfold JS.trim. rewrite <- trimStart_spaces.
  destruct (forallb JS.is_space
              (list_ascii_of_string (JS.trimStart s))) eqn:H.
  - apply trimEnd_empty in H. now rewrite H.
  - apply String.eqb_neq. intros Hn.
    apply trimEnd_empty in Hn. congruence.
Qed.

Lemma audio_kept a :
  JS.truthy a && negb (String.eqb (JS.trim a) "")
  = existsb (fun c => negb (JS.is_space c)) (list_ascii_of_string a).
Proof.
  rewrite trim_empty. destruct a as [|c a]; [reflexivity|].
  cbn [JS.truthy andb].
  induction (list_ascii_of_string (String c a)) as [|d l IH];
    [reflexivity|].
  simpl. destruct (JS.is_space d); simpl; [exact IH|reflexivity].
Qed.

Lemma eachPhonetic_spec p i prons main :
  eachPhonetic p i (prons, main)
  = if Spec.hasText p
    then (prons ++ [Spec.infoOf p],
          if JS.truthy main then main else text (Spec.infoOf p))
    else (prons, main).
Proof.
  unfold eachPhonetic, Spec.hasText, Spec.infoOf, Spec.hasAudio.
  destruct p as [[t|] a]; simpl; [|reflexivity].
  rewrite <- truthy_nonempty.
  destruct (JS.truthy t); [|reflexivity].
  destruct a as [a|]; simpl.
  - rewrite audio_kept.
    destruct (existsb _ _); destruct (JS.truthy main); reflexivity.
  - destruct (JS.truthy main); reflexivity.
Qed.

Lemma forEach_eachPhonetic ps : forall index prons main,
  JS.forEach_from index eachPhonetic ps (prons, main)
  = (prons ++ map Spec.infoOf (List.filter Spec.hasText ps),
     if JS.truthy main then main
     else match List.filter Spec.hasText ps with
          | first :: _ => text (Spec.infoOf first)
          | [] => main
          end).
Proof.
  induction ps as [|p ps IH]; intros index prons main.
  - simpl. rewrite app_nil_r. now destruct (JS.truthy main).
  - cbn [JS.forEach_from List.filter]. rewrite eachPhonetic_spec.
    destruct (Spec.hasText p) eqn:Hp; rewrite IH; [|reflexivity].
    cbn [map]. rewrite <- app_assoc. cbn [app]. f_equal.
    destruct (JS.truthy main) eqn:Hm; [now rewrite Hm|].
    assert (Ht : JS.truthy (text (Spec.infoOf p)) = true).
    { unfold Spec.hasText in Hp. unfold Spec.infoOf. simpl.
      destruct (phonetic_text p) as [t|]; [|discriminate].
      simpl. now rewrite truthy_nonempty. }
    now rewrite Ht.
Qed.

Lemma extractPronunciations_spec word_ wordData :
  extractPronunciations word_ wordData
  = Spec.pronunciationsOf word_ wordData.
Proof.
  unfold extractPronunciations, Spec.pronunciationsOf.
  assert (Hloop :
    match phonetics wordData with
    | Some ps =>
        if (0 <? length ps)%nat
        then JS.forEach eachPhonetic ps ([], "") else ([], "")
    | None => ([], "")
    end
    = (map Spec.infoOf
         (List.filter Spec.hasText (default [] (phonetics wordData))),
       match List.filter Spec.hasText (default [] (phonetics wordData)) with
       | first :: _ => text (Spec.infoOf first)
       | [] => ""
       end)).
  { destruct (phonetics wordData) as [[|p ps]|]; try reflexivity.
    cbn [length Nat.ltb Nat.leb default]. unfold JS.forEach.
    now rewrite forEach_eachPhonetic. }
  rewrite Hloop. clear Hloop.
  destruct (List.filter Spec.hasText (default [] (phonetics wordData)))
    as [|first rest] eqn:Hf.
  - cbn [map]. destruct (phonetic wordData) as [[|c p]|]; reflexivity.
  - assert (Ht : JS.truthy (text (Spec.infoOf first)) = true).
    { assert (Hin : In first (List.filter Spec.hasText
                                (default [] (phonetics wordData))))
        by (rewrite Hf; now left).
      apply filter_In in Hin as [_ Hp].
      unfold Spec.hasText in Hp. unfold Spec.infoOf. simpl.
      destruct (phonetic_text first) as [t|]; [|discriminate].
      simpl. now rewrite truthy_nonempty. }
    destruct (phonetic wordData) as [p|]; cbn [negb andb];
      rewrite ?Ht; cbn [negb andb]; rewrite ?Ht; reflexivity.
Qed.

(** C6.  Whenever the fetch gives details, the pronunciations are: the
    entries of the phonetic list that have text, in order, each with
    its audio URL when it has one, and the text of the first of them as
    the primary one; when no entry has text, the top-level phonetic
    field when it is present (and not empty); otherwise the placeholder
    "/word/". *)
Theorem C6_pronunciation_fallback word_ fetched details :
  fetchWordDetails word_ fetched = Return (Some details) ->
  exists status wordData rest,
    fetched = Response status (JsonArray (wordData :: rest))
    /\ let withText :=
         List.filter Spec.hasText (default [] (phonetics wordData)) in
       match withText with
       | first :: _ =>
           pronunciation details = default "" (phonetic_text first)
           /\ phonetic_text first <> None
           /\ pronunciations details = map Spec.infoOf withText
       | [] =>
           match phonetic wordData with
           | Some (String c p) =>
               pronunciation details = String c p
               /\ pronunciations details
                  = [{| text := String c p; audio := None |}]
           | _ =>
               pronunciation details = ("/" ++ word_ ++ "/")%string
               /\ pronunciations details
                  = [{| text := ("/" ++ word_ ++ "/")%string;
                        audio := None |}]
           end
       end.
Proof.
  intros H.
  destruct (fetchWordDetails_details _ _ _ H)
    as (status & wordData & rest & -> & _ & Hx).
  destruct (extract_details _ _ _ Hx) as (ms & _ & Hp & _).
  exists status, wordData, rest. split; [reflexivity|].
  rewrite extractPronunciations_spec in Hp.
  unfold Spec.pronunciationsOf in Hp. cbv zeta.
  destruct (List.filter Spec.hasText (default [] (phonetics wordData)))
    as [|first rest'] eqn:Hf.
  - destruct (phonetic wordData) as [[|c p]|];
      injection Hp as -> ->; split; reflexivity.
  - injection Hp as -> ->. repeat split.
    assert (Hin : In first (List.filter Spec.hasText
                              (default [] (phonetics wordData))))
      by (rewrite Hf; now left).
    apply filter_In in Hin as [_ Hin]. unfold Spec.hasText in Hin.
    destruct (phonetic_text first); [discriminate|discriminate].
Qed.

(** *** Outcomes *)

Lemma fetchWordDetails_returns word_ fetched :
  exists result, fetchWordDetails word_ fetched = Return result.
Proof.
  unfold fetchWordDetails.
  destruct (match fetched with
            | NetworkFailure => Throw FetchRejected
            | Response status body => _
            end) as [result|e]; simpl; eauto.
Qed.

Lemma fetchWordDetails_bad_status word_ status body :
  ok status = false ->
  fetchWordDetails word_ (Response status body) = Return None.
Proof.
  intros H. unfold fetchWordDetails. rewrite H. simpl.
  now destruct (status =? 404)%nat.
Qed.

(** C8.  [fetchWordDetails] returns for every word and every answer of
    the lookup service, it does not throw; and a network error, a
    status that is not a success (404 or another), a body that is not
    JSON, an empty body and an entry without meanings all give the one
    value [null]. *)
Theorem C8_fetch_never_throws word_ :
  (forall fetched, exists result : option WordDetails,
      fetchWordDetails word_ fetched = Return result)
  /\ fetchWordDetails word_ NetworkFailure = Return None
  /\ (forall status body, ok status = false ->
        fetchWordDetails word_ (Response status body) = Return None)
  /\ (forall status,
        fetchWordDetails word_ (Response status Unparseable) = Return None)
  /\ (forall status,
        fetchWordDetails word_ (Response status JsonNull) = Return None)
  /\ (forall status,
        fetchWordDetails word_ (Response status (JsonArray []))
        = Return None)
  /\ (forall status wordData rest, meanings wordData = None ->
        fetchWordDetails word_ (Response status (JsonArray (wordData :: rest)))
        = Return None).
Proof.
  split; [apply fetchWordDetails_returns|].
  split; [reflexivity|].
  split; [apply fetchWordDetails_bad_status|].
  repeat split; intros status; intros;
    destruct (ok status) eqn:Hok;
    try (now apply fetchWordDetails_bad_status);
    unfold fetchWordDetails; rewrite Hok; simpl; try reflexivity.
  unfold extract.
  destruct (extractPronunciations word_ wordData).
  now rewrite H.
Qed.

(** C3, as the code has it.  The fetch has two outcomes, not three:
    details when the lookup service answers with a success status and
    an entry that has meanings; [null] when it answers 404, returned
    and not thrown; and the same [null] for every other status that is
    not a success and for a request that does not get through. *)
Theorem C3_fetch_outcomes word_ :
  (forall status wordData rest ms,
      ok status = true -> meanings wordData = Some ms ->
      exists details,
        fetchWordDetails word_ (Response status (JsonArray (wordData :: rest)))
        = Return (Some details))
  /\ (forall body, fetchWordDetails word_ (Response 404 body) = Return None)
  /\ (forall status body, ok status = false ->
        fetchWordDetails word_ (Response status body)
        = fetchWordDetails word_ (Response 404 body))
  /\ fetchWordDetails word_ NetworkFailure = Return None.
Proof.
  split; [|split; [|split; [|reflexivity]]].
  - intros status wordData rest ms Hok Hms.
    unfold fetchWordDetails. rewrite Hok. simpl. unfold extract.
    destruct (extractPronunciations word_ wordData).
    rewrite Hms.
    destruct (JS.forEach eachMeaning ms ([], [])).
    simpl. eauto.
  - intros body. now apply fetchWordDetails_bad_status.
  - intros status body Hok.
    rewrite !fetchWordDetails_bad_status; auto.
Qed.

(** *** Staleness *)

Lemma timeValue_double t : Doubles.timeValue t -> (Z.abs t < 2 ^ 53)%Z.
Proof. unfold Doubles.timeValue. lia. Qed.

(** 168 as a double, and the double that follows it. *)
Lemma week_scaled :
  Doubles.double (Number.of_Z 168) = true
  /\ Doubles.scaled (Number.of_Z 168) = (168 * 2 ^ 1074)%Z
  /\ Doubles.double (S754_finite false 5910974510923777 (-45)) = true
  /\ (Doubles.scaled (Number.of_Z 168)
      < Doubles.scaled (S754_finite false 5910974510923777 (-45)))%Z
  /\ (3600000 * Doubles.scaled (S754_finite false 5910974510923777 (-45))
      <= 604800001 * 2 ^ 1074)%Z.
Proof. vm_compute. repeat split; discriminate. Qed.

Lemma week_exceeded t now :
  Doubles.timeValue t -> Doubles.timeValue now ->
  shouldUpdateWordDetails (Some t) (Some (Number.of_Z 168)) now = true
  <-> (168 * 3600000 < now - t)%Z.
Proof.
  intros Ht Hn. cbn [shouldUpdateWordDetails default].
  destruct (Z_lt_ge_dec (Z.abs (now - t)) (2 ^ 53)) as [Hd|Hd].
  2:{ change (JS.gt (hoursDiff t now) (Number.of_Z 168) = true
              <-> (168 * 3600000 < now - t)%Z).
      rewrite (hoursDiff_far t now (timeValue_double _ Ht)
                 (timeValue_double _ Hn)) by lia.
      rewrite Z.ltb_lt. lia. }
  pose proof (hoursDiff_nearest t now (timeValue_double _ Ht)
                (timeValue_double _ Hn) Hd) as Hnear.
  destruct week_scaled as (H168 & Hs168 & Hnext & Hlt & Hle).
  split.
  - intros H.
    pose proof (nearest_gt_sound (now - t) 3600000 _ _ eq_refl Hnear H168 H)
      as Hgt.
    rewrite Hs168 in Hgt. lia.
  - intros H.
    apply (nearest_gt_complete (now - t) 3600000 _ _ _ eq_refl Hnear H168
             Hnext Hlt).
    assert (604800001 * 2 ^ 1074 <= (now - t) * 2 ^ 1074)%Z
      by (apply Z.mul_le_mono_nonneg_r; lia).
    lia.
Qed.

(** C7, as the code has it.  The check is true when there is no last
    fetch, and the maximum age is 168 when it is left out.  When there
    is a last fetch [t], the hours that the check compares with the
    maximum age [m] are a double: the one nearest to the exact quotient
    (now - t) / 3600000, for time values less than 2^53 milliseconds
    apart; the comparison is that of doubles.  So the check is true only
    if the exact hours exceed [m], and it is true whenever the exact
    hours reach a double above [m]; it can be false when they exceed [m]
    by less than that.  For [m] = 168 it is true exactly when more than
    168 hours have elapsed, whatever the two time values, and the three
    cases of the specification hold.  A double [x] stands for the integer [scaled x] = x * 2^1074,
    so that [3600000 * scaled m < (now - t) * 2^1074] says that the
    elapsed hours exceed [m]. *)
Theorem C7_staleness :
  (forall m now, shouldUpdateWordDetails None m now = true)
  /\ (forall t now,
        shouldUpdateWordDetails t None now
        = shouldUpdateWordDetails t (Some (Number.of_Z 168)) now)
  /\ (forall t m now,
        Doubles.timeValue t -> Doubles.timeValue now ->
        (Z.abs (now - t) < 2 ^ 53)%Z ->
        Doubles.nearest (now - t) 3600000 (hoursDiff t now)
        /\ shouldUpdateWordDetails (Some t) (Some m) now
           = JS.gt (hoursDiff t now) m
        /\ (Doubles.double m = true ->
            shouldUpdateWordDetails (Some t) (Some m) now = true ->
            (3600000 * Doubles.scaled m < (now - t) * 2 ^ 1074)%Z)
        /\ (forall y,
              Doubles.double m = true -> Doubles.double y = true ->
              (Doubles.scaled m < Doubles.scaled y)%Z ->
              (3600000 * Doubles.scaled y <= (now - t) * 2 ^ 1074)%Z ->
              shouldUpdateWordDetails (Some t) (Some m) now = true))
  /\ (forall t now,
        Doubles.timeValue t -> Doubles.timeValue now ->
        shouldUpdateWordDetails (Some t) (Some (Number.of_Z 168)) now = true
        <-> (168 * 3600000 < now - t)%Z)
  /\ (forall now,
        shouldUpdateWordDetails None (Some (Number.of_Z 168)) now = true)
  /\ (forall now,
        Doubles.timeValue now ->
        shouldUpdateWordDetails (Some now) (Some (Number.of_Z 168)) now
        = false)
  /\ (forall now,
        Doubles.timeValue now ->
        Doubles.timeValue (now - 169 * 3600000) ->
        shouldUpdateWordDetails (Some (now - 169 * 3600000)%Z)
          (Some (Number.of_Z 168)) now = true).
Proof.
  split; [reflexivity|].
  split; [intros [t|] now; reflexivity|].
  split.
  { intros t m now Ht Hn Hd.
    pose proof (hoursDiff_nearest t now (timeValue_double _ Ht)
                  (timeValue_double _ Hn) Hd) as Hnear.
    split; [exact Hnear|]. split; [reflexivity|]. split.
    - intros Hm H.
      exact (nearest_gt_sound (now - t) 3600000 _ _ eq_refl Hnear Hm H).
    - intros y Hm Hy Hlt Hle.
      exact (nearest_gt_complete (now - t) 3600000 _ _ _ eq_refl Hnear Hm Hy
               Hlt Hle). }
  split; [exact week_exceeded|].
  split; [reflexivity|].
  split.
  - intros now Hn.
    destruct (shouldUpdateWordDetails (Some now) (Some (Number.of_Z 168)) now)
      eqn:E; [|reflexivity].
    apply week_exceeded in E; unfold Doubles.timeValue in *; lia.
  - intros now Hn Ht.
    apply week_exceeded; unfold Doubles.timeValue in *; lia.
Qed.

End Fetcher.

(** ** The word store *)

Section Store.
Import Supabase Stages.

(** *** The computation of one word, request by request *)

Lemma wordPromise_pending w :
  wordPromise w
  = Async.Pending (SelectEqWord (JS.toLowerCase w)) (writing w).
Proof. reflexivity. Qed.

Lemma writing_failure w e :
  writing w (failure e) = Async.Resolved (gave_up w).
Proof. reflexivity. Qed.

Lemma writing_update w existingWord :
  writing w (ok (Some existingWord))
  = Async.Pending (UpdateEqId (increment existingWord) (id existingWord))
      (finished w (ok (Some existingWord))).
Proof. reflexivity. Qed.

Lemma writing_insert w :
  writing w (ok None)
  = Async.Pending (Insert (JS.toLowerCase w) 1) (finished w (ok None)).
Proof. reflexivity. Qed.

Lemma finished_failure w found e :
  error found = None ->
  finished w found (failure e) = Async.Resolved (gave_up w).
Proof.
  destruct found as [[x|] [e'|]]; simpl; intros H; try discriminate;
    reflexivity.
Qed.

Lemma finished_ok w found r :
  error found = None ->
  finished w found (ok (Some r)) = Async.Resolved (succeeded w r).
Proof.
  destruct found as [[x|] [e'|]]; simpl; intros H; try discriminate;
    reflexivity.
Qed.

(** *** The table, request by request *)

Lemma has_word_true w r : has_word w r = true <-> word r = w.
Proof. apply String.eqb_eq. Qed.

Lemma has_id_true i r : has_id i r = true <-> id r = i.
Proof. apply String.eqb_eq. Qed.

Lemma rows_of_In w rows r :
  In r (rows_of w rows) <-> In r rows /\ word r = w.
Proof. unfold rows_of. now rewrite filter_In, has_word_true. Qed.

Lemma rows_of_app w rows rows' :
  rows_of w (rows ++ rows') = rows_of w rows ++ rows_of w rows'.
Proof. apply List.filter_app. Qed.

Lemma rows_of_map w (f : Word -> Word) rows :
  (forall r, word (f r) = word r) ->
  rows_of w (map f rows) = map f (rows_of w rows).
Proof.
  intros Hf. unfold rows_of.
  induction rows as [|r rows IH]; simpl; [reflexivity|].
  assert (E : has_word w (f r) = has_word w r)
    by (unfold has_word; now rewrite Hf).
  rewrite E. destruct (has_word w r); simpl; now rewrite IH.
Qed.


Lemma answer_select now uuid w rows reply rows' :
  answer now uuid (SelectEqWord w) rows = (reply, rows') ->
  rows' = rows
  /\ ((exists e, reply = failure e)
      \/ (reply = ok None /\ rows_of w rows = [])
      \/ (exists existingWord,
            reply = ok (Some existingWord)
            /\ rows_of w rows = [existingWord])).
Proof.
  simpl. fold (rows_of w rows).
  destruct (rows_of w rows) as [|r [|r' rs]]; intros [= <- <-]; eauto 6.
Qed.

Lemma answer_update now uuid w body existingWord rows reply rows' :
  rows_of w rows = [existingWord] ->
  answer now uuid (UpdateEqId body (id existingWord)) rows = (reply, rows') ->
  ((exists e, reply = failure e) /\ rows' = rows)
  \/ (reply = ok (Some (assign body existingWord))
      /\ rows_of w rows' = [assign body existingWord]
      /\ forall v, v <> w -> rows_of v rows' = rows_of v rows).
Proof.
  intros Hw. simpl.
  assert (Hex : In existingWord rows /\ word existingWord = w).
  { apply rows_of_In. rewrite Hw. now left. }
  destruct Hex as [Hin Hword].
  destruct (List.filter (has_id (id existingWord)) rows)
    as [|r [|r' rs]] eqn:Hid; try (intros [= <- <-]; eauto; fail).
  assert (Hr : r = existingWord).
  { assert (H : In existingWord
                  (List.filter (has_id (id existingWord)) rows)).
    { apply filter_In. split; [assumption|]. now apply has_id_true. }
    rewrite Hid in H. destruct H as [H|[]]. exact H. }
  subst r. intros [= <- <-]. right.
  set (f := fun r => if has_id (id existingWord) r
                     then assign body r else r).
  assert (Hf : forall r, word (f r) = word r).
  { intros r. unfold f. now destruct (has_id _ r). }
  split; [reflexivity|]. split.
  - rewrite (rows_of_map w f rows Hf), Hw. simpl. unfold f.
    replace (has_id (id existingWord) existingWord) with true
      by (symmetry; now apply has_id_true).
    reflexivity.
  - intros v Hv. rewrite (rows_of_map v f rows Hf).
    rewrite <- (map_id (rows_of v rows)) at 2.
    apply map_ext_in. intros r Hr. apply rows_of_In in Hr as [Hr Hrv].
    unfold f. destruct (has_id (id existingWord) r) eqn:Hri; [|reflexivity].
    exfalso.
    assert (H : In r (List.filter (has_id (id existingWord)) rows))
      by (apply filter_In; auto).
    rewrite Hid in H. destruct H as [H|[]]. subst r. congruence.
Qed.

Lemma answer_insert now uuid w f rows reply rows' :
  rows_of w rows = [] ->
  answer now uuid (Insert w f) rows = (reply, rows') ->
  ((exists e, reply = failure e) /\ rows' = rows)
  \/ (reply = ok (Some (new_row uuid now w f))
      /\ rows_of w rows' = [new_row uuid now w f]
      /\ forall v, v <> w -> rows_of v rows' = rows_of v rows).
Proof.
  intros Hw. simpl.
  destruct (existsb (has_id uuid) rows || existsb (has_word w) rows).
  { intros [= <- <-]. eauto. }
  intros [= <- <-]. right.
  split; [reflexivity|]. split.
  - rewrite rows_of_app, Hw. simpl. unfold rows_of, has_word. simpl.
    now rewrite String.eqb_refl.
  - intros v Hv. rewrite rows_of_app. unfold rows_of at 2, has_word.
    simpl. replace (String.eqb w v) with false; [apply app_nil_r|].
    symmetry. now apply String.eqb_neq.
Qed.

(** What the client is told of a request, against what the table did:
    told of the table's reply, or told of a failure while the table has
    or has not handled the request. *)
Lemma serve_answer l q rows reply rows' :
  serve l q rows = (reply, rows') ->
  (reply = failure FetchFailed /\ rows' = rows)
  \/ (exists now uuid answered,
        answer now uuid q rows = (answered, rows')
        /\ (reply = answered \/ reply = failure FetchFailed)).
Proof.
  destruct l as [|now uuid|now uuid]; simpl.
  - intros [= <- <-]. now left.
  - destruct (answer now uuid q rows) as [answered rows1] eqn:Ha.
    intros [= <- <-]. right. exists now, uuid, answered. auto.
  - intros H. right. exists now, uuid, reply. auto.
Qed.

(** *** One request of one word's computation *)

Lemma stage_frame rows0 rows rows' w m :
  rows_of w rows' = rows_of w rows ->
  stage rows0 rows w m -> stage rows0 rows' w m.
Proof.
  intros E H.
  destruct H as [Hsame|ex H0 Hnow|H0 Hnow|ex H0 Hnow|now uuid H0 Hnow
                |Hsame|ex H0 Hnow|now uuid H0 Hnow].
  - apply selecting. congruence.
  - apply updating; congruence.
  - apply inserting; congruence.
  - apply updated; congruence.
  - apply inserted; congruence.
  - apply failed_. congruence.
  - apply (update_lost _ _ _ ex); congruence.
  - apply (insert_lost _ _ _ now uuid); congruence.
Qed.

Lemma stage_not_rejected rows0 rows w m e :
  stage rows0 rows w m -> m <> Async.Rejected e.
Proof. intros H. destruct H; discriminate. Qed.

Lemma stage_step rows0 rows w m l q k reply rows' :
  JS.toLowerCase w = w ->
  stage rows0 rows w m ->
  m = Async.Pending q k ->
  serve l q rows = (reply, rows') ->
  stage rows0 rows' w (k reply)
  /\ (forall v, v <> w -> rows_of v rows' = rows_of v rows)
  /\ progress m < progress (k reply).
Proof.
  intros Hlow Hst Hm Hserve.
  destruct Hst as [Hsame|ex H0 Hnow|H0 Hnow|ex H0 Hnow|now uuid H0 Hnow
                  |Hsame|ex H0 Hnow|now uuid H0 Hnow];
    try discriminate.
  - (* the SELECT is served *)
    rewrite wordPromise_pending, Hlow in Hm. injection Hm as <- <-.
    assert (Hgone : rows' = rows -> forall e,
               stage rows0 rows' w (writing w (failure e))
               /\ (forall v, v <> w -> rows_of v rows' = rows_of v rows)
               /\ progress (wordPromise w) < progress (writing w (failure e))).
    { intros -> e. rewrite writing_failure.
      split; [now apply failed_|]. split; [auto|simpl; lia]. }
    apply serve_answer in Hserve
      as [[-> ->]|(now & uuid & answered & Ha & Hreply)]; [now apply Hgone|].
    apply answer_select in Ha as [-> Ha].
    destruct Hreply as [->| ->]; [|now apply Hgone].
    destruct Ha as [[e ->]|[[-> Hnone]|(ex & -> & Hone)]];
      [now apply Hgone| |].
    + split; [|split]; [|auto|rewrite writing_insert; simpl; lia].
      apply inserting; congruence.
    + split; [|split]; [|auto|rewrite writing_update; simpl; lia].
      apply updating; congruence.
  - (* the UPDATE is served *)
    rewrite writing_update in Hm. injection Hm as <- <-.
    assert (Hgone : rows' = rows -> forall e,
               stage rows0 rows' w (finished w (ok (Some ex)) (failure e))
               /\ (forall v, v <> w -> rows_of v rows' = rows_of v rows)
               /\ 1 < progress (finished w (ok (Some ex)) (failure e))).
    { intros -> e. rewrite finished_failure by reflexivity.
      split; [apply failed_; congruence|]. split; [auto|simpl; lia]. }
    apply serve_answer in Hserve
      as [[-> ->]|(now & uuid & answered & Ha & Hreply)]; [now apply Hgone|].
    apply (answer_update _ _ w) in Ha; [|assumption].
    destruct Ha as [[[e ->] ->]|(-> & Hrow & Hframe)].
    + destruct Hreply as [->| ->]; now apply Hgone.
    + destruct Hreply as [->| ->].
      * rewrite finished_ok by reflexivity.
        split; [now apply updated|]. split; [assumption|simpl; lia].
      * rewrite finished_failure by reflexivity.
        split; [now apply (update_lost _ _ _ ex)|].
        split; [assumption|simpl; lia].
  - (* the INSERT is served *)
    rewrite writing_insert, Hlow in Hm. injection Hm as <- <-.
    assert (Hgone : rows' = rows -> forall e,
               stage rows0 rows' w (finished w (ok None) (failure e))
               /\ (forall v, v <> w -> rows_of v rows' = rows_of v rows)
               /\ 1 < progress (finished w (ok None) (failure e))).
    { intros -> e. rewrite finished_failure by reflexivity.
      split; [apply failed_; congruence|]. split; [auto|simpl; lia]. }
    apply serve_answer in Hserve
      as [[-> ->]|(now & uuid & answered & Ha & Hreply)]; [now apply Hgone|].
    apply answer_insert in Ha; [|assumption].
    destruct Ha as [[[e ->] ->]|(-> & Hrow & Hframe)].
    + destruct Hreply as [->| ->]; now apply Hgone.
    + destruct Hreply as [->| ->].
      * rewrite finished_ok by reflexivity.
        split; [now apply inserted|]. split; [assumption|simpl; lia].
      * rewrite finished_failure by reflexivity.
        split; [now apply (insert_lost _ _ _ now uuid)|].
        split; [assumption|simpl; lia].
Qed.

(** *** The computations of a call, served in any order *)

Lemma deliver_stage rows0 ws pool wld ev pool' wld' :
  NoDup ws ->
  Forall (fun w => JS.toLowerCase w = w) ws ->
  Forall2 (stage rows0 (table wld)) ws pool ->
  deliver (pool, wld) ev = (pool', wld') ->
  Forall2 (stage rows0 (table wld')) ws pool'
  /\ (forall v, ~ In v ws -> rows_of v (table wld') = rows_of v (table wld))
  /\ (forall j m, pool !! j = Some m ->
        exists m', pool' !! j = Some m'
          /\ progress m <= progress m'
          /\ (j = ev.1 -> Nat.min 2 (S (progress m)) <= progress m')).
Proof.
  intros Hnodup Hlow Hall Hdel. destruct ev as [i l].
  assert (Hidle : (pool', wld') = (pool, wld) ->
    Forall2 (stage rows0 (table wld')) ws pool'
    /\ (forall v, ~ In v ws ->
          rows_of v (table wld') = rows_of v (table wld))
    /\ (forall j m, pool !! j = Some m ->
          progress m = 2 \/ j <> i ->
          exists m', pool' !! j = Some m'
            /\ progress m <= progress m'
            /\ (j = i -> Nat.min 2 (S (progress m)) <= progress m'))).
  { intros [= -> ->]. split; [assumption|]. split; [reflexivity|].
    intros j m Hj Hm. exists m. split; [assumption|]. split; [lia|].
    intros ->. destruct Hm as [->|Hm]; [simpl; lia|congruence]. }
  unfold deliver in Hdel.
  destruct (pool !! i) as [m|] eqn:Hi.
  2:{ destruct (Hidle (eq_sym Hdel)) as (H1 & H2 & H3).
      split; [assumption|]. split; [assumption|].
      intros j m Hj. apply H3; [assumption|]. right.
      intros E. simpl in E. rewrite E, Hi in Hj. discriminate. }
  destruct m as [a|e|q k].
  1,2: destruct (Hidle (eq_sym Hdel)) as (H1 & H2 & H3);
       (split; [assumption|]); (split; [assumption|]);
       intros j m Hj; apply H3; [assumption|];
       destruct (decide (j = i)) as [->|]; [left|right; assumption];
       rewrite Hi in Hj; injection Hj as <-; reflexivity.
  clear Hidle.
  destruct (serve l q (table wld)) as [reply rows'] eqn:Hserve.
  injection Hdel as <- <-. cbn [fst table].
  destruct (Forall2_lookup_r _ _ _ _ _ Hall Hi) as (w & Hw & Hst).
  assert (Hwlow : JS.toLowerCase w = w).
  { rewrite Forall_forall in Hlow. apply Hlow.
    eapply list_elem_of_lookup_2; eassumption. }
  destruct (stage_step _ _ _ _ l _ _ _ _ Hwlow Hst eq_refl Hserve)
    as (Hst' & Hframe & Hprog).
  split; [|split].
  - apply Forall2_same_length_lookup. split.
    + rewrite length_insert. eapply Forall2_length; eassumption.
    + intros j x y Hx Hy. destruct (decide (j = i)) as [->|Hji].
      * rewrite list_lookup_insert_eq in Hy
          by (eapply lookup_lt_Some; eassumption).
        injection Hy as <-. rewrite Hw in Hx. injection Hx as <-.
        assumption.
      * rewrite list_lookup_insert_ne in Hy by congruence.
        apply (stage_frame rows0 (table wld)).
        -- apply Hframe. intros ->. apply Hji.
           eapply NoDup_lookup; eassumption.
        -- eapply Forall2_lookup_lr; eassumption.
  - intros v Hv. apply Hframe. intros ->. apply Hv.
    apply list_elem_of_In. eapply list_elem_of_lookup_2; eassumption.
  - intros j m Hj. destruct (decide (j = i)) as [->|Hji].
    + rewrite Hi in Hj. injection Hj as <-.
      exists (k reply). rewrite list_lookup_insert_eq
        by (eapply lookup_lt_Some; eassumption).
      split; [reflexivity|]. split; [lia|]. intros _. lia.
    + exists m. rewrite list_lookup_insert_ne by congruence.
      split; [assumption|]. split; [lia|]. intros ->. congruence.
Qed.

Lemma run_stage rows0 ws :
  NoDup ws ->
  Forall (fun w => JS.toLowerCase w = w) ws ->
  forall sched pool wld pool' wld',
    Forall2 (stage rows0 (table wld)) ws pool ->
    fold_left deliver sched (pool, wld) = (pool', wld') ->
    Forall2 (stage rows0 (table wld')) ws pool'
    /\ (forall v, ~ In v ws ->
          rows_of v (table wld') = rows_of v (table wld))
    /\ (forall j m, pool !! j = Some m ->
          exists m', pool' !! j = Some m'
            /\ Nat.min 2 (progress m + count_occ Nat.eq_dec (map fst sched) j)
               <= progress m').
Proof.
  intros Hnodup Hlow sched.
  induction sched as [|ev sched IH]; intros pool wld pool' wld' Hall Hrun.
  - simpl in Hrun. injection Hrun as <- <-.
    split; [assumption|]. split; [reflexivity|].
    intros j m Hj. exists m. split; [assumption|]. cbn [map count_occ]. lia.
  - cbn [fold_left] in Hrun.
    destruct (deliver (pool, wld) ev) as [pool1 wld1] eqn:Hdel.
    destruct (deliver_stage _ _ _ _ _ _ _ Hnodup Hlow Hall Hdel)
      as (Hall1 & Hframe1 & Hprog1).
    destruct (IH _ _ _ _ Hall1 Hrun) as (Hall' & Hframe' & Hprog').
    split; [assumption|]. split.
    + intros v Hv. rewrite Hframe', Hframe1; auto.
    + intros j m Hj.
      destruct (Hprog1 j m Hj) as (m1 & Hj1 & Hle & Hstep).
      destruct (Hprog' j m1 Hj1) as (m' & Hj' & Hle').
      exists m'. split; [assumption|].
      cbn [map count_occ]. destruct (Nat.eq_dec ev.1 j) as [E|E].
      * specialize (Hstep (eq_sym E)). lia.
      * lia.
Qed.

(** *** Normalized words and the set of them *)

Lemma lower_char_idem c : JS.lower_char (JS.lower_char c) = JS.lower_char c.
Proof. destruct c as [[] [] [] [] [] [] [] []]; reflexivity. Qed.

Lemma toLowerCase_idem s : JS.toLowerCase (JS.toLowerCase s) = JS.toLowerCase s.
Proof.
  induction s as [|c s IH]; simpl; [reflexivity|].
  now rewrite lower_char_idem, IH.
Qed.

Lemma lower_char_az c : JS.is_az c = true -> JS.lower_char c = c.
Proof.
  destruct c as [[] [] [] [] [] [] [] []]; intros H;
    try reflexivity; cbv in H; discriminate H.
Qed.

Lemma replace_non_az_lower s :
  JS.toLowerCase (JS.replace_non_az s) = JS.replace_non_az s.
Proof.
  induction s as [|c s IH]; simpl; [reflexivity|].
  destruct (JS.is_az c) eqn:Hc; simpl; [|exact IH].
  now rewrite IH, lower_char_az.
Qed.

Lemma words_lower inputText w :
  In w (WordInput.words inputText) -> JS.toLowerCase w = w.
Proof.
  unfold WordInput.words. intros H.
  apply filter_In in H as [H _]. apply filter_In in H as [H _].
  apply in_map_iff in H as (p & <- & _). apply replace_non_az_lower.
Qed.

Lemma Set_from_spec xs : forall seen,
  NoDup (JS.Set_from seen xs)
  /\ forall x, In x (JS.Set_from seen xs) <-> In x xs /\ ~ In x seen.
Proof.
  induction xs as [|y xs IH]; intros seen; simpl.
  - split; [constructor|]. tauto.
  - destruct (bool_decide (y ∈ seen)) eqn:Hy.
    + apply bool_decide_eq_true in Hy. apply list_elem_of_In in Hy.
      destruct (IH seen) as [Hnd Hin]. split; [assumption|].
      intros x. rewrite Hin. split; [tauto|].
      intros [[->|H] Hn]; [contradiction|tauto].
    + apply bool_decide_eq_false in Hy. rewrite list_elem_of_In in Hy.
      destruct (IH (y :: seen)) as [Hnd Hin]. split.
      * apply NoDup_cons. split; [|assumption].
        rewrite list_elem_of_In, Hin. simpl. tauto.
      * intros x. simpl. rewrite Hin. simpl.
        destruct (decide (y = x)) as [->|Hne]; tauto.
Qed.

Lemma spread_Set_NoDup xs : NoDup (JS.spread_Set xs).
Proof. apply Set_from_spec. Qed.

Lemma spread_Set_In xs x : In x (JS.spread_Set xs) <-> In x xs.
Proof.
  unfold JS.spread_Set. rewrite (proj2 (Set_from_spec xs [])). simpl. tauto.
Qed.

Lemma uniqueWords_lower ws :
  Forall (fun w => JS.toLowerCase w = w)
         (JS.spread_Set (map JS.toLowerCase ws)).
Proof.
  apply Forall_forall. intros w Hw. apply list_elem_of_In in Hw.
  apply spread_Set_In, in_map_iff in Hw as (x & <- & _).
  apply toLowerCase_idem.
Qed.

(** *** Joining and separating *)

Lemma values_resolved {A} (pool : list (Promise A)) vs :
  values pool = Some vs -> pool = map Async.Resolved vs.
Proof.
  revert vs. induction pool as [|m pool IH]; intros vs; simpl.
  - now intros [= <-].
  - destruct m as [a|e|q k]; try discriminate.
    destruct (values pool) as [vs'|]; [|discriminate].
    intros [= <-]. simpl. now rewrite (IH vs').
Qed.

Lemma first_rejected_In {A} (pool : list (Promise A)) e :
  first_rejected pool = Some e -> In (Async.Rejected e) pool.
Proof.
  induction pool as [|m pool IH]; simpl; [discriminate|].
  destruct m as [a|e'|q k]; try (intros H; right; auto; fail).
  intros [= ->]. now left.
Qed.

Lemma values_settled {A} (pool : list (Promise A)) :
  Forall (fun m => exists a, m = Async.Resolved a) pool ->
  exists vs, values pool = Some vs.
Proof.
  induction 1 as [|m pool [a ->] _ [vs IH]]; simpl; [eauto|].
  rewrite IH. eauto.
Qed.

Lemma separate_fold results : forall acc,
  fold_left separate results acc
  = {| success := success acc ++ successes results;
       failed := failed acc ++ failures results |}.
Proof.
  induction results as [|o results IH]; intros [s f]; simpl.
  - now rewrite !app_nil_r.
  - rewrite IH. unfold separate. simpl.
    destruct (outcome_success o), (outcome_result o); simpl;
      now rewrite <- ?app_assoc.
Qed.

Lemma find_rows_of w rows :
  List.find (has_word w) rows = head (rows_of w rows).
Proof.
  unfold rows_of. induction rows as [|r rows IH]; simpl; [reflexivity|].
  now destruct (has_word w r).
Qed.

Lemma storedFrequency_rows_of w rows rows' :
  rows_of w rows' = rows_of w rows ->
  storedFrequency w rows' = storedFrequency w rows.
Proof. intros H. unfold storedFrequency. now rewrite !find_rows_of, H. Qed.

(** What a settled computation says about its word. *)
Lemma stage_resolved rows0 rows w o :
  stage rows0 rows w (Async.Resolved o) ->
  (o = gave_up w
   /\ (storedFrequency w rows = storedFrequency w rows0
       \/ storedFrequency w rows
          = Some (sighted (storedFrequency w rows0))))
  \/ (exists r, o = succeeded w r /\ word r = w
        /\ rows_of w rows = [r]
        /\ storedFrequency w rows
           = Some (sighted (storedFrequency w rows0))).
Proof.
  intros H. remember (Async.Resolved o) as m eqn:Hm.
  assert (Hupdate : forall ex,
    rows_of w rows0 = [ex] ->
    rows_of w rows = [assign (increment ex) ex] ->
    word ex = w
    /\ storedFrequency w rows = Some (sighted (storedFrequency w rows0))).
  { intros ex H0 Hnow. split.
    - apply (rows_of_In w rows0 ex). rewrite H0. now left.
    - unfold storedFrequency. rewrite !find_rows_of, Hnow, H0. reflexivity. }
  assert (Hinsert : forall now uuid,
    rows_of w rows0 = [] ->
    rows_of w rows = [new_row uuid now w 1] ->
    storedFrequency w rows = Some (sighted (storedFrequency w rows0))).
  { intros now uuid H0 Hnow.
    unfold storedFrequency. rewrite !find_rows_of, Hnow, H0. reflexivity. }
  destruct H as [Hsame|ex H0 Hnow|H0 Hnow|ex H0 Hnow|now uuid H0 Hnow
                |Hsame|ex H0 Hnow|now uuid H0 Hnow];
    try discriminate; injection Hm as <-.
  - right. eexists. split; [reflexivity|].
    destruct (Hupdate ex H0 Hnow) as [Hex Hf].
    split; [exact Hex|]. split; assumption.
  - right. eexists. split; [reflexivity|].
    split; [reflexivity|]. split; [assumption|]. eapply Hinsert; eassumption.
  - left. split; [reflexivity|]. left. now apply storedFrequency_rows_of.
  - left. split; [reflexivity|]. right. now apply (Hupdate ex).
  - left. split; [reflexivity|]. right. eapply Hinsert; eassumption.
Qed.

(** *** [addOrUpdateWordsConcurrently] *)

Lemma stage_start rows0 ws :
  Forall2 (stage rows0 rows0) ws (map wordPromise ws).
Proof.
  induction ws as [|w ws IH]; simpl; constructor; [|assumption].
  now apply selecting.
Qed.

Lemma batch_results words sched w0 batch w' :
  addOrUpdateWordsConcurrently words sched w0 = (Some batch, w') ->
  exists results,
    batch = {| success := successes results; failed := failures results |}
    /\ Forall2 (fun w o => stage (table w0) (table w') w (Async.Resolved o))
         (JS.spread_Set (map JS.toLowerCase words)) results
    /\ forall v, ~ In v (JS.spread_Set (map JS.toLowerCase words)) ->
         rows_of v (table w') = rows_of v (table w0).
Proof.
  unfold addOrUpdateWordsConcurrently, run.
  set (ws := JS.spread_Set (map JS.toLowerCase words)).
  destruct (fold_left deliver sched (map wordPromise ws,
                                     start (map wordPromise ws) w0))
    as [pool wld] eqn:Hrun.
  destruct (run_stage (table w0) ws (spread_Set_NoDup _)
              (uniqueWords_lower _) sched (map wordPromise ws)
              (start (map wordPromise ws) w0) pool wld
              (stage_start (table w0) ws) Hrun)
    as (Hall & Hframe & _).
  unfold Promise_all.
  destruct (first_rejected pool) as [e|] eqn:Hrej.
  { exfalso. apply first_rejected_In, list_elem_of_In in Hrej.
    apply list_elem_of_lookup in Hrej as [i Hi].
    destruct (Forall2_lookup_r _ _ _ _ _ Hall Hi) as (w & _ & Hst).
    exact (stage_not_rejected _ _ _ _ e Hst eq_refl). }
  destruct (values pool) as [results|] eqn:Hval; [|discriminate].
  intros [= <- <-]. exists results.
  split; [apply separate_fold|]. split; [|exact Hframe].
  apply values_resolved in Hval. subst pool.
  clear -Hall. revert Hall. generalize ws. clear ws.
  induction results as [|o results IH]; intros ws Hall;
    inversion Hall; subst; constructor; auto.
Qed.

Lemma separated ws results rows0 rows :
  Forall2 (fun w o => stage rows0 rows w (Async.Resolved o)) ws results ->
  Permutation (map word (successes results) ++ failures results) ws.
Proof.
  induction 1 as [|w o ws results Hst _ IH]; simpl; [constructor|].
  apply stage_resolved in Hst as [[-> _]|(r & -> & Hr & _)]; simpl.
  - unfold successes, failures in *. simpl.
    apply Permutation_sym, Permutation_cons_app, Permutation_sym, IH.
  - unfold successes, failures in *. simpl. rewrite Hr.
    now constructor.
Qed.


(** C9.  When the batch returns, the words of the records in [success]
    followed by the words in [failed] are the distinct lowercased words
    of the input, each once: every distinct lowercased input word is in
    exactly one of the two lists, and no other word is in either. *)
Theorem C9_batch_partition words sched w0 batch w' :
  addOrUpdateWordsConcurrently words sched w0 = (Some batch, w') ->
  Permutation (map word (success batch) ++ failed batch)
              (JS.spread_Set (map JS.toLowerCase words))
  /\ List.NoDup (map word (success batch) ++ failed batch)
  /\ (forall x, In x (map word (success batch)) -> In x (failed batch) -> False)
  /\ (forall x, In x (map word (success batch) ++ failed batch)
                <-> In x (map JS.toLowerCase words)).
Proof.
  intros H. apply batch_results in H as (results & -> & Hall & _).
  pose proof (separated _ _ _ _ Hall) as Hperm. simpl.
  assert (Hnd : NoDup (map word (successes results) ++ failures results)).
  { rewrite Hperm. apply spread_Set_NoDup. }
  split; [assumption|]. split; [now apply NoDup_ListNoDup|]. split.
  - intros x Hs Hf. apply NoDup_app in Hnd as (_ & Hdisj & _).
    apply (Hdisj x); now apply list_elem_of_In.
  - intros x. split; intros Hx.
    + apply spread_Set_In, list_elem_of_In. rewrite <- Hperm.
      now apply list_elem_of_In.
    + apply spread_Set_In in Hx. apply list_elem_of_In. rewrite Hperm.
      now apply list_elem_of_In.
Qed.



Lemma normalized_unique inputText w :
  In w (JS.spread_Set (map JS.toLowerCase (WordInput.words inputText)))
  <-> In w (WordInput.words inputText).
Proof.
  rewrite spread_Set_In, in_map_iff. split.
  - intros (x & <- & Hx). now rewrite (words_lower _ _ Hx).
  - intros Hw. exists w. split; [|assumption]. eapply words_lower, Hw.
Qed.

(** *** What the computations are told *)






Lemma lookup_map {A B} (f : A -> B) (l : list A) i :
  map f l !! i = option_map f (l !! i).
Proof.
  revert i. induction l as [|x l IH]; intros [|i]; simpl; auto.
Qed.


(** *** A store that works *)












(** *** The batch returns *)

Lemma first_rejected_none {A} (pool : list (Promise A)) :
  Forall (fun m => exists a, m = Async.Resolved a) pool ->
  first_rejected pool = None.
Proof. induction 1 as [|m pool [a ->] _ IH]; simpl; auto. Qed.

Lemma progress_settled {A} (m : Promise A) :
  2 <= progress m -> Async.settled m = true.
Proof. destruct m as [a|e|[] k]; simpl; intros H; auto; lia. Qed.

(** Under a schedule that serves each computation twice, the call
    returns. *)
Lemma addOrUpdateWordsConcurrently_returns words sched w0 :
  fair (length (JS.spread_Set (map JS.toLowerCase words))) sched = true ->
  exists batch w',
    addOrUpdateWordsConcurrently words sched w0 = (Some batch, w').
Proof.
  intros Hfair.
  unfold addOrUpdateWordsConcurrently, run.
  set (ws := JS.spread_Set (map JS.toLowerCase words)) in *.
  destruct (fold_left deliver sched (map wordPromise ws,
                                     start (map wordPromise ws) w0))
    as [pool wld] eqn:Hrun.
  destruct (run_stage (table w0) ws (spread_Set_NoDup _)
              (uniqueWords_lower _) sched (map wordPromise ws)
              (start (map wordPromise ws) w0) pool wld
              (stage_start (table w0) ws) Hrun)
    as (Hall & _ & Hprog).
  assert (Hres : Forall (fun m => exists a, m = Async.Resolved a) pool).
  { apply Forall_lookup. intros i m Hi.
    destruct (Forall2_lookup_r _ _ _ _ _ Hall Hi) as (w & Hw & Hst).
    assert (Hlt : i < length (map wordPromise ws)).
    { rewrite length_map. eapply lookup_lt_Some, Hw. }
    apply lookup_lt_is_Some in Hlt as [m0 Hm0].
    destruct (Hprog i m0 Hm0) as (m' & Hm' & Hle).
    rewrite Hi in Hm'. injection Hm' as <-.
    assert (Hcount : 2 <= count_occ Nat.eq_dec (map fst sched) i).
    { unfold fair in Hfair. rewrite forallb_forall in Hfair.
      apply Nat.leb_le, Hfair, in_seq.
      apply lookup_lt_Some in Hw. lia. }
    assert (Hset : Async.settled m = true)
      by (apply progress_settled; lia).
    destruct m as [a|e|q k]; [eauto| |discriminate].
    destruct (stage_not_rejected _ _ _ _ e Hst eq_refl). }
  unfold Promise_all. rewrite (first_rejected_none _ Hres).
  destruct (values_settled _ Hres) as [vs ->]. eauto.
Qed.

Lemma in_turn_count (l : Link) i : forall n a,
  a <= i < a + n ->
  2 <= count_occ Nat.eq_dec
         (map fst (flat_map (fun i => [(i, l); (i, l)]) (seq a n))) i.
Proof.
  induction n as [|n IH]; intros a Hi; [lia|].
  cbn [seq flat_map app map fst count_occ].
  destruct (Nat.eq_dec a i) as [_|Hne]; [lia|].
  apply IH. lia.
Qed.

Lemma in_turn_fair l n : fair n (in_turn l n) = true.
Proof.
  unfold fair, in_turn. apply forallb_forall. intros i Hi.
  apply in_seq in Hi. apply Nat.leb_le, in_turn_count. lia.
Qed.

(** Served one after the other, the computations of a call all settle:
    for every input there are schedules under which the call returns. *)
Lemma addOrUpdateWordsConcurrently_in_turn words l w0 :
  exists batch w',
    addOrUpdateWordsConcurrently words
      (in_turn l (length (JS.spread_Set (map JS.toLowerCase words)))) w0
    = (Some batch, w').
Proof. apply addOrUpdateWordsConcurrently_returns, in_turn_fair. Qed.

(** *** The submit handler *)

Lemma lower_char_space c : JS.is_space (JS.lower_char c) = JS.is_space c.
Proof. destruct c as [[] [] [] [] [] [] [] []]; reflexivity. Qed.

Lemma toLowerCase_blank s :
  forallb JS.is_space (list_ascii_of_string (JS.toLowerCase s))
  = forallb JS.is_space (list_ascii_of_string s).
Proof.
  induction s as [|c s IH]; simpl; [reflexivity|].
  now rewrite lower_char_space, IH.
Qed.

Lemma split_ws_blank s :
  forallb JS.is_space (list_ascii_of_string s) = true ->
  forall cur in_sep,
    Forall (fun piece => piece = cur \/ piece = "")
           (JS.split_ws_from cur in_sep s).
Proof.
  induction s as [|c s IH]; simpl; intros H cur in_sep.
  - constructor; auto.
  - apply andb_true_iff in H as [Hc H]. rewrite Hc.
    destruct in_sep; [now apply IH|].
    constructor; [now left|].
    eapply Forall_impl; [apply (IH H "" true)|].
    simpl. intros piece [->| ->]; now right.
Qed.

(** A text that [trim] empties has no words: the first [return] of
    [processWords] loses none. *)
Lemma blank_no_words inputText :
  JS.truthy (JS.trim inputText) = false -> WordInput.words inputText = [].
Proof.
  intros H. rewrite truthy_nonempty, negb_false_iff, trim_empty in H.
  rewrite <- toLowerCase_blank in H.
  pose proof (split_ws_blank _ H "" false) as Hpieces.
  unfold WordInput.words. fold (JS.split_ws (JS.toLowerCase inputText)) in Hpieces.
  assert (Hnone : List.filter (fun word => (0 <? String.length word)%nat)
                    (JS.split_ws (JS.toLowerCase inputText)) = []).
  { induction Hpieces as [|piece pieces Hp _ IH]; [reflexivity|].
    simpl. destruct Hp as [->| ->]; exact IH. }
  now rewrite Hnone.
Qed.

(** With words in the text, [processWords] hands them to the batch and
    shows what it gives back. *)
Lemma processWords_batch st sched w0 :
  WordInput.words (WordInput.inputText st) <> [] ->
  WordInput.processWords st sched w0
  = match addOrUpdateWordsConcurrently
            (WordInput.words (WordInput.inputText st)) sched w0 with
    | (Some batch, w') =>
        ({| WordInput.inputText := "";
            WordInput.isProcessing := false;
            WordInput.processedWords := map word (success batch);
            WordInput.failedWords := failed batch;
            WordInput.wordsAdded := S (WordInput.wordsAdded st) |}, w')
    | (None, w') =>
        ({| WordInput.inputText := WordInput.inputText st;
            WordInput.isProcessing := true;
            WordInput.processedWords := [];
            WordInput.failedWords := [];
            WordInput.wordsAdded := WordInput.wordsAdded st |}, w')
    end.
Proof.
  intros Hwords. unfold WordInput.processWords.
  destruct (JS.truthy (JS.trim (WordInput.inputText st))) eqn:Ht.
  2:{ destruct Hwords. now apply blank_no_words. }
  cbn [negb WordInput.inputText WordInput.setFailedWords
         WordInput.setProcessedWords WordInput.setIsProcessing].
  destruct (WordInput.words (WordInput.inputText st)) as [|w ws] eqn:Hw;
    [now destruct Hwords|].
  cbn [length Nat.eqb].
  destruct (addOrUpdateWordsConcurrently (w :: ws) sched w0) as [[batch|] w'];
    reflexivity.
Qed.

(** C10.  When the text has no valid word, [processWords] returns
    with the store as it was: the table is the same and no request has
    been sent, whatever the store would have answered; [onWordsAdded]
    is not called, and no word is shown as processed or as failed that
    was not shown before. *)
Theorem C10_no_words_no_request st sched w0 :
  WordInput.words (WordInput.inputText st) = [] ->
  exists st',
    WordInput.processWords st sched w0 = (st', w0)
    /\ WordInput.wordsAdded st' = WordInput.wordsAdded st
    /\ WordInput.inputText st' = WordInput.inputText st
    /\ (st' = st
        \/ (WordInput.processedWords st' = []
            /\ WordInput.failedWords st' = []
            /\ WordInput.isProcessing st' = false)).
Proof.
  intros Hnone. unfold WordInput.processWords.
  destruct (negb (JS.truthy (JS.trim (WordInput.inputText st)))).
  - exists st. repeat split; auto.
  - cbn [WordInput.inputText WordInput.setFailedWords
           WordInput.setProcessedWords WordInput.setIsProcessing].
    rewrite Hnone. cbn [length Nat.eqb].
    eexists. split; [reflexivity|]. simpl. repeat split; auto.
Qed.

(** *** [updateWordDetails] *)

Lemma filter_has_id_map i (f : Word -> Word) rows :
  (forall r, id (f r) = id r) ->
  List.filter (has_id i) (map f rows) = map f (List.filter (has_id i) rows).
Proof.
  intros Hf. induction rows as [|r rows IH]; simpl; [reflexivity|].
  assert (E : has_id i (f r) = has_id i r)
    by (unfold has_id; now rewrite Hf).
  rewrite E. destruct (has_id i r); simpl; now rewrite IH.
Qed.

(** C2, as the code has it.  A call of [updateWordDetails] settles on
    a record or on [null].  When exactly one row has the identifier and
    the request reaches the table, that row is replaced by the record
    [r] that has: each of the four detail fields that the payload carries
    set to the payload's value; each detail field that the payload leaves
    out as the row had it; the last-fetch time set to the caller's clock;
    identifier, word, frequency and creation time unchanged.  The other
    rows are untouched, and the call gives [r], or [null] when the reply
    does not arrive.  When the request does not reach the table, or it
    is not exactly one row that has the identifier (no row has it), the
    call gives [null] and the table is as it was. *)
Theorem C2_details_assigned wordId details clock link rows :
  exists result rows',
    run_alone [link] (updateWordDetails wordId details clock) rows
    = (Async.Resolved result, rows')
    /\ (forall old,
          List.filter (has_id wordId) rows = [old] ->
          Enrichment.served link = true ->
          exists r,
            result = (if Enrichment.answered link then Some r else None)
            /\ List.filter (has_id wordId) rows' = [r]
            /\ rows' = map (fun x => if has_id wordId x then r else x) rows
            /\ pronunciation r
               = match details_pronunciation details with
                 | Some v => Some v | None => pronunciation old end
            /\ pronunciations r
               = match details_pronunciations details with
                 | Some v => Some v | None => pronunciations old end
            /\ definitions r
               = match details_definitions details with
                 | Some v => Some v | None => definitions old end
            /\ examples r
               = match details_examples details with
                 | Some v => Some v | None => examples old end
            /\ last_fetched_at r = Some clock
            /\ id r = id old /\ word r = word old
            /\ frequency r = frequency old
            /\ created_at r = created_at old)
    /\ (Enrichment.served link = false
        \/ length (List.filter (has_id wordId) rows) <> 1 ->
        result = None /\ rows' = rows).
Proof.
  unfold updateWordDetails. cbn [Async.await Async.bind Async.try_catch
                                   run_alone].
  set (body := {| set_frequency := None;
                  set_pronunciation := details_pronunciation details;
                  set_pronunciations := details_pronunciations details;
                  set_definitions := details_definitions details;
                  set_examples := details_examples details;
                  set_last_fetched_at := Some clock |}).
  assert (Hrow : forall old,
    List.filter (has_id wordId) rows = [old] ->
    let rows' :=
      map (fun r => if has_id wordId r then assign body r else r) rows in
    List.filter (has_id wordId) rows' = [assign body old]
    /\ rows' = map (fun x => if has_id wordId x then assign body old else x)
                   rows).
  { intros old Hid rows'.
    assert (Hold : has_id wordId old = true).
    { assert (H : In old (List.filter (has_id wordId) rows))
        by (rewrite Hid; now left).
      now apply filter_In in H. }
    split.
    - unfold rows'. rewrite filter_has_id_map, Hid.
      + simpl. now rewrite Hold.
      + intros r. now destruct (has_id wordId r).
    - apply map_ext_in. intros x Hx.
      destruct (has_id wordId x) eqn:Hxi; [|reflexivity].
      assert (H : In x (List.filter (has_id wordId) rows))
        by (apply filter_In; auto).
      rewrite Hid in H. destruct H as [<-|[]]. reflexivity. }
  destruct link as [|now uuid|now uuid];
    cbn [serve answer Enrichment.served Enrichment.answered].
  - exists None, rows. simpl. split; [reflexivity|].
    split; [intros old _ H; discriminate H|auto].
  - destruct (List.filter (has_id wordId) rows) as [|old [|r' rs]] eqn:Hid.
    1,3: exists None, rows; simpl; split; [reflexivity|];
         split; [intros old' H; discriminate H|auto].
    destruct (Hrow old eq_refl) as [H1 H2].
    eexists None, _. split; [reflexivity|]. split.
    + intros old' [= <-] _. exists (assign body old).
      split; [reflexivity|]. split; [exact H1|]. split; [exact H2|].
      simpl. repeat split; reflexivity.
    + intros [H|H]; [discriminate H|now destruct H].
  - destruct (List.filter (has_id wordId) rows) as [|old [|r' rs]] eqn:Hid.
    1,3: exists None, rows; simpl; split; [reflexivity|];
         split; [intros old' H; discriminate H|auto].
    destruct (Hrow old eq_refl) as [H1 H2].
    eexists (Some (assign body old)), _. split; [reflexivity|]. split.
    + intros old' [= <-] _. exists (assign body old).
      split; [reflexivity|]. split; [exact H1|]. split; [exact H2|].
      simpl. repeat split; reflexivity.
    + intros [H|H]; [discriminate H|now destruct H].
Qed.

End Store.

(** ** The properties at concrete stores and answers *)

Section Concrete.
Import Supabase Stages.



(** The payload carries examples only; the record keeps the
    pronunciation, the pronunciations and the definitions it had. *)
Lemma C2_counterexample :
  details_pronunciation Examples.examplesOnly = None
  /\ details_definitions Examples.examplesOnly = None
  /\ exists r rows',
       run_alone [Up 5000%Z "unused"]
         (updateWordDetails "id-cat" Examples.examplesOnly 9000%Z)
         [Examples.cat; Examples.dog]
       = (Async.Resolved (Some r), rows')
       /\ List.filter (has_id "id-cat") rows' = [r]
       /\ pronunciation r = Some "/kat/"
       /\ pronunciation r <> None
       /\ definitions r = definitions Examples.cat
       /\ definitions r <> None.
Proof.
  split; [reflexivity|]. split; [reflexivity|].
  eexists. eexists. split; [reflexivity|].
  repeat split; try reflexivity; discriminate.
Qed.

(** The payload has the four fields, the row is there and the table
    answers: the record returned has them, and a call on an identifier
    that no row has gives [null] and changes nothing. *)
Lemma C2_witness :
  (exists r rows',
     run_alone [Up 5000%Z "unused"]
       (updateWordDetails "id-dog" Cases.full_payload 9000%Z)
       [Examples.cat; Examples.dog]
     = (Async.Resolved (Some r), rows')
     /\ examples r = details_examples Cases.full_payload
     /\ last_fetched_at r = Some 9000%Z
     /\ frequency r = 7%Z)
  /\ run_alone [Up 5000%Z "unused"]
       (updateWordDetails "id-none" Examples.examplesOnly 9000%Z)
       [Examples.cat; Examples.dog]
     = (Async.Resolved None, [Examples.cat; Examples.dog]).
Proof.
  split.
  - destruct (C2_details_assigned "id-dog" Cases.full_payload 9000%Z
                (Up 5000%Z "unused") [Examples.cat; Examples.dog])
      as (result & rows' & Hrun & Hone & _).
    destruct (Hone Examples.dog eq_refl eq_refl)
      as (r & -> & _ & _ & _ & _ & _ & Hex & Hlast & _ & _ & Hfreq & _).
    exists r, rows'. split; [exact Hrun|]. split; [exact Hex|].
    split; [exact Hlast|exact Hfreq].
  - destruct (C2_details_assigned "id-none" Examples.examplesOnly 9000%Z
                (Up 5000%Z "unused") [Examples.cat; Examples.dog])
      as (result & rows' & Hrun & _ & Hnone).
    destruct Hnone as [-> ->]; [right; vm_compute; discriminate|].
    exact Hrun.
Defined.

(** The table writes the increment of "cat" and the reply does not
    arrive: the word is reported as failed, and it has been counted. *)
Example reply_lost :
  let r := addOrUpdateWordsConcurrently (WordInput.words "cat")
             [(0, Up 3000%Z "id-a"); (0, Lost 3001%Z "id-b")]
             Examples.pets in
  r.1 = Some {| success := []; failed := ["cat"] |}
  /\ storedFrequency "cat" (table r.2) = Some 4%Z.
Proof. vm_compute. split; reflexivity. Qed.

(** The two words of the submission are served in turn about; the
    outcome is the same when one is served after the other. *)
Example order_of_service :
  (addOrUpdateWordsConcurrently
     (WordInput.words "cat cat Cat cat, cat owl")
     [(0, Up 3000%Z "id-a"); (0, Up 3003%Z "id-c");
      (1, Up 3001%Z "id-b"); (1, Up 3002%Z "id-owl")] Examples.pets).1
  = Examples.submitted.1.
Proof. vm_compute. reflexivity. Qed.

Lemma C9_witness :
  List.NoDup (map word (success Examples.batch) ++ failed Examples.batch)
  /\ (forall x, In x (map word (success Examples.batch)
                      ++ failed Examples.batch)
                <-> In x (map JS.toLowerCase
                            (WordInput.words "cat cat Cat cat, cat owl"))).
Proof.
  assert (Hrun : addOrUpdateWordsConcurrently
                   (WordInput.words "cat cat Cat cat, cat owl")
                   Examples.schedule Examples.pets
                 = (Some Examples.batch, Examples.submitted.2))
    by (vm_compute; reflexivity).
  destruct (C9_batch_partition _ _ _ _ _ Hrun) as (_ & Hnd & _ & Hin).
  split; assumption.
Defined.

Lemma C10_witness :
  exists st',
    WordInput.processWords (Examples.typed "a 1 2 ,,, !") Examples.schedule
      Examples.pets = (st', Examples.pets)
    /\ WordInput.wordsAdded st' = 0.
Proof.
  assert (Hnone : WordInput.words
                    (WordInput.inputText (Examples.typed "a 1 2 ,,, !")) = [])
    by (vm_compute; reflexivity).
  destruct (C10_no_words_no_request (Examples.typed "a 1 2 ,,, !")
              Examples.schedule Examples.pets Hnone)
    as (st' & Hrun & Hadded & _).
  exists st'. split; assumption.
Defined.

End Concrete.

Section ConcreteFetch.
Import DictionaryApi.

(** A status 500 gives the value that a status 404 gives, and so does a
    request that does not get through. *)
Lemma C3_counterexample :
  fetchWordDetails "cat" (Response 404 JsonNull) = Return None
  /\ fetchWordDetails "cat" (Response 500 JsonNull) = Return None
  /\ fetchWordDetails "cat" NetworkFailure = Return None.
Proof. repeat split. Qed.

Lemma C3_witness :
  (exists details,
      fetchWordDetails "set" Examples.answered = Return (Some details))
  /\ fetchWordDetails "set" (Response 500 Unparseable)
     = fetchWordDetails "set" (Response 404 Unparseable).
Proof.
  destruct (C3_fetch_outcomes "set") as (Hok & _ & Hbad & _).
  split.
  - apply (Hok 200 Examples.fourByFour []
             (default [] (meanings Examples.fourByFour)));
      vm_compute; reflexivity.
  - apply (Hbad 500 Unparseable). vm_compute; reflexivity.
Defined.

Lemma C5_witness :
  exists status wordData rest ms,
    Examples.answered = Response status (JsonArray (wordData :: rest))
    /\ meanings wordData = Some ms
    /\ definitions Examples.details = take 5 (concat (map Spec.group ms))
    /\ Forall (fun m =>
                 Spec.group m
                 = map (fun s => {| partOfSpeech := meaning_partOfSpeech m;
                                    definition := sense_definition s |})
                       (take 3 (meaning_definitions m))
                 /\ length (Spec.group m) <= 3) ms
    /\ length (definitions Examples.details) <= 5.
Proof.
  apply (C5_definitions_capped "set" Examples.answered Examples.details).
  vm_compute; reflexivity.
Defined.

(** Four meanings of four definitions each: three of the first group
    and two of the second are kept. *)
Example fourByFour_definitions :
  map (fun d => (partOfSpeech d, definition d))
      (definitions Examples.details)
  = [("noun", "one"); ("noun", "two"); ("noun", "three");
     ("verb", "one"); ("verb", "two")].
Proof. vm_compute. reflexivity. Qed.

Lemma C6_witness :
  pronunciation Examples.details = "/sEt/"
  /\ pronunciations Examples.details
     = [{| text := "/sEt/"; audio := Some "set-uk.mp3" |}].
Proof.
  assert (Hrun : fetchWordDetails "set" Examples.answered
                 = Return (Some Examples.details))
    by (vm_compute; reflexivity).
  destruct (C6_pronunciation_fallback "set" Examples.answered
              Examples.details Hrun)
    as (status & wordData & rest & Heq & H).
  injection Heq as <- <- <-. vm_compute in H.
  destruct H as (H1 & _ & H2). split; [exact H1|exact H2].
Defined.

(** One millisecond after the last fetch, against the double nearest
    to 1/3600000, which is below it: the elapsed hours exceed the
    maximum age and the check is false. *)
Lemma C7_counterexample :
  Doubles.double Cases.justBelow = true
  /\ (3600000 * Doubles.scaled Cases.justBelow < (1 - 0) * 2 ^ 1074)%Z
  /\ shouldUpdateWordDetails (Some 0%Z) (Some Cases.justBelow) 1%Z = false.
Proof. vm_compute. repeat split. Qed.

Lemma C7_witness :
  shouldUpdateWordDetails (Some 0%Z) (Some (Number.of_Z 168)) 608400000%Z
  = true.
Proof.
  destruct C7_staleness as (_ & _ & _ & _ & _ & _ & Hold).
  apply (Hold 608400000%Z); unfold Doubles.timeValue; lia.
Defined.

Lemma C8_witness :
  fetchWordDetails "cat" (Response 503 Unparseable) = Return None
  /\ fetchWordDetails "cat"
       (Response 200
          (JsonArray [{| word := "cat"; phonetic := None;
                         phonetics := None; meanings := None |}]))
     = Return None.
Proof.
  destruct (C8_fetch_never_throws "cat") as (_ & _ & Hbad & _ & _ & _ & Hno).
  split.
  - apply (Hbad 503 Unparseable). vm_compute; reflexivity.
  - apply (Hno 200 _ []). reflexivity.
Defined.

End ConcreteFetch.

(** * More properties of the code *)

(** ** The tokenizer, further *)

Section TokenizerMore.

Lemma replace_non_az_letters s : Words.letters (JS.replace_non_az s) = true.
Proof.
  unfold Words.letters. induction s as [|c s IH]; simpl; [reflexivity|].
  destruct (JS.is_az c) eqn:Hc; simpl; [|exact IH]. now rewrite Hc.
Qed.

(** X1.  Every word that [processWords] extracts is made of lowercase
    Latin letters only and has at least two of them. *)
Theorem X1_words_are_normalized inputText :
  Forall (fun w => Words.letters w = true /\ 2 <= String.length w)
         (WordInput.words inputText).
Proof.
  apply Forall_forall. intros w Hw. apply list_elem_of_In in Hw.
  unfold WordInput.words in Hw.
  apply filter_In in Hw as [Hw Hlen]. apply filter_In in Hw as [Hw _].
  apply in_map_iff in Hw as (p & <- & _).
  split; [apply replace_non_az_letters|]. now apply Nat.leb_le.
Qed.

Lemma az_not_space c : JS.is_az c = true -> JS.is_space c = false.
Proof.
  destruct c as [[] [] [] [] [] [] [] []]; intros H;
    try reflexivity; cbv in H; discriminate H.
Qed.

Lemma letters_lower w : Words.letters w = true -> JS.toLowerCase w = w.
Proof.
  unfold Words.letters. induction w as [|c w IH]; simpl; [reflexivity|].
  intros H. apply andb_true_iff in H as [Hc H].
  now rewrite lower_char_az, IH.
Qed.

Lemma letters_kept w : Words.letters w = true -> JS.replace_non_az w = w.
Proof.
  unfold Words.letters. induction w as [|c w IH]; simpl; [reflexivity|].
  intros H. apply andb_true_iff in H as [Hc H].
  now rewrite Hc, IH.
Qed.

Lemma letters_app u v :
  Words.letters (u ++ v)%string = Words.letters u && Words.letters v.
Proof.
  unfold Words.letters. induction u as [|c u IH]; simpl; [reflexivity|].
  now rewrite IH, andb_assoc.
Qed.

Lemma toLowerCase_app u v :
  JS.toLowerCase (u ++ v)%string
  = (JS.toLowerCase u ++ JS.toLowerCase v)%string.
Proof. induction u as [|c u IH]; simpl; [reflexivity|]. now rewrite IH. Qed.

Lemma append_append (u v w : string) :
  ((u ++ v) ++ w = u ++ (v ++ w))%string.
Proof.
  induction u as [|c u IH]; [reflexivity|].
  change (String c ((u ++ v) ++ w) = String c (u ++ (v ++ w)))%string.
  f_equal. exact IH.
Qed.

Lemma append_empty (u : string) : (u ++ "")%string = u.
Proof.
  induction u as [|c u IH]; [reflexivity|].
  change (String c (u ++ "") = String c u)%string. f_equal. exact IH.
Qed.

(** Reading a word: its letters join the piece being read. *)
Lemma split_ws_word w : forall cur in_sep rest,
  Words.letters w = true -> w <> "" ->
  JS.split_ws_from cur in_sep (w ++ rest)%string
  = JS.split_ws_from (cur ++ w)%string false rest.
Proof.
  unfold Words.letters.
  induction w as [|c w IH]; intros cur in_sep rest Hw Hne;
    [now destruct Hne|].
  simpl in Hw. apply andb_true_iff in Hw as [Hc Hw].
  simpl. rewrite (az_not_space c Hc).
  destruct w as [|d w].
  - simpl. reflexivity.
  - rewrite IH by (auto; discriminate).
    now rewrite append_append.
Qed.

Lemma split_ws_join ws : forall in_sep,
  ws <> [] ->
  Forall (fun w => Words.letters w = true /\ 2 <= String.length w) ws ->
  JS.split_ws_from "" in_sep (Words.join ws) = ws.
Proof.
  unfold Words.join.
  induction ws as [|w ws IH]; intros in_sep Hne Hall; [now destruct Hne|].
  apply Forall_cons in Hall as [[Hw Hlen] Hall].
  assert (Hwne : w <> "") by (destruct w; [simpl in Hlen; lia|discriminate]).
  destruct ws as [|w' ws].
  - simpl. rewrite <- (append_empty w) at 1.
    rewrite split_ws_word by assumption. reflexivity.
  - change (String.concat " " (w :: w' :: ws))
      with (w ++ " " ++ String.concat " " (w' :: ws))%string.
    rewrite split_ws_word by assumption.
    change (String.append " " ?x) with (String " "%char x).
    cbn [JS.split_ws_from]. change (JS.is_space " "%char) with true.
    cbn iota. f_equal. apply IH; [discriminate|assumption].
Qed.

Lemma join_lower ws :
  Forall (fun w => Words.letters w = true /\ 2 <= String.length w) ws ->
  JS.toLowerCase (Words.join ws) = Words.join ws.
Proof.
  unfold Words.join. induction 1 as [|w ws [Hw _] Hall IH]; [reflexivity|].
  destruct ws as [|w' ws].
  - now apply letters_lower.
  - change (String.concat " " (w :: w' :: ws))
      with (w ++ " " ++ String.concat " " (w' :: ws))%string.
    rewrite !toLowerCase_app, letters_lower by assumption.
    now rewrite IH.
Qed.

Lemma words_of_join ws :
  Forall (fun w => Words.letters w = true /\ 2 <= String.length w) ws ->
  WordInput.words (Words.join ws) = ws.
Proof.
  intros Hall. destruct ws as [|w0 ws0] eqn:E; [reflexivity|].
  rewrite <- E in *. assert (Hne : ws <> []) by (subst; discriminate).
  clear E. unfold WordInput.words. rewrite join_lower by assumption.
  unfold JS.split_ws. rewrite split_ws_join by assumption.
  assert (H1 : List.filter (fun word => (0 <? String.length word)%nat) ws = ws).
  { clear Hne. induction Hall as [|w ws [_ Hlen] _ IH]; [reflexivity|].
    simpl. destruct w; [simpl in Hlen; lia|]. simpl. now rewrite IH. }
  assert (H2 : map JS.replace_non_az ws = ws).
  { clear Hne H1. induction Hall as [|w ws [Hw _] _ IH]; [reflexivity|].
    simpl. now rewrite letters_kept, IH. }
  assert (H3 : List.filter (fun word => (2 <=? String.length word)%nat) ws = ws).
  { clear Hne H1 H2. induction Hall as [|w ws [_ Hlen] _ IH]; [reflexivity|].
    destruct w as [|a [|b w]]; simpl in Hlen; try lia.
    simpl. f_equal. exact IH. }
  now rewrite H1, H2, H1, H3.
Qed.

(** X2.  The words of a text, written one after the other with a space
    between them, are read back as the same words: extraction is
    idempotent. *)
Theorem X2_words_read_back inputText :
  WordInput.words (Words.join (WordInput.words inputText))
  = WordInput.words inputText.
Proof.
  apply words_of_join, Forall_forall. intros w Hw.
  apply list_elem_of_In in Hw. unfold WordInput.words in Hw.
  apply filter_In in Hw as [Hw Hlen]. apply filter_In in Hw as [Hw _].
  apply in_map_iff in Hw as (p & <- & _).
  split; [apply replace_non_az_letters|]. now apply Nat.leb_le.
Qed.

(** X3.  A text that [trim] leaves empty has no word: the first guard of
    [processWords] never drops a word that the tokenizer would find. *)
Theorem X3_blank_text_has_no_words inputText :
  JS.trim inputText = "" -> WordInput.words inputText = [].
Proof.
  intros H. apply blank_no_words. now rewrite H.
Qed.

End TokenizerMore.

(** ** The batch, further *)

Section BatchMore.
Import Supabase Stages Requests.

Lemma Set_from_fixed xs : forall seen,
  NoDup xs -> (forall x, In x xs -> ~ In x seen) ->
  JS.Set_from seen xs = xs.
Proof.
  induction xs as [|x xs IH]; intros seen Hnd Hseen; simpl; [reflexivity|].
  apply NoDup_cons in Hnd as [Hx Hnd].
  rewrite bool_decide_eq_false_2.
  - f_equal. apply IH; [assumption|].
    intros y Hy [<-|Hin].
    + apply Hx. now apply list_elem_of_In.
    + apply (Hseen y); [now right|assumption].
  - rewrite list_elem_of_In. apply Hseen. now left.
Qed.

Lemma uniqueWords_fixed words :
  JS.spread_Set (map JS.toLowerCase (JS.spread_Set (map JS.toLowerCase words)))
  = JS.spread_Set (map JS.toLowerCase words).
Proof.
  set (ws := JS.spread_Set (map JS.toLowerCase words)).
  assert (Hmap : map JS.toLowerCase ws = ws).
  { rewrite <- (map_id ws) at 2. apply map_ext_in. intros w Hw.
    pose proof (uniqueWords_lower words) as Hlow.
    rewrite Forall_forall in Hlow. apply Hlow. now apply list_elem_of_In. }
  rewrite Hmap. unfold JS.spread_Set. apply Set_from_fixed.
  - apply spread_Set_NoDup.
  - intros x _ [].
Qed.

Lemma pool_not_rejected rows0 rows ws (pool : list (Promise Outcome)) :
  Forall2 (stage rows0 rows) ws pool -> first_rejected pool = None.
Proof.
  induction 1 as [|w m ws pool Hst _ IH]; simpl; [reflexivity|].
  destruct m as [a|e|q k]; try exact IH.
  destruct (stage_not_rejected _ _ _ _ e Hst eq_refl).
Qed.

(** The stages the computations of a call are in, whatever the
    schedule. *)
Lemma run_stages words sched w0 pool w' :
  run sched (map wordPromise (JS.spread_Set (map JS.toLowerCase words))) w0
  = (pool, w') ->
  Forall2 (stage (table w0) (table w'))
          (JS.spread_Set (map JS.toLowerCase words)) pool
  /\ (forall v, ~ In v (JS.spread_Set (map JS.toLowerCase words)) ->
        rows_of v (table w') = rows_of v (table w0)).
Proof.
  unfold run. intros Hrun.
  set (ws := JS.spread_Set (map JS.toLowerCase words)) in *.
  destruct (run_stage (table w0) ws (spread_Set_NoDup _)
              (uniqueWords_lower words) sched (map wordPromise ws)
              (start (map wordPromise ws) w0) pool w'
              (stage_start (table w0) ws) Hrun) as (Hall & Hframe & _).
  split; assumption.
Qed.

(** X4.  The batch sees its input through the distinct lowercased words
    only: on a list of words it does to the store, and returns, what it
    does on that list lowercased and without repeats. *)
Theorem X4_batch_collapses_case_and_repeats words sched w0 :
  addOrUpdateWordsConcurrently words sched w0
  = addOrUpdateWordsConcurrently
      (JS.spread_Set (map JS.toLowerCase words)) sched w0.
Proof.
  unfold addOrUpdateWordsConcurrently. rewrite uniqueWords_fixed.
  destruct (run sched
              (map wordPromise (JS.spread_Set (map JS.toLowerCase words))) w0)
    as [pool w'] eqn:Hrun.
  apply run_stages in Hrun as [Hall _].
  unfold Promise_all. rewrite (pool_not_rejected _ _ _ _ Hall).
  now destruct (values pool).
Qed.

(** X5.  The batch returns once the table has served each of its
    computations twice, in whatever order and with whatever outcome. *)
Theorem X5_batch_returns words sched w0 :
  fair (length (JS.spread_Set (map JS.toLowerCase words))) sched = true ->
  exists batch w',
    addOrUpdateWordsConcurrently words sched w0 = (Some batch, w').
Proof. apply addOrUpdateWordsConcurrently_returns. Qed.

(** *** The requests of a call *)

Lemma stage_write rows0 rows w m q k :
  JS.toLowerCase w = w ->
  stage rows0 rows w m -> m = Async.Pending q k -> progress m = 1 ->
  History.write_of rows0 w q.
Proof.
  intros Hlow Hst Hm Hp.
  destruct Hst as [Hsame|ex H0 Hnow|H0 Hnow|ex H0 Hnow|now uuid H0 Hnow
                  |Hsame|ex H0 Hnow|now uuid H0 Hnow];
    try discriminate.
  - rewrite writing_update in Hm. injection Hm as <- <-.
    right. exists ex. auto.
  - rewrite writing_insert, Hlow in Hm. injection Hm as <- <-. now left.
Qed.

Lemma asked_write rows0 w m made q :
  History.asked rows0 w m made -> made = Some q -> History.write_of rows0 w q.
Proof.
  intros H ->. destruct m as [o|e|[v|body i|v f] k]; cbn in H;
    try (now apply H); try discriminate H.
  - destruct H as [[= <-] H]. exact H.
  - destruct H as [[= <-] H]. exact H.
Qed.

Lemma flat_insert (writes : list (option Request)) j q :
  writes !! j = Some None ->
  Permutation (flat_map option_list (<[j := Some q]> writes))
              (q :: flat_map option_list writes).
Proof.
  revert j. induction writes as [|made writes IH]; intros [|j] Hj;
    try discriminate Hj.
  - injection Hj as ->. reflexivity.
  - cbn [flat_map]. change (<[S j:=Some q]> (made :: writes))
      with (made :: <[j:=Some q]> writes).
    cbn [flat_map]. rewrite (IH j Hj). symmetry. apply Permutation_middle.
Qed.

Lemma deliver_asked rows0 ws pool wld ev pool' wld' base writes :
  NoDup ws ->
  Forall (fun w => JS.toLowerCase w = w) ws ->
  Forall2 (stage rows0 (table wld)) ws pool ->
  deliver (pool, wld) ev = (pool', wld') ->
  length writes = length pool ->
  (forall i w m made,
     ws !! i = Some w -> pool !! i = Some m -> writes !! i = Some made ->
     History.asked rows0 w m made) ->
  Permutation (issued wld) (base ++ flat_map option_list writes) ->
  exists writes',
    length writes' = length pool'
    /\ (forall i w m made,
          ws !! i = Some w -> pool' !! i = Some m ->
          writes' !! i = Some made ->
          History.asked rows0 w m made)
    /\ Permutation (issued wld') (base ++ flat_map option_list writes').
Proof.
  intros Hnodup Hlow Hall Hdel Hlen Hasked Hperm. destruct ev as [j l].
  unfold deliver in Hdel.
  destruct (pool !! j) as [[a|e|q k]|] eqn:Hj;
    try (injection Hdel as <- <-; exists writes; auto; fail).
  destruct (serve l q (table wld)) as [reply rows'] eqn:Hserve.
  injection Hdel as <- <-. cbn [issued].
  destruct (Forall2_lookup_r _ _ _ _ _ Hall Hj) as (w & Hw & Hst).
  assert (Hwlow : JS.toLowerCase w = w).
  { rewrite Forall_forall in Hlow. apply Hlow.
    eapply list_elem_of_lookup_2; eassumption. }
  destruct (stage_step _ _ _ _ l _ _ _ _ Hwlow Hst eq_refl Hserve)
    as (Hst' & _ & Hprog).
  assert (Hlt : j < length writes)
    by (rewrite Hlen; eapply lookup_lt_Some; eassumption).
  destruct (lookup_lt_is_Some_2 writes j Hlt) as [made Hmade].
  pose proof (Hasked j w _ made Hw Hj Hmade) as Hold.
  destruct (k reply) as [o|e|q' k'] eqn:Hk.
  - exists writes. rewrite length_insert. split; [assumption|].
    split; [|now rewrite app_nil_r].
    intros i v m made' Hv Hm Hmade'.
    destruct (decide (i = j)) as [->|Hne].
    + rewrite list_lookup_insert_eq in Hm
        by (eapply lookup_lt_Some; eassumption).
      injection Hm as <-. rewrite Hw in Hv. injection Hv as <-.
      rewrite Hmade in Hmade'. injection Hmade' as <-.
      cbn. intros q0 Hq0. eapply asked_write; eassumption.
    + rewrite list_lookup_insert_ne in Hm by congruence. eauto.
  - exfalso. exact (stage_not_rejected _ _ _ _ e Hst' eq_refl).
  - assert (Hq : exists v, q = SelectEqWord v).
    { destruct q as [v| |]; [eauto|simpl in Hprog..];
        destruct q'; simpl in Hprog; lia. }
    destruct Hq as [v ->]. cbn in Hold. subst made.
    assert (Hp' : progress (Async.Pending q' k') = 1)
      by (destruct q'; simpl in Hprog |- *; lia).
    pose proof (stage_write _ _ _ _ _ _ Hwlow Hst' eq_refl Hp') as Hwrite.
    exists (<[j := Some q']> writes). rewrite !length_insert.
    split; [assumption|]. split.
    + intros i u m made' Hu Hm Hmade'.
      destruct (decide (i = j)) as [->|Hne].
      * rewrite list_lookup_insert_eq in Hm
          by (eapply lookup_lt_Some; eassumption).
        injection Hm as <-. rewrite Hw in Hu. injection Hu as <-.
        rewrite list_lookup_insert_eq in Hmade' by assumption.
        injection Hmade' as <-.
        destruct q' as [v'| |]; [discriminate Hp'|..]; cbn; auto.
      * rewrite list_lookup_insert_ne in Hm by congruence.
        rewrite list_lookup_insert_ne in Hmade' by congruence. eauto.
    + cbn [Async.waiting_on]. rewrite flat_insert by assumption.
      rewrite Hperm, <- app_assoc. apply Permutation_app_head.
      symmetry. apply Permutation_cons_append.
Qed.

Lemma run_asked rows0 ws base :
  NoDup ws ->
  Forall (fun w => JS.toLowerCase w = w) ws ->
  forall sched pool wld pool' wld' writes,
    Forall2 (stage rows0 (table wld)) ws pool ->
    fold_left deliver sched (pool, wld) = (pool', wld') ->
    length writes = length pool ->
    (forall i w m made,
       ws !! i = Some w -> pool !! i = Some m -> writes !! i = Some made ->
       History.asked rows0 w m made) ->
    Permutation (issued wld) (base ++ flat_map option_list writes) ->
    exists writes',
      length writes' = length pool'
      /\ (forall i w m made,
            ws !! i = Some w -> pool' !! i = Some m ->
            writes' !! i = Some made ->
            History.asked rows0 w m made)
      /\ Permutation (issued wld') (base ++ flat_map option_list writes').
Proof.
  intros Hnodup Hlow sched.
  induction sched as [|ev sched IH];
    intros pool wld pool' wld' writes Hall Hrun Hlen Hasked Hperm.
  - simpl in Hrun. injection Hrun as <- <-. eauto.
  - cbn [fold_left] in Hrun.
    destruct (deliver (pool, wld) ev) as [pool1 wld1] eqn:Hdel.
    destruct (deliver_stage _ _ _ _ _ _ _ Hnodup Hlow Hall Hdel)
      as (Hall1 & _ & _).
    destruct (deliver_asked rows0 ws pool wld ev pool1 wld1 base writes
                Hnodup Hlow Hall Hdel Hlen Hasked Hperm)
      as (writes1 & Hlen1 & Hasked1 & Hperm1).
    exact (IH _ _ _ _ writes1 Hall1 Hrun Hlen1 Hasked1 Hperm1).
Qed.

Lemma first_requests ws :
  Forall (fun w => JS.toLowerCase w = w) ws ->
  concat (map Async.waiting_on (map wordPromise ws)) = map SelectEqWord ws.
Proof.
  induction 1 as [|w ws Hw _ IH]; [reflexivity|].
  cbn [map concat]. rewrite IH, wordPromise_pending, Hw. reflexivity.
Qed.

Lemma batch_world words sched w0 :
  (addOrUpdateWordsConcurrently words sched w0).2
  = (run sched (map wordPromise (JS.spread_Set (map JS.toLowerCase words)))
         w0).2.
Proof.
  unfold addOrUpdateWordsConcurrently.
  destruct (run sched _ w0) as [pool w']. now destruct (Promise_all pool).
Qed.

(** X6.  Whatever the schedule, and whether or not the call has
    returned, the requests a call of the batch has made are, up to
    their order: one SELECT for each distinct lowercased word; and for
    each of these words at most one write, which is the INSERT of the
    word with frequency 1, or the UPDATE of the row the table had for
    the word to its frequency plus 1. *)
Theorem X6_batch_requests words sched w0 :
  exists writes : list (option Request),
    Forall2 (fun w made =>
               forall q, made = Some q -> History.write_of (table w0) w q)
            (JS.spread_Set (map JS.toLowerCase words)) writes
    /\ Permutation
         (issued (addOrUpdateWordsConcurrently words sched w0).2)
         (issued w0
          ++ map SelectEqWord (JS.spread_Set (map JS.toLowerCase words))
          ++ flat_map option_list writes).
Proof.
  rewrite batch_world. unfold run.
  set (ws := JS.spread_Set (map JS.toLowerCase words)).
  destruct (fold_left deliver sched
              (map wordPromise ws, start (map wordPromise ws) w0))
    as [pool w'] eqn:Hrun.
  destruct (run_stage (table w0) ws (spread_Set_NoDup _)
              (uniqueWords_lower _) sched (map wordPromise ws)
              (start (map wordPromise ws) w0) pool w'
              (stage_start (table w0) ws) Hrun) as (Hall & _ & _).
  destruct (run_asked (table w0) ws (issued w0 ++ map SelectEqWord ws)
              (spread_Set_NoDup _) (uniqueWords_lower words) sched
              (map wordPromise ws) (start (map wordPromise ws) w0) pool w'
              (replicate (length ws) None)
              (stage_start (table w0) ws) Hrun)
    as (writes & Hlen & Hasked & Hperm).
  - now rewrite length_replicate, length_map.
  - intros i w m made Hw Hm Hmade.
    rewrite lookup_map, Hw in Hm. injection Hm as <-.
    apply lookup_replicate in Hmade as [-> _]. reflexivity.
  - cbn [start issued].
    rewrite first_requests by apply uniqueWords_lower.
    assert (Hnone : forall n,
              flat_map option_list (replicate n (@None Request)) = [])
      by (induction n; auto).
    now rewrite Hnone, app_nil_r.
  - exists writes. cbn [snd]. split; [|now rewrite <- app_assoc in Hperm].
    apply Forall2_same_length_lookup. split.
    + rewrite Hlen. eapply Forall2_length; eassumption.
    + intros i w made Hw Hmade q Hq.
      destruct (Forall2_lookup_l _ _ _ _ _ Hall Hw) as (m & Hm & _).
      eapply asked_write; eauto.
Qed.

(** *** The rows of a call *)

Lemma stage_rows rows0 rows w m :
  stage rows0 rows w m ->
  rows_of w rows = rows_of w rows0
  \/ (exists ex, rows_of w rows0 = [ex]
        /\ rows_of w rows = [assign (increment ex) ex])
  \/ (exists now uuid, rows_of w rows0 = []
        /\ rows_of w rows = [new_row uuid now w 1]).
Proof.
  intros H.
  destruct H as [Hsame|ex H0 Hnow|H0 Hnow|ex H0 Hnow|now uuid H0 Hnow
                |Hsame|ex H0 Hnow|now uuid H0 Hnow];
    eauto 6; left; congruence.
Qed.

Lemma rows_of_word rows0 rows ws pool v :
  Forall2 (stage rows0 rows) ws pool ->
  (forall v, ~ In v ws -> rows_of v rows = rows_of v rows0) ->
  rows_of v rows = rows_of v rows0
  \/ (exists ex, rows_of v rows0 = [ex]
        /\ rows_of v rows = [assign (increment ex) ex])
  \/ (exists now uuid, In v ws /\ rows_of v rows0 = []
        /\ rows_of v rows = [new_row uuid now v 1]).
Proof.
  intros Hall Hframe.
  destruct (decide (v ∈ ws)) as [Hin|Hout].
  - pose proof Hin as Hin'. apply list_elem_of_lookup in Hin as [i Hi].
    destruct (Forall2_lookup_l _ _ _ _ _ Hall Hi) as (m & _ & Hst).
    apply stage_rows in Hst as [H|[H|(now & uuid & H0 & H1)]]; auto.
    right. right. exists now, uuid. split; [|auto].
    now apply list_elem_of_In.
  - left. apply Hframe. now rewrite <- list_elem_of_In.
Qed.

Lemma increment_same r : same_but_frequency r (assign (increment r) r).
Proof. repeat split. Qed.

(** X7.  Whatever the schedule, a call of the batch removes no row and
    touches no column but the frequency: every row the table had is
    still there with the same identifier, word, creation time and
    details, and with its frequency as it was or one more; and every row
    the table has now is such a row, or a new row for a word of the
    input that had none, with frequency 1 and no details. *)
Theorem X7_batch_changes_frequencies_only words sched w0 :
  let rows0 := table w0 in
  let rows := table (addOrUpdateWordsConcurrently words sched w0).2 in
  (forall r, In r rows0 ->
     exists r', In r' rows /\ same_but_frequency r r'
       /\ (frequency r' = frequency r \/ frequency r' = (frequency r + 1)%Z))
  /\ (forall r', In r' rows ->
        (exists r, In r rows0 /\ same_but_frequency r r'
           /\ (frequency r' = frequency r
               \/ frequency r' = (frequency r + 1)%Z))
        \/ (exists now uuid,
              r' = new_row uuid now (word r') 1
              /\ In (word r') (map JS.toLowerCase words)
              /\ rows_of (word r') rows0 = [])).
Proof.
  cbv zeta. rewrite batch_world.
  destruct (run sched
              (map wordPromise (JS.spread_Set (map JS.toLowerCase words))) w0)
    as [pool w'] eqn:Hrun.
  apply run_stages in Hrun as [Hall Hframe]. cbn [snd].
  assert (Hsame : forall r, same_but_frequency r r) by (repeat split).
  split.
  - intros r Hr.
    assert (Hin : In r (rows_of (word r) (table w0)))
      by (apply rows_of_In; auto).
    destruct (rows_of_word _ _ _ _ (word r) Hall Hframe)
      as [H|[(ex & H0 & H1)|(now & uuid & _ & H0 & _)]].
    + exists r. rewrite <- H in Hin. apply rows_of_In in Hin as [Hin _].
      auto.
    + rewrite H0 in Hin. destruct Hin as [->|[]].
      exists (assign (increment r) r). split.
      * apply (rows_of_In (word r)). rewrite H1. now left.
      * split; [apply increment_same|]. now right.
    + rewrite H0 in Hin. destruct Hin.
  - intros r' Hr'.
    assert (Hin : In r' (rows_of (word r') (table w')))
      by (apply rows_of_In; auto).
    destruct (rows_of_word _ _ _ _ (word r') Hall Hframe)
      as [H|[(ex & H0 & H1)|(now & uuid & Hws & H0 & H1)]].
    + left. exists r'. rewrite H in Hin.
      apply rows_of_In in Hin as [Hin _]. auto.
    + left. rewrite H1 in Hin. destruct Hin as [<-|[]].
      exists ex. split.
      * apply (rows_of_In (word (assign (increment ex) ex))).
        rewrite H0. now left.
      * split; [apply increment_same|]. now right.
    + right. rewrite H1 in Hin. destruct Hin as [Hr|[]].
      exists now, uuid. split; [now symmetry|].
      split; [now apply spread_Set_In|assumption].
Qed.

(** *** One call after the other *)

Lemma successes_In r results :
  In r (successes results) ->
  exists o, In o results /\ outcome_success o = true
            /\ outcome_result o = Some r.
Proof.
  unfold successes. intros H. apply in_flat_map in H as (o & Ho & Hr).
  exists o. split; [assumption|].
  destruct (outcome_success o), (outcome_result o) as [r0|];
    simpl in Hr; try contradiction.
  destruct Hr as [->|[]]. auto.
Qed.

Lemma batch_success_frequency words sched w0 batch w' w :
  addOrUpdateWordsConcurrently words sched w0 = (Some batch, w') ->
  In w (map word (success batch)) ->
  storedFrequency w (table w')
  = Some (sighted (storedFrequency w (table w0))).
Proof.
  intros H Hw. apply batch_results in H as (results & -> & Hall & _).
  simpl in Hw. apply in_map_iff in Hw as (r & <- & Hr).
  apply successes_In in Hr as (o & Ho & Hs & Hres).
  apply list_elem_of_In, list_elem_of_lookup in Ho as [i Hi].
  destruct (Forall2_lookup_r _ _ _ _ _ Hall Hi) as (v & _ & Hst).
  apply stage_resolved in Hst as [[-> _]|(r' & -> & Hr' & _ & Hfreq)].
  - discriminate Hs.
  - simpl in Hres. injection Hres as ->. now rewrite Hr'.
Qed.

(** X8.  Two submissions in a row that both report a word in [success]
    leave its stored frequency two above what it was, and at 2 when the
    word had no record: each submission counts once. *)
Theorem X8_two_submissions_count_twice
    words1 sched1 w0 batch1 w1 words2 sched2 batch2 w2 w :
  addOrUpdateWordsConcurrently words1 sched1 w0 = (Some batch1, w1) ->
  addOrUpdateWordsConcurrently words2 sched2 w1 = (Some batch2, w2) ->
  In w (map word (success batch1)) ->
  In w (map word (success batch2)) ->
  storedFrequency w (table w2)
  = Some (match storedFrequency w (table w0) with
          | Some f => (f + 2)%Z
          | None => 2%Z
          end).
Proof.
  intros H1 H2 Hw1 Hw2.
  rewrite (batch_success_frequency _ _ _ _ _ _ H2 Hw2).
  rewrite (batch_success_frequency _ _ _ _ _ _ H1 Hw1).
  destruct (storedFrequency w (table w0)) as [f|]; simpl; f_equal; lia.
Qed.

(** X9.  A submission with at least one word, once the table has served
    each of its computations twice, leaves the component idle with the
    input cleared, has called [onWordsAdded] once, and shows each
    distinct word of the text once, as processed or as failed. *)
Theorem X9_submission_shown st sched w0 :
  WordInput.words (WordInput.inputText st) <> [] ->
  fair (length (JS.spread_Set
                  (map JS.toLowerCase
                     (WordInput.words (WordInput.inputText st))))) sched
  = true ->
  exists st' w',
    WordInput.processWords st sched w0 = (st', w')
    /\ WordInput.inputText st' = ""
    /\ WordInput.isProcessing st' = false
    /\ WordInput.wordsAdded st' = S (WordInput.wordsAdded st)
    /\ List.NoDup (WordInput.processedWords st' ++ WordInput.failedWords st')
    /\ (forall x, In x (WordInput.processedWords st'
                        ++ WordInput.failedWords st')
                  <-> In x (WordInput.words (WordInput.inputText st))).
Proof.
  intros Hwords Hfair.
  rewrite (processWords_batch st sched w0 Hwords).
  destruct (addOrUpdateWordsConcurrently_returns _ sched w0 Hfair)
    as (batch & w' & Hrun).
  rewrite Hrun. eexists _, w'. split; [reflexivity|]. cbn.
  split; [reflexivity|]. split; [reflexivity|]. split; [reflexivity|].
  apply batch_results in Hrun as (results & -> & Hall & _). cbn.
  pose proof (separated _ _ _ _ Hall) as Hperm.
  split.
  - apply NoDup_ListNoDup. rewrite Hperm. apply spread_Set_NoDup.
  - intros x. rewrite <- normalized_unique. split; intros Hx.
    + apply list_elem_of_In. rewrite <- Hperm. now apply list_elem_of_In.
    + apply list_elem_of_In. rewrite Hperm. now apply list_elem_of_In.
Qed.

End BatchMore.

(** ** The definition fetcher, further *)

Section FetcherMore.
Import DictionaryApi DictionaryApiMore.

Lemma take_app_full {A} (l k : list A) n :
  length l = n -> take n (l ++ k) = l.
Proof. intros <-. now rewrite take_app_length. Qed.

Lemma forEach_eachSense_examples m senses : forall index ds es,
  length es <= 5 ->
  (JS.forEach_from index (eachSense m) senses (ds, es)).2
  = take 5 (es ++ examplesOf [{| meaning_partOfSpeech := meaning_partOfSpeech m;
                                meaning_definitions := senses |}]).
Proof.
  unfold examplesOf. cbn [flat_map meaning_definitions].
  induction senses as [|s senses IH]; intros index ds es Hes.
  - simpl. rewrite !app_nil_r. now rewrite take_ge by lia.
  - cbn [JS.forEach_from flat_map]. unfold eachSense at 2.
    rewrite !app_nil_r in *.
    destruct (sense_example s) as [e|]; [|now apply IH].
    destruct (JS.truthy e); [|now apply IH].
    destruct (length es <? 5)%nat eqn:Hlt; cbn [andb].
    + apply Nat.ltb_lt in Hlt. rewrite IH by (rewrite length_app; simpl; lia).
      now rewrite <- app_assoc.
    + apply Nat.ltb_ge in Hlt. rewrite IH by assumption.
      rewrite !take_app_full by lia. reflexivity.
Qed.

Lemma forEach_eachMeaning_examples ms : forall index ds es,
  length es <= 5 ->
  (JS.forEach_from index eachMeaning ms (ds, es)).2
  = take 5 (es ++ examplesOf ms).
Proof.
  induction ms as [|m ms IH]; intros index ds es Hes.
  - simpl. rewrite app_nil_r. now rewrite take_ge by lia.
  - cbn [JS.forEach_from]. unfold eachMeaning at 2. unfold JS.forEach.
    pose proof (forEach_eachSense_examples m (meaning_definitions m) 0 ds es
                  Hes) as Hm.
    destruct (JS.forEach_from 0 (eachSense m) (meaning_definitions m)
                (ds, es)) as [ds' es'].
    cbn [snd] in Hm. subst es'.
    rewrite IH by (rewrite length_take; lia).
    unfold examplesOf in *. cbn [flat_map meaning_definitions] in *.
    rewrite app_nil_r.
    set (new := flat_map _ (meaning_definitions m)).
    set (later := flat_map _ ms).
    destruct (decide (length (es ++ new) <= 5)) as [Hle|Hgt].
    + rewrite (take_ge (es ++ new)) by lia. now rewrite <- app_assoc.
    + transitivity (take 5 (es ++ new)).
      * apply take_app_full. rewrite length_take. lia.
      * rewrite app_assoc. symmetry. apply take_app_le. lia.
Qed.

(** X10.  Whenever the fetch gives details, their examples are the first
    three example sentences attached to the definitions of the entry, in
    order, those of definitions past the third of a meaning included;
    when no definition has an example, the one sentence made up with the
    word stands alone.  There are never none and never more than
    three. *)
Theorem X10_examples word_ fetched details :
  fetchWordDetails word_ fetched = Return (Some details) ->
  exists status wordData rest ms,
    fetched = Response status (JsonArray (wordData :: rest))
    /\ meanings wordData = Some ms
    /\ examples details
       = match examplesOf ms with
         | [] => [placeholderExample word_]
         | found => take 3 found
         end
    /\ 1 <= length (examples details) <= 3.
Proof.
  intros H.
  destruct (fetchWordDetails_details _ _ _ H)
    as (status & wordData & rest & -> & _ & Hx).
  exists status, wordData, rest.
  unfold extract in Hx.
  destruct (extractPronunciations word_ wordData) as [ps main].
  destruct (meanings wordData) as [ms|]; [|discriminate].
  exists ms. split; [reflexivity|]. split; [reflexivity|].
  pose proof (forEach_eachMeaning_examples ms 0 [] [] ltac:(simpl; lia)) as He.
  unfold JS.forEach in Hx.
  destruct (JS.forEach_from 0 eachMeaning ms ([], [])) as [ds es].
  cbn [snd app] in He. subst es.
  injection Hx as <-. cbn [examples].
  destruct (examplesOf ms) as [|e found] eqn:Hfound.
  - simpl. split; [reflexivity|lia].
  - simpl. rewrite take_take. simpl. split; [reflexivity|].
    rewrite length_take. lia.
Qed.

(** *** The pronunciations of a fetch *)

Lemma infoOf_text p :
  Spec.hasText p = true -> JS.truthy (text (Spec.infoOf p)) = true.
Proof.
  unfold Spec.hasText, Spec.infoOf. simpl.
  destruct (phonetic_text p) as [t|]; [|discriminate].
  simpl. now rewrite truthy_nonempty.
Qed.

Lemma infoOf_audio p a :
  audio (Spec.infoOf p) = Some a -> JS.trim a <> "".
Proof.
  unfold Spec.infoOf, Spec.hasAudio. simpl.
  destruct (phonetic_audio p) as [a'|]; [|discriminate].
  destruct (existsb _ _) eqn:He; [|discriminate].
  intros [= ->]. intros Ht.
  pose proof (trim_empty a) as Htrim. rewrite Ht in Htrim. simpl in Htrim.
  symmetry in Htrim. rewrite forallb_forall in Htrim.
  apply existsb_exists in He as (c & Hc & Hnot).
  rewrite (Htrim c Hc) in Hnot. discriminate.
Qed.

Lemma pronunciations_well_formed word_ wordData ps main :
  extractPronunciations word_ wordData = (ps, main) ->
  JS.truthy main = true
  /\ (exists first others, ps = first :: others /\ text first = main)
  /\ Forall (fun p => JS.truthy (text p) = true
                      /\ forall a, audio p = Some a -> JS.trim a <> "") ps.
Proof.
  rewrite extractPronunciations_spec. unfold Spec.pronunciationsOf.
  destruct (List.filter Spec.hasText (default [] (phonetics wordData)))
    as [|first others] eqn:Hf.
  - assert (Hbare : forall t, JS.truthy t = true ->
              JS.truthy t = true
              /\ (exists first others,
                    [Spec.bare t] = first :: others /\ text first = t)
              /\ Forall (fun p => JS.truthy (text p) = true
                           /\ forall a, audio p = Some a -> JS.trim a <> "")
                        [Spec.bare t]).
    { intros t Ht. split; [assumption|]. split; [eauto|].
      constructor; [|constructor]. split; [assumption|]. discriminate. }
    destruct (phonetic wordData) as [[|c p]|]; intros [= <- <-];
      now apply Hbare.
  - intros [= <- <-].
    assert (Hall : Forall (fun p => Spec.hasText p = true) (first :: others)).
    { rewrite <- Hf. apply Forall_forall. intros p Hp.
      apply list_elem_of_In, filter_In in Hp. tauto. }
    split; [apply infoOf_text; now inversion Hall|].
    split; [cbn [map]; eauto|].
    apply Forall_forall. intros q Hq. apply list_elem_of_In in Hq.
    change (In q (map Spec.infoOf (first :: others))) in Hq.
    apply in_map_iff in Hq as (p & <- & Hp).
    rewrite Forall_forall in Hall. split.
    + apply infoOf_text, Hall. now apply list_elem_of_In.
    + apply infoOf_audio.
Qed.

Lemma fetched_pronunciations word_ fetched details :
  fetchWordDetails word_ fetched = Return (Some details) ->
  JS.truthy (pronunciation details) = true
  /\ (exists first others,
        pronunciations details = first :: others
        /\ text first = pronunciation details)
  /\ Forall (fun p => JS.truthy (text p) = true
                      /\ forall a, audio p = Some a -> JS.trim a <> "")
            (pronunciations details).
Proof.
  intros H.
  destruct (fetchWordDetails_details _ _ _ H)
    as (status & wordData & rest & -> & _ & Hx).
  destruct (extract_details _ _ _ Hx) as (ms & _ & Hp & _).
  symmetry in Hp. exact (pronunciations_well_formed _ _ _ _ Hp).
Qed.

(** X11.  Whenever the fetch gives details: the primary pronunciation
    is not empty; there is at least one pronunciation entry and the text
    of the first one is the primary pronunciation; no entry has an empty
    text; and an entry that carries an audio URL carries one that is not
    blank. *)
Theorem X11_pronunciations_well_formed word_ fetched details :
  fetchWordDetails word_ fetched = Return (Some details) ->
  pronunciation details <> ""
  /\ (exists first others,
        pronunciations details = first :: others
        /\ text first = pronunciation details)
  /\ Forall (fun p => text p <> ""
                      /\ forall a, audio p = Some a -> JS.trim a <> "")
            (pronunciations details).
Proof.
  intros H. apply fetched_pronunciations in H as (Hmain & Hfirst & Hall).
  split; [intros E; rewrite E in Hmain; discriminate|].
  split; [assumption|].
  eapply Forall_impl; [exact Hall|].
  simpl. intros p [Ht Ha]. split; [|assumption].
  intros E. rewrite E in Ht. discriminate.
Qed.

(** *** Several words, one after the other *)

Lemma Map_get_set_eq {V} k (v : V) m : Map_get k (Map_set k v m) = Some v.
Proof.
  induction m as [|[k' v'] m IH]; simpl.
  - now rewrite String.eqb_refl.
  - destruct (String.eqb k' k) eqn:E; simpl.
    + now rewrite String.eqb_refl.
    + now rewrite E.
Qed.

Lemma Map_get_set_ne {V} k k' (v : V) m :
  k <> k' -> Map_get k' (Map_set k v m) = Map_get k' m.
Proof.
  intros Hne. induction m as [|[k0 v0] m IH]; simpl.
  - apply String.eqb_neq in Hne. now rewrite Hne.
  - destruct (String.eqb k0 k) eqn:E; simpl.
    + apply String.eqb_eq in E. subst k0.
      apply String.eqb_neq in Hne. now rewrite Hne.
    + destruct (String.eqb k0 k'); [reflexivity|exact IH].
Qed.

Lemma Map_set_keys {V} k (v : V) m :
  NoDup (map fst m) -> NoDup (map fst (Map_set k v m))
  /\ forall x, In x (map fst (Map_set k v m)) <-> x = k \/ In x (map fst m).
Proof.
  induction m as [|[k' v'] m IH]; simpl; intros Hnd.
  - split; [apply NoDup_singleton|]. intros x. intuition congruence.
  - apply NoDup_cons in Hnd as [Hk' Hnd].
    destruct (String.eqb k' k) eqn:E; simpl.
    + apply String.eqb_eq in E. subst k'.
      split; [now apply NoDup_cons|]. intros x. intuition congruence.
    + apply String.eqb_neq in E. destruct (IH Hnd) as [Hnd' Hin]. split.
      * apply NoDup_cons. split; [|assumption].
        rewrite list_elem_of_In, Hin. rewrite list_elem_of_In in Hk'.
        intros [->|H]; [now apply E|contradiction].
      * intros x. rewrite Hin. intuition congruence.
Qed.

Lemma fetchMultiple_keys words answers : forall n results,
  NoDup (map fst results) ->
  NoDup (map fst (fetchMultiple_from n words answers results)).
Proof.
  induction words as [|x xs IH]; intros n results Hnd; simpl; [assumption|].
  apply IH.
  destruct (fetchWordDetails x (answers n)) as [[d|]|e]; try assumption.
  now apply Map_set_keys.
Qed.

Lemma fetchMultiple_get w d words answers : forall n results,
  Map_get w (fetchMultiple_from n words answers results) = Some d
  <-> (exists i, words !! i = Some w
         /\ fetchWordDetails w (answers (n + i)) = Return (Some d)
         /\ forall j d', i < j -> words !! j = Some w ->
              fetchWordDetails w (answers (n + j)) <> Return (Some d'))
      \/ ((forall j d', words !! j = Some w ->
             fetchWordDetails w (answers (n + j)) <> Return (Some d'))
          /\ Map_get w results = Some d).
Proof.
  induction words as [|x xs IH]; intros n results.
  - simpl. split.
    + intros H. right. split; [|assumption]. intros j d' Hj. discriminate Hj.
    + intros [(i & Hi & _)|[_ H]]; [discriminate Hi|assumption].
  - cbn [fetchMultiple_from]. rewrite IH. clear IH.
    set (results' := match fetchWordDetails x (answers n) with
                     | Return (Some details) => Map_set x details results
                     | _ => results
                     end).
    assert (Hshift : forall i, S n + i = n + S i) by (intros; lia).
    split.
    + intros [(i & Hi & Hd & Hlater)|[Hnone Hget]].
      * left. exists (S i). split; [exact Hi|].
        rewrite <- Hshift. split; [exact Hd|].
        intros [|j] d' Hlt Hj; [lia|].
        rewrite <- Hshift. apply Hlater; [lia|exact Hj].
      * destruct (decide (x = w)) as [->|Hne].
        -- destruct (fetchWordDetails w (answers n)) as [[d0|]|e] eqn:Hf;
             subst results'.
           ++ rewrite Map_get_set_eq in Hget. injection Hget as ->.
              left. exists 0. split; [reflexivity|].
              rewrite Nat.add_0_r. split; [exact Hf|].
              intros [|j] d' Hlt Hj; [lia|].
              rewrite <- Hshift. now apply Hnone.
           ++ right. split; [|assumption].
              intros [|j] d' Hj.
              ** rewrite Nat.add_0_r, Hf. discriminate.
              ** rewrite <- Hshift. now apply Hnone.
           ++ right. split; [|assumption].
              intros [|j] d' Hj.
              ** rewrite Nat.add_0_r, Hf. discriminate.
              ** rewrite <- Hshift. now apply Hnone.
        -- right. split.
           ++ intros [|j] d' Hj; [injection Hj as ->; now destruct Hne|].
              rewrite <- Hshift. now apply Hnone.
           ++ subst results'.
              destruct (fetchWordDetails x (answers n)) as [[d0|]|e];
                try assumption.
              now rewrite Map_get_set_ne in Hget.
    + intros [(i & Hi & Hd & Hlater)|[Hnone Hget]].
      * destruct i as [|i].
        -- injection Hi as ->. rewrite Nat.add_0_r in Hd.
           right. split.
           ++ intros j d' Hj. rewrite Hshift. apply Hlater; [lia|exact Hj].
           ++ subst results'. rewrite Hd. apply Map_get_set_eq.
        -- left. exists i. split; [exact Hi|].
           rewrite Hshift. split; [exact Hd|].
           intros j d' Hlt Hj. rewrite Hshift.
           apply Hlater; [lia|exact Hj].
      * right. split.
        -- intros j d' Hj. rewrite Hshift. now apply Hnone.
        -- subst results'.
           destruct (fetchWordDetails x (answers n)) as [[d0|]|e] eqn:Hf;
             try assumption.
           destruct (decide (x = w)) as [->|Hne].
           ++ destruct (Hnone 0 d0 eq_refl). now rewrite Nat.add_0_r.
           ++ now rewrite Map_get_set_ne.
Qed.

(** X12.  [fetchMultipleWordDetails] maps a word to details exactly
    when one of the fetches made for that word gave details, and then to
    those of the last such fetch; a word whose fetch gives nothing, or
    fails, is left out and the words after it are still fetched.  No key
    is there twice. *)
Theorem X12_fetchMultiple words answers :
  (forall w d,
     Map_get w (fetchMultipleWordDetails words answers) = Some d
     <-> exists i, words !! i = Some w
           /\ fetchWordDetails w (answers i) = Return (Some d)
           /\ forall j d', i < j -> words !! j = Some w ->
                fetchWordDetails w (answers j) <> Return (Some d'))
  /\ List.NoDup (map fst (fetchMultipleWordDetails words answers)).
Proof.
  split.
  - intros w d. unfold fetchMultipleWordDetails.
    rewrite fetchMultiple_get. simpl. split.
    + intros [H|[_ H]]; [exact H|discriminate H].
    + intros H. now left.
  - apply NoDup_ListNoDup. apply fetchMultiple_keys. constructor.
Qed.

End FetcherMore.

(** ** Enrichment: [updateWordDetails] and the detail window *)

Section ModalMore.
Import Supabase Enrichment WordDetailModal.

Lemma updateWordDetails_alone wordId details clock link rows :
  run_alone [link] (updateWordDetails wordId details clock) rows
  = match link with
    | Down => (Async.Resolved None, rows)
    | Lost now uuid =>
        (Async.Resolved None,
         (answer now uuid (UpdateEqId (body details clock) wordId) rows).2)
    | Up now uuid =>
        match List.filter (has_id wordId) rows with
        | [r] =>
            (Async.Resolved (Some (assign (body details clock) r)),
             map (fun r => if has_id wordId r
                           then assign (body details clock) r else r) rows)
        | _ => (Async.Resolved None, rows)
        end
    end.
Proof.
  unfold updateWordDetails, body. destruct link as [|now uuid|now uuid].
  - reflexivity.
  - simpl. destruct (List.filter (has_id wordId) rows) as [|r [|r' l]];
      reflexivity.
  - simpl. destruct (List.filter (has_id wordId) rows) as [|r [|r' l]];
      reflexivity.
Qed.

Lemma filter_has_id_assign i b rows :
  List.filter (has_id i)
    (map (fun r => if has_id i r then assign b r else r) rows)
  = map (assign b) (List.filter (has_id i) rows).
Proof.
  induction rows as [|r rows IH]; [reflexivity|].
  cbn [map List.filter]. destruct (has_id i r) eqn:E.
  - change (has_id i (assign b r)) with (has_id i r). rewrite E.
    cbn [map]. now rewrite IH.
  - rewrite E. exact IH.
Qed.

Lemma answer_update_twice now1 uuid1 now2 uuid2 b1 b2 i rows :
  (forall r, assign b2 (assign b1 r) = assign b2 r) ->
  answer now2 uuid2 (UpdateEqId b2 i)
    (answer now1 uuid1 (UpdateEqId b1 i) rows).2
  = answer now2 uuid2 (UpdateEqId b2 i) rows.
Proof.
  intros Hb. cbn [answer].
  destruct (List.filter (has_id i) rows) as [|r [|r' l]] eqn:E;
    cbn [snd]; rewrite ?E; try reflexivity.
  rewrite filter_has_id_assign, E. cbn [map]. rewrite Hb. f_equal.
  rewrite map_map. apply map_ext. intros x.
  destruct (has_id i x) eqn:Ex.
  - change (has_id i (assign b1 x)) with (has_id i x). rewrite Ex. apply Hb.
  - now rewrite Ex.
Qed.

Lemma full_body_overwrites d1 c1 d2 c2 r :
  full d2 = true ->
  assign (body d2 c2) (assign (body d1 c1) r) = assign (body d2 c2) r.
Proof.
  unfold full. rewrite !andb_true_iff, !bool_decide_eq_true.
  intros [[[H1 H2] H3] H4]. unfold assign, body. cbn.
  destruct (details_pronunciation d2); [|congruence].
  destruct (details_pronunciations d2); [|congruence].
  destruct (details_definitions d2); [|congruence].
  destruct (details_examples d2); [|congruence].
  reflexivity.
Qed.

(** X13.  Of two enrichments of the same record, the later one wins
    when its payload has the four detail fields and its request reaches
    the table: what it returns, and the rows it leaves, are what they
    are without the earlier one, whether the earlier one was served,
    failed, or lost its reply. *)
Theorem X13_later_details_win wordId d1 c1 l1 d2 c2 l2 rows :
  full d2 = true ->
  served l2 = true ->
  run_alone [l2] (updateWordDetails wordId d2 c2)
    (run_alone [l1] (updateWordDetails wordId d1 c1) rows).2
  = run_alone [l2] (updateWordDetails wordId d2 c2) rows.
Proof.
  intros Hfull Hserved.
  assert (Hb : forall r, assign (body d2 c2) (assign (body d1 c1) r)
                         = assign (body d2 c2) r)
    by (intros r; now apply full_body_overwrites).
  assert (Hrows : forall now uuid,
            (run_alone [l1] (updateWordDetails wordId d1 c1) rows).2 = rows
            \/ (run_alone [l1] (updateWordDetails wordId d1 c1) rows).2
               = (answer now uuid (UpdateEqId (body d1 c1) wordId) rows).2).
  { intros now uuid. rewrite updateWordDetails_alone.
    destruct l1 as [|n1 u1|n1 u1]; [now left|now right|].
    right. cbn [answer].
    destruct (List.filter (has_id wordId) rows) as [|r [|r' l]];
      reflexivity. }
  assert (Hans : forall now uuid,
            answer now uuid (UpdateEqId (body d2 c2) wordId)
              (run_alone [l1] (updateWordDetails wordId d1 c1) rows).2
            = answer now uuid (UpdateEqId (body d2 c2) wordId) rows).
  { intros now uuid. destruct (Hrows now uuid) as [->| ->]; [reflexivity|].
    now apply answer_update_twice. }
  clear Hrows Hb. revert Hans.
  generalize (run_alone [l1] (updateWordDetails wordId d1 c1) rows).2.
  intros rows1 Hans. rewrite !updateWordDetails_alone.
  destruct l2 as [|n2 u2|n2 u2]; [discriminate Hserved| |].
  - now rewrite Hans.
  - pose proof (Hans n2 u2) as H. cbn [answer] in H.
    destruct (List.filter (has_id wordId) rows1) as [|r [|r' l]];
      destruct (List.filter (has_id wordId) rows) as [|x [|x' lx]];
      try discriminate H;
      pose proof (f_equal (fun p => data p.1) H) as H1;
      pose proof (f_equal snd H) as H2;
      cbn [fst snd data ok failure] in H1, H2; congruence.
Qed.

(** *** [fetchDetails] *)

Lemma payload_enriches r details clock :
  assign (body (payload details) clock) r = enriched r details clock.
Proof. reflexivity. Qed.

Lemma filter_single {A} (f : A -> bool) xs r x :
  List.filter f xs = [r] -> In x xs -> f x = true -> x = r.
Proof.
  intros Hf Hin Hx.
  assert (H : In x (List.filter f xs)) by (apply filter_In; auto).
  rewrite Hf in H. destruct H as [H|[]]. now symmetry.
Qed.

(** X14.  When the lookup gives details and the table answers the
    update of the one row that has the record's identifier,
    [fetchDetails] leaves the window on that row with the four detail
    fields of the lookup and the fetch time, its other fields as they
    are in the table; nothing is loading, no message is shown,
    [onWordUpdated] has been called once more, with that record; and the
    table is the one [handleWordUpdated] makes of the old rows. *)
Theorem X14_fetchDetails_enriches st cw fetched details clock now uuid rows r :
  currentWord st = Some cw ->
  DictionaryApi.fetchWordDetails (word cw) fetched
  = DictionaryApi.Return (Some details) ->
  List.filter (has_id (id cw)) rows = [r] ->
  fetchDetails st fetched clock (Up now uuid) rows
  = ({| currentWord := Some (enriched r details clock);
        isLoading := false;
        error := None;
        wordUpdated := wordUpdated st ++ [enriched r details clock] |},
     WordList.handleWordUpdated (enriched r details clock) rows).
Proof.
  intros Hcw Hfetch Hrow. unfold fetchDetails.
  rewrite Hcw, Hfetch, updateWordDetails_alone, Hrow.
  rewrite payload_enriches. cbn. f_equal.
  unfold WordList.handleWordUpdated. apply map_ext_in. intros x Hx.
  assert (Hr : has_id (id cw) r = true).
  { assert (H : In r (List.filter (has_id (id cw)) rows))
      by (rewrite Hrow; now left).
    now apply filter_In in H. }
  apply String.eqb_eq in Hr. cbn [id enriched]. rewrite Hr.
  unfold has_id. destruct (String.eqb (id x) (id cw)) eqn:E; [|reflexivity].
  rewrite (filter_single _ _ _ x Hrow Hx E). reflexivity.
Qed.

(** X15.  Whatever the lookup service and the table do, [fetchDetails]
    on a window that has a word ends with nothing loading, and the
    message of its [catch] branch is not shown. *)
Theorem X15_fetchDetails_settles st fetched clock link rows :
  currentWord st <> None ->
  isLoading (fetchDetails st fetched clock link rows).1 = false
  /\ error (fetchDetails st fetched clock link rows).1 <> Some FetchFailure.
Proof.
  intros Hcw. unfold fetchDetails.
  destruct (currentWord st) as [cw|]; [clear Hcw|congruence].
  destruct (fetchWordDetails_returns (word cw) fetched) as [[details|] ->].
  - rewrite updateWordDetails_alone.
    destruct link as [|n u|n u]; cbn; try (split; [reflexivity|discriminate]).
    destruct (List.filter (has_id (id cw)) rows) as [|r [|r' l]]; cbn;
      split; (reflexivity || discriminate).
  - cbn. split; [reflexivity|discriminate].
Qed.

(** X16.  When the lookup gives no details, for whatever reason (the
    word is not known, the service fails, the request does not get
    through), the window shows that no details were found; the record
    shown, the table and the calls of [onWordUpdated] are as before. *)
Theorem X16_no_details_shown st cw fetched clock link rows :
  currentWord st = Some cw ->
  (forall details,
     DictionaryApi.fetchWordDetails (word cw) fetched
     <> DictionaryApi.Return (Some details)) ->
  fetchDetails st fetched clock link rows
  = ({| currentWord := Some cw;
        isLoading := false;
        error := Some NoDetails;
        wordUpdated := wordUpdated st |},
     rows).
Proof.
  intros Hcw Hnone. unfold fetchDetails. rewrite Hcw.
  destruct (fetchWordDetails_returns (word cw) fetched) as [[details|] H].
  - now destruct (Hnone details).
  - rewrite H. unfold setIsLoading, setError. cbn. now rewrite Hcw.
Qed.

(** X17.  When the lookup gives details and the update does not
    succeed (the request is not served, its reply is lost, or it is not
    exactly one row that has the identifier), the window is left as it
    was: the record shown is the old one, no message is shown and
    [onWordUpdated] is not called. *)
Theorem X17_store_failure_is_silent st cw fetched details clock link rows :
  currentWord st = Some cw ->
  DictionaryApi.fetchWordDetails (word cw) fetched
  = DictionaryApi.Return (Some details) ->
  (forall now uuid, link = Up now uuid ->
     length (List.filter (has_id (id cw)) rows) <> 1) ->
  (fetchDetails st fetched clock link rows).1
  = {| currentWord := Some cw;
       isLoading := false;
       error := None;
       wordUpdated := wordUpdated st |}.
Proof.
  intros Hcw Hfetch Hfail. unfold fetchDetails.
  rewrite Hcw, Hfetch, updateWordDetails_alone.
  unfold setIsLoading, setError.
  destruct link as [|n u|n u]; cbn; rewrite ?Hcw; try reflexivity.
  specialize (Hfail n u eq_refl).
  destruct (List.filter (has_id (id cw)) rows) as [|r [|r' l]]; cbn;
    rewrite ?Hcw; try reflexivity.
  now destruct Hfail.
Qed.

(** X18.  The window fetches by itself when it opens on a row as INSERT
    made it.  After [fetchDetails], either the record shown is the one
    shown before, or the condition of the automatic fetch is false at
    every instant: a record that [fetchDetails] has put in the window is
    not fetched again by the effect, however old it gets. *)
Theorem X18_automatic_fetch :
  (forall st uuid created w f now,
     currentWord st = Some (new_row uuid created w f) ->
     fetchesOnOpen st true now = true)
  /\ (forall st fetched clock link rows,
        currentWord (fetchDetails st fetched clock link rows).1
        = currentWord st
        \/ forall isOpen now,
             fetchesOnOpen (fetchDetails st fetched clock link rows).1
               isOpen now = false).
Proof.
  split.
  - intros st uuid created w f now H. unfold fetchesOnOpen. rewrite H.
    reflexivity.
  - intros st fetched clock link rows. unfold fetchDetails.
    destruct (currentWord st) as [cw|] eqn:Hcw; [|left; exact Hcw].
    destruct (DictionaryApi.fetchWordDetails (word cw) fetched)
      as [[details|]|e] eqn:Hfetch; [|cbn; auto..].
    rewrite updateWordDetails_alone.
    destruct link as [|n u|n u]; cbn; auto.
    destruct (List.filter (has_id (id cw)) rows) as [|r [|r' l]]; cbn; auto.
    right. intros isOpen now. unfold fetchesOnOpen. cbn.
    destruct (fetched_pronunciations _ _ _ Hfetch) as [Hp _].
    rewrite Hp. cbn. now rewrite andb_false_r, andb_false_r.
Qed.

(** *** The pronunciation shown and played *)

Lemma find_existsb {A} (f : A -> bool) xs :
  existsb f xs = true <-> exists x, List.find f xs = Some x.
Proof.
  induction xs as [|x xs IH]; simpl.
  - split; [discriminate|intros [x H]; discriminate H].
  - destruct (f x); simpl; [split; eauto|exact IH].
Qed.

Lemma find_first {A} (f : A -> bool) xs x :
  List.find f xs = Some x ->
  f x = true
  /\ exists i, xs !! i = Some x /\ forall j y, j < i -> xs !! j = Some y ->
                                               f y = false.
Proof.
  induction xs as [|a xs IH]; simpl; [discriminate|].
  destruct (f a) eqn:E.
  - intros [= ->]. split; [assumption|]. exists 0. split; [reflexivity|].
    intros j y Hj. lia.
  - intros H. destruct (IH H) as (Hx & i & Hi & Hbefore).
    split; [assumption|]. exists (S i). split; [exact Hi|].
    intros [|j] y Hj Hy.
    + injection Hy as <-. exact E.
    + apply (Hbefore j); [lia|exact Hy].
Qed.

(** X19.  [playPronunciation] starts an audio exactly when [hasAudio]
    holds; the audio is then not empty, and it is that of the first
    pronunciation of the record that has one.  When there is no audio
    and the pronunciation shown is not empty, it is that text that is
    shown in the alert. *)
Theorem X19_pronunciation_played st :
  (hasAudio st = true <-> exists audioUrl, playPronunciation st = Play audioUrl)
  /\ (forall audioUrl,
        playPronunciation st = Play audioUrl ->
        audioUrl <> ""
        /\ exists cw ps i p,
             currentWord st = Some cw
             /\ pronunciations cw = Some ps
             /\ ps !! i = Some p
             /\ audio p = Some audioUrl
             /\ forall j q, j < i -> ps !! j = Some q -> silent q = true)
  /\ (forall shown,
        hasAudio st = false ->
        getDisplayPronunciation st = Some shown ->
        shown <> "" ->
        playPronunciation st = Alert shown).
Proof.
  unfold hasAudio, playPronunciation, getDisplayPronunciation.
  destruct (currentWord st) as [cw|].
  2:{ split; [|split].
      - split; [discriminate|intros [a H]; discriminate H].
      - intros a H. discriminate H.
      - intros shown _ H. discriminate H. }
  assert (Hplain :
    forall t, pronunciation cw = Some t -> t <> "" ->
      (if truthy_text (pronunciation cw)
       then Alert (default "" (pronunciation cw)) else Silent) = Alert t).
  { intros t -> Ht. cbn. destruct t; [now destruct Ht|reflexivity]. }
  assert (Hnoplay :
    forall a, (if truthy_text (pronunciation cw)
               then Alert (default "" (pronunciation cw)) else Silent)
              <> Play a).
  { intros a. destruct (truthy_text (pronunciation cw)); discriminate. }
  destruct (pronunciations cw) as [[|p ps]|] eqn:Hps.
  - cbn. split; [|split].
    + split; [discriminate|]. intros [a H]. now apply Hnoplay in H.
    + intros a H. now apply Hnoplay in H.
    + intros shown _ H Hne. now apply Hplain.
  - set (has := fun p0 : WordPronunciation => truthy_text (audio p0)).
    assert (Halert :
      forall a, (if truthy_text
                      (if JS.truthy (text p) then Some (text p)
                       else pronunciation cw)
                 then Alert (default ""
                        (if JS.truthy (text p) then Some (text p)
                         else pronunciation cw))
                 else Silent) <> Play a).
    { intros a.
      match goal with |- (if ?c then _ else _) <> _ => destruct c end;
        discriminate. }
    destruct (List.find has (p :: ps)) as [found|] eqn:Hfind.
    + destruct (find_first _ _ _ Hfind) as (Hfound & i & Hi & Hbefore).
      assert (Hex : existsb has (p :: ps) = true)
        by (apply find_existsb; eauto).
      rewrite Hex. unfold has in Hfound. rewrite Hfound.
      destruct (audio found) as [a|] eqn:Ha; [|discriminate Hfound].
      cbn [default]. split; [|split].
      * split; eauto.
      * intros a' [= <-]. split.
        -- intros ->. discriminate Hfound.
        -- exists cw, (p :: ps), i, found. repeat split; auto.
           intros j q Hj Hq. unfold silent.
           pose proof (Hbefore j q Hj Hq) as Hsilent.
           unfold has in Hsilent. now rewrite Hsilent.
      * intros shown H. discriminate H.
    + assert (Hex : existsb has (p :: ps) = false).
      { destruct (existsb has (p :: ps)) eqn:E; [|reflexivity].
        apply find_existsb in E as [x Hx]. congruence. }
      rewrite Hex. cbn [truthy_text]. split; [|split].
      * split; [discriminate|]. intros [a H]. now apply Halert in H.
      * intros a H. now apply Halert in H.
      * intros shown _ [= <-] Hne.
        destruct (text p) eqn:Ht; [now destruct Hne|reflexivity].
  - cbn. split; [|split].
    + split; [discriminate|]. intros [a H]. now apply Hnoplay in H.
    + intros a H. now apply Hnoplay in H.
    + intros shown _ H Hne. now apply Hplain.
Qed.

End ModalMore.

(** ** The list of words *)

Section ListMore.
Import Supabase Stages Requests WordList.

Lemma getFrequencyStyle_rank f :
  rank (getFrequencyStyle f)
  = if (30 <=? f)%Z then 4
    else if (20 <=? f)%Z then 3
    else if (10 <=? f)%Z then 2
    else if (5 <=? f)%Z then 1 else 0.
Proof.
  unfold getFrequencyStyle.
  destruct (30 <=? f)%Z; [reflexivity|].
  destruct (20 <=? f)%Z; [reflexivity|].
  destruct (10 <=? f)%Z; [reflexivity|].
  destruct (5 <=? f)%Z; reflexivity.
Qed.

Lemma rank_step f :
  rank (getFrequencyStyle f) <= rank (getFrequencyStyle (f + 1))
  /\ rank (getFrequencyStyle (f + 1)) <= S (rank (getFrequencyStyle f)).
Proof.
  rewrite !getFrequencyStyle_rank.
  destruct (Z.leb_spec 30 f), (Z.leb_spec 20 f), (Z.leb_spec 10 f),
    (Z.leb_spec 5 f), (Z.leb_spec 30 (f + 1)), (Z.leb_spec 20 (f + 1)),
    (Z.leb_spec 10 (f + 1)), (Z.leb_spec 5 (f + 1)); lia.
Qed.

(** X20.  The style of a frequency is decided by the range the
    frequency is in: below 5, from 5 to 9, from 10 to 19, from 20 to 29,
    30 and more; every frequency has exactly one of the five styles, and
    a larger frequency never has a lower one. *)
Theorem X20_frequency_style f :
  (getFrequencyStyle f = Common <-> (f < 5)%Z)
  /\ (getFrequencyStyle f = Rare <-> (5 <= f < 10)%Z)
  /\ (getFrequencyStyle f = Epic <-> (10 <= f < 20)%Z)
  /\ (getFrequencyStyle f = Legendary <-> (20 <= f < 30)%Z)
  /\ (getFrequencyStyle f = Mythic <-> (30 <= f)%Z)
  /\ (forall g, (f <= g)%Z ->
        rank (getFrequencyStyle f) <= rank (getFrequencyStyle g)).
Proof.
  split; [|split; [|split; [|split; [|split]]]];
    try (unfold getFrequencyStyle;
         destruct (Z.leb_spec 30 f), (Z.leb_spec 20 f), (Z.leb_spec 10 f),
           (Z.leb_spec 5 f);
         split; intros Hf; try discriminate Hf; try reflexivity; lia).
  intros g Hg. rewrite !getFrequencyStyle_rank.
  destruct (Z.leb_spec 30 f), (Z.leb_spec 20 f), (Z.leb_spec 10 f),
    (Z.leb_spec 5 f), (Z.leb_spec 30 g), (Z.leb_spec 20 g),
    (Z.leb_spec 10 g), (Z.leb_spec 5 g); lia.
Qed.

(** X21.  Whatever the schedule, a call of the batch lowers the style
    of no word of the table, and raises it by one step at most: the row
    is still there under its identifier and word, with a style that is
    the old one or the next. *)
Theorem X21_style_never_falls words sched w0 r :
  In r (table w0) ->
  exists r',
    In r' (table (addOrUpdateWordsConcurrently words sched w0).2)
    /\ id r' = id r /\ word r' = word r
    /\ rank (getFrequencyStyle (frequency r))
       <= rank (getFrequencyStyle (frequency r'))
    /\ rank (getFrequencyStyle (frequency r'))
       <= S (rank (getFrequencyStyle (frequency r))).
Proof.
  intros Hr. rewrite batch_world.
  destruct (run sched
              (map wordPromise (JS.spread_Set (map JS.toLowerCase words))) w0)
    as [pool w'] eqn:Hrun.
  apply run_stages in Hrun as [Hall Hframe]. cbn [snd].
  assert (Hin : In r (rows_of (word r) (table w0)))
    by (apply rows_of_In; auto).
  destruct (rows_of_word _ _ _ _ (word r) Hall Hframe)
    as [H|[(ex & H0 & H1)|(now & uuid & _ & H0 & _)]].
  - exists r. rewrite <- H in Hin. apply rows_of_In in Hin as [Hin _].
    repeat split; auto.
  - rewrite H0 in Hin. destruct Hin as [->|[]].
    exists (assign (increment r) r). split.
    + apply (rows_of_In (word r)). rewrite H1. now left.
    + split; [reflexivity|]. split; [reflexivity|]. apply rank_step.
  - rewrite H0 in Hin. destruct Hin.
Qed.

(** *** [handleWordUpdated] *)

Lemma handleWordUpdated_other u ws :
  ~ In (id u) (map id ws) -> handleWordUpdated u ws = ws.
Proof.
  unfold handleWordUpdated. induction ws as [|w ws IH]; [reflexivity|].
  cbn [map]. intros Hout.
  destruct (String.eqb (id w) (id u)) eqn:E.
  - apply String.eqb_eq in E. destruct Hout. now left.
  - rewrite IH; [reflexivity|]. intros H. apply Hout. now right.
Qed.

(** X22.  [handleWordUpdated] keeps the identifiers of the list, in
    their order; applying it twice is applying it once; a list that has
    the record's identifier once, at [i], is changed at [i] only, where
    it gets the record; and a list that has not the identifier is left
    as it is. *)
Theorem X22_handleWordUpdated u ws :
  map id (handleWordUpdated u ws) = map id ws
  /\ handleWordUpdated u (handleWordUpdated u ws) = handleWordUpdated u ws
  /\ (forall i old,
        List.NoDup (map id ws) -> ws !! i = Some old -> id old = id u ->
        handleWordUpdated u ws = <[i := u]> ws)
  /\ (~ In (id u) (map id ws) -> handleWordUpdated u ws = ws).
Proof.
  split; [|split; [|split]].
  - unfold handleWordUpdated. rewrite map_map. apply map_ext_in.
    intros w _. destruct (String.eqb (id w) (id u)) eqn:E; [|reflexivity].
    apply String.eqb_eq in E. now symmetry.
  - unfold handleWordUpdated. rewrite map_map. apply map_ext_in.
    intros w _. destruct (String.eqb (id w) (id u)) eqn:E.
    + now rewrite String.eqb_refl.
    + now rewrite E.
  - induction ws as [|w ws IH]; intros i old Hnd Hi Hid; [discriminate Hi|].
    cbn [map] in Hnd. apply List.NoDup_cons_iff in Hnd as [Hout Hnd].
    destruct i as [|i].
    + injection Hi as ->. unfold handleWordUpdated. cbn [map].
      rewrite Hid, String.eqb_refl. cbn. f_equal.
      apply handleWordUpdated_other. now rewrite <- Hid.
    + unfold handleWordUpdated. cbn [map].
      destruct (String.eqb (id w) (id u)) eqn:E.
      * apply String.eqb_eq in E. destruct Hout. rewrite E, <- Hid.
        apply in_map. apply list_elem_of_In.
        now apply list_elem_of_lookup_2 with i.
      * cbn. f_equal. exact (IH i old Hnd Hi Hid).
  - apply handleWordUpdated_other.
Qed.

End ListMore.

(** ** The properties above, on concrete stores and answers *)

Section ConcreteMore.
Import Supabase Stages.

Lemma X3_witness : WordInput.words "   " = [].
Proof. apply (X3_blank_text_has_no_words "   "). reflexivity. Defined.

Lemma X5_witness :
  exists batch w',
    addOrUpdateWordsConcurrently (WordInput.words Cases.sentence)
      Examples.schedule Examples.pets
    = (Some batch, w').
Proof.
  apply (X5_batch_returns (WordInput.words Cases.sentence) Examples.schedule
           Examples.pets).
  vm_compute; reflexivity.
Defined.

Lemma X7_witness :
  exists r',
    In r' (table Examples.submitted.2)
    /\ Requests.same_but_frequency Examples.cat r'
    /\ (frequency r' = 3%Z \/ frequency r' = 4%Z).
Proof.
  destruct (X7_batch_changes_frequencies_only (WordInput.words Cases.sentence)
              Examples.schedule Examples.pets) as [Hkept _].
  apply (Hkept Examples.cat). now left.
Defined.

Lemma X8_witness :
  storedFrequency "cat" (table Cases.again.2) = Some 5%Z
  /\ storedFrequency "owl" (table Cases.again.2) = Some 2%Z.
Proof.
  assert (H1 : addOrUpdateWordsConcurrently (WordInput.words Cases.sentence)
                 Examples.schedule Examples.pets
               = (Some Examples.batch, Examples.submitted.2))
    by (vm_compute; reflexivity).
  assert (H2 : addOrUpdateWordsConcurrently (WordInput.words Cases.sentence)
                 Examples.schedule Examples.submitted.2
               = (Some Cases.second, Cases.again.2))
    by (vm_compute; reflexivity).
  split.
  - rewrite (X8_two_submissions_count_twice _ _ _ _ _ _ _ _ _ "cat" H1 H2)
      by (vm_compute; tauto).
    reflexivity.
  - rewrite (X8_two_submissions_count_twice _ _ _ _ _ _ _ _ _ "owl" H1 H2)
      by (vm_compute; tauto).
    reflexivity.
Defined.

Lemma X9_witness :
  exists st' w',
    WordInput.processWords (Examples.typed Cases.sentence) Examples.schedule
      Examples.pets = (st', w')
    /\ WordInput.inputText st' = ""
    /\ WordInput.isProcessing st' = false
    /\ WordInput.wordsAdded st' = 1
    /\ List.NoDup (WordInput.processedWords st' ++ WordInput.failedWords st')
    /\ (forall x, In x (WordInput.processedWords st'
                        ++ WordInput.failedWords st')
                  <-> In x (WordInput.words Cases.sentence)).
Proof.
  apply (X9_submission_shown (Examples.typed Cases.sentence) Examples.schedule
           Examples.pets).
  - vm_compute. discriminate.
  - vm_compute; reflexivity.
Defined.

End ConcreteMore.

Section ConcreteFetchMore.
Import DictionaryApi DictionaryApiMore.

Lemma X10_witness :
  exists status wordData rest ms,
    Examples.answered = Response status (JsonArray (wordData :: rest))
    /\ meanings wordData = Some ms
    /\ examples Examples.details
       = match examplesOf ms with
         | [] => [placeholderExample "set"]
         | found => take 3 found
         end
    /\ 1 <= length (examples Examples.details) <= 3.
Proof.
  apply (X10_examples "set" Examples.answered Examples.details).
  vm_compute; reflexivity.
Defined.

Lemma X11_witness :
  pronunciation Examples.details <> ""
  /\ (exists first others,
        pronunciations Examples.details = first :: others
        /\ text first = pronunciation Examples.details)
  /\ Forall (fun p => text p <> ""
                      /\ forall a, audio p = Some a -> JS.trim a <> "")
            (pronunciations Examples.details).
Proof.
  apply (X11_pronunciations_well_formed "set" Examples.answered).
  vm_compute; reflexivity.
Defined.

(** The second and the third lookup fail; the first one is kept. *)
Lemma X12_witness :
  Map_get "set" (fetchMultipleWordDetails ["set"; "cat"; "set"] Cases.answers)
  = Some Examples.details.
Proof.
  destruct (X12_fetchMultiple ["set"; "cat"; "set"] Cases.answers)
    as [Hget _].
  apply Hget. exists 0. split; [reflexivity|].
  split; [vm_compute; reflexivity|].
  intros [|[|[|j]]] d' Hlt Hj; try lia; try discriminate Hj.
  vm_compute. discriminate.
Defined.

End ConcreteFetchMore.

Section ConcreteModal.
Import Supabase Enrichment WordDetailModal.

Lemma X13_witness :
  run_alone [Up 6000%Z "id-y"]
    (updateWordDetails "id-cat" Cases.full_payload 6000%Z)
    (run_alone [Lost 5000%Z "id-x"]
       (updateWordDetails "id-cat" Examples.examplesOnly 5000%Z)
       Cases.shelf).2
  = run_alone [Up 6000%Z "id-y"]
      (updateWordDetails "id-cat" Cases.full_payload 6000%Z) Cases.shelf.
Proof.
  apply X13_later_details_win; vm_compute; reflexivity.
Defined.

Lemma X14_witness :
  fetchDetails (opened Cases.set_) Examples.answered 7000%Z
    (Up 7001%Z "id-z") Cases.shelf
  = ({| currentWord := Some (enriched Cases.set_ Examples.details 7000%Z);
        isLoading := false;
        error := None;
        wordUpdated := [enriched Cases.set_ Examples.details 7000%Z] |},
     WordList.handleWordUpdated
       (enriched Cases.set_ Examples.details 7000%Z) Cases.shelf).
Proof.
  apply (X14_fetchDetails_enriches (opened Cases.set_) Cases.set_).
  - reflexivity.
  - vm_compute; reflexivity.
  - vm_compute; reflexivity.
Defined.

Lemma X15_witness :
  isLoading (fetchDetails (opened Cases.set_) DictionaryApi.NetworkFailure
               7000%Z Down Cases.shelf).1 = false
  /\ error (fetchDetails (opened Cases.set_) DictionaryApi.NetworkFailure
              7000%Z Down Cases.shelf).1 <> Some FetchFailure.
Proof.
  apply X15_fetchDetails_settles. discriminate.
Defined.

(** The service answers 500: the window says that nothing was found. *)
Lemma X16_witness :
  fetchDetails (opened Cases.set_) (Cases.answers 1) 7000%Z
    (Up 7001%Z "id-z") Cases.shelf
  = ({| currentWord := Some Cases.set_;
        isLoading := false;
        error := Some NoDetails;
        wordUpdated := [] |},
     Cases.shelf).
Proof.
  apply (X16_no_details_shown (opened Cases.set_) Cases.set_).
  - reflexivity.
  - intros details. vm_compute. discriminate.
Defined.

Lemma X17_witness :
  (fetchDetails (opened Cases.set_) Examples.answered 7000%Z Down
     Cases.shelf).1
  = opened Cases.set_.
Proof.
  apply (X17_store_failure_is_silent (opened Cases.set_) Cases.set_
           Examples.answered Examples.details).
  - reflexivity.
  - vm_compute; reflexivity.
  - intros now uuid H. discriminate H.
Defined.

Lemma X18_witness : fetchesOnOpen (opened Cases.set_) true 9000%Z = true.
Proof.
  destruct X18_automatic_fetch as [Hfresh _].
  apply (Hfresh (opened Cases.set_) "id-set" 1200%Z "set" 2%Z).
  reflexivity.
Defined.

(** The first pronunciation has no audio: the second one's is played. *)
Lemma X19_witness :
  "owl.mp3" <> ""
  /\ exists cw ps i p,
       currentWord (opened Cases.spoken) = Some cw
       /\ pronunciations cw = Some ps
       /\ ps !! i = Some p
       /\ audio p = Some "owl.mp3"
       /\ forall j q, j < i -> ps !! j = Some q -> silent q = true.
Proof.
  destruct (X19_pronunciation_played (opened Cases.spoken)) as (_ & Hplay & _).
  apply Hplay. reflexivity.
Defined.

End ConcreteModal.

Section ConcreteList.
Import Supabase WordList.

Lemma X20_witness :
  rank (getFrequencyStyle 9) <= rank (getFrequencyStyle 10).
Proof.
  destruct (X20_frequency_style 9) as (_ & _ & _ & _ & _ & Hmono).
  apply Hmono. lia.
Defined.

Lemma X21_witness :
  exists r',
    In r' (table Examples.submitted.2)
    /\ id r' = "id-cat" /\ word r' = "cat"
    /\ rank (getFrequencyStyle 3) <= rank (getFrequencyStyle (frequency r'))
    /\ rank (getFrequencyStyle (frequency r'))
       <= S (rank (getFrequencyStyle 3)).
Proof.
  apply (X21_style_never_falls (WordInput.words Cases.sentence)
           Examples.schedule Examples.pets Examples.cat).
  now left.
Defined.

Lemma X22_witness :
  handleWordUpdated (Enrichment.enriched Cases.set_ Examples.details 7000%Z)
    Cases.shelf
  = <[1 := Enrichment.enriched Cases.set_ Examples.details 7000%Z]>
      Cases.shelf.
Proof.
  destruct (X22_handleWordUpdated
              (Enrichment.enriched Cases.set_ Examples.details 7000%Z)
              Cases.shelf) as (_ & _ & Hat & _).
  apply (Hat 1 Cases.set_).
  - vm_compute. repeat constructor; simpl; intuition discriminate.
  - reflexivity.
  - reflexivity.
Defined.

End ConcreteList.
